(** * structuralcodes: the section integrator, verified against its description

    A shallow embedding of

      - [sections/_marin_integration.py]  ([_coeff], [marin_integration]),
      - [sections/_section_integrators.py] ([MarinIntegrator], [IntegratorFactory]),
      - [core/base.py]                     ([Material], [ConstitutiveLaw]),
      - [codes/ec2_2004/_concrete_material_properties.py] ([Ecm], [eps_c1]),

    Python floats are idealised as real numbers ([R]): rounding is not
    modelled, every arithmetic identity below is an identity of exact
    arithmetic.  Python integers are [Z] (or [nat] for loop counters and
    polynomial degrees).  Exceptions are values of [exn], and code that can
    raise returns a [result]. *)

From Stdlib Require Import Reals Lra Lia ZArith List String.
From stdpp Require Import base gmap strings pretty.
Import ListNotations.

(** ** Exceptions and the error monad *)

Inductive exn : Type :=
  | ZeroDivisionError
  | ValueError
  | IndexError.

Inductive result (A : Type) : Type :=
  | Ok (a : A)
  | Raise (e : exn).

Arguments Ok {A} a.
Arguments Raise {A} e.

Definition bind {A B : Type} (c : result A) (k : A -> result B) : result B :=
  match c with
  | Ok a => k a
  | Raise e => Raise e
  end.

Notation "x <- c1 ;; c2" := (bind c1 (fun x => c2))
  (at level 62, c1 at next level, right associativity).

(** [for x in xs: s = body x s], stopping at the first exception. *)
Fixpoint for_each {A S : Type} (xs : list A) (body : A -> S -> result S) (s : S)
  : result S :=
  match xs with
  | [] => Ok s
  | x :: xs' => s' <- body x s ;; for_each xs' body s'
  end.

(** Python's [range(n)] for a counter [n] that is not negative. *)
Definition range (n : nat) : list nat := seq 0 n.

(** [l[i]] for [i >= 0]: [IndexError] out of range. *)
Definition getitem {A : Type} (l : list A) (i : nat) : result A :=
  match nth_error l i with
  | Some x => Ok x
  | None => Raise IndexError
  end.

(** [a / b] on Python floats: [ZeroDivisionError] when [b] is zero.  The
    division at numpy scalars is [np_truediv] below. *)
Definition truediv (a b : R) : result R :=
  if Req_dec_T b 0 then Raise ZeroDivisionError else Ok (a / b)%R.

(** ** [math.comb] and the memoised coefficient [_coeff] *)

Fixpoint zfact (n : nat) : Z :=
  match n with
  | O => 1%Z
  | S p => (Z.of_nat n * zfact p)%Z
  end.

(** [math.comb(n, k)]: [ValueError] on a negative argument, zero when
    [k > n], and [n! / (k! * (n - k)!)] otherwise. *)
Definition comb (n k : Z) : result Z :=
  if ((n <? 0) || (k <? 0))%Z then Raise ValueError
  else if (n <? k)%Z then Ok 0%Z
  else Ok (zfact (Z.to_nat n) / (zfact (Z.to_nat k) * zfact (Z.to_nat (n - k))))%Z.

(** The body of [_coeff], as written. *)
Definition _coeff (m n j k : Z) : result Z :=
  a <- comb (j + k) j ;;
  b <- comb (m + n - j - k) (n - k) ;;
  Ok (a * b)%Z.

(** [functools.lru_cache] with its default [maxsize=128]: the cache is a
    list of (arguments, value), most recently used first.  A hit moves the
    entry to the front; a miss calls the function, stores the value and drops
    the least recently used entry when the cache is full; a call that raises
    stores nothing. *)
Definition quad : Type := (Z * Z * Z * Z)%type.

Definition quad_eqb (a b : quad) : bool :=
  let '(a1, a2, a3, a4) := a in
  let '(b1, b2, b3, b4) := b in
  ((a1 =? b1) && (a2 =? b2) && (a3 =? b3) && (a4 =? b4))%Z.

Definition lru_cache : Type := list (quad * Z).

Definition maxsize : nat := 128.

Fixpoint cache_get (key : quad) (c : lru_cache) : option Z :=
  match c with
  | [] => None
  | (k', v) :: c' => if quad_eqb key k' then Some v else cache_get key c'
  end.

Fixpoint cache_remove (key : quad) (c : lru_cache) : lru_cache :=
  match c with
  | [] => []
  | (k', v) :: c' =>
      if quad_eqb key k' then cache_remove key c' else (k', v) :: cache_remove key c'
  end.

Definition _coeff_args (key : quad) : result Z :=
  let '(m, n, j, k) := key in _coeff m n j k.

Definition _coeff_cached (c : lru_cache) (key : quad) : result Z * lru_cache :=
  match cache_get key c with
  | Some v => (Ok v, (key, v) :: cache_remove key c)
  | None =>
      match _coeff_args key with
      | Ok v => (Ok v, firstn maxsize ((key, v) :: c))
      | Raise e => (Raise e, c)
      end
  end.

(** The cache after a history of calls, starting from the empty cache of a
    fresh process. *)
Definition cache_after (history : list quad) : lru_cache :=
  fold_left (fun c key => snd (_coeff_cached c key)) history [].

(** ** [marin_integration]

    The three nested loops with their accumulators [mom], [ssj], [ssk].
    [_coeff] is called through its cache in the source; a call through the
    cache returns what the body computes, after every history of calls
    (proved below with the cache as explicit state), so the embedding calls
    the body. *)
Definition marin_integration (y z : list R) (m n : nat) : result R :=
  mom <- for_each (range (length y - 1)) (fun i mom =>
    ssj <- for_each (range (m + 1)) (fun j ssj =>
      ssk <- for_each (range (n + 1)) (fun k ssk =>
        c <- _coeff (Z.of_nat m) (Z.of_nat n) (Z.of_nat j) (Z.of_nat k) ;;
        zi <- getitem z i ;;
        zi1 <- getitem z (i + 1) ;;
        Ok (ssk + IZR c * zi ^ (n - k) * zi1 ^ k)%R) 0%R ;;
      yi <- getitem y i ;;
      yi1 <- getitem y (i + 1) ;;
      Ok (ssj + ssk * yi ^ (m - j) * yi1 ^ j)%R) 0%R ;;
    yi <- getitem y i ;;
    zi1 <- getitem z (i + 1) ;;
    yi1 <- getitem y (i + 1) ;;
    zi <- getitem z i ;;
    Ok (mom + ssj * (yi * zi1 - yi1 * zi))%R) 0%R ;;
  c <- comb (Z.of_nat m + Z.of_nat n) (Z.of_nat n) ;;
  truediv mom (IZR (c * (Z.of_nat m + Z.of_nat n + 1) * (Z.of_nat m + Z.of_nat n + 2))).

(** ** numpy arrays, as far as [integrate] uses them *)

Definition Rsum (l : list R) : R := fold_right Rplus 0%R l.

(** [a * b] on one-dimensional arrays: element by element, an array of one
    element is broadcast, and other shapes do not match. *)
Definition np_mul (a b : list R) : result (list R) :=
  if Nat.eqb (length a) (length b) then Ok (map (fun p => (fst p * snd p)%R) (combine a b))
  else match a, b with
       | [x], _ => Ok (map (fun v => (x * v)%R) b)
       | _, [x] => Ok (map (fun v => (v * x)%R) a)
       | _, _ => Raise ValueError
       end.

(** [[f(k) for k in xs]], stopping at the first exception. *)
Fixpoint list_comprehension {A B : Type} (f : A -> result B) (xs : list A)
  : result (list B) :=
  match xs with
  | [] => Ok []
  | x :: xs' => b <- f x ;; bs <- list_comprehension f xs' ;; Ok (b :: bs)
  end.

Definition matrix : Type := list (list R).

Definition column (B : matrix) (j : nat) : list R := map (fun row => nth j row 0%R) B.

Definition dot (u v : list R) : R := Rsum (map (fun p => (fst p * snd p)%R) (combine u v)).

(** [A @ B] for two-dimensional arrays: the rows of [A] must be as long as
    [B] has rows. *)
Definition matmul (A B : matrix) : result matrix :=
  if forallb (fun row => Nat.eqb (length row) (length B)) A
  then Ok (map (fun row => map (fun j => dot row (column B j))
                             (range (length (hd [] B)))) A)
  else Raise ValueError.

(** [M[i, j]]. *)
Definition getitem2 (M : matrix) (i j : nat) : result R :=
  row <- getitem M i ;; getitem row j.

(** ** Geometry and materials, as the integrator reads them *)

Definition point : Type := (R * R)%type.

(** The coordinates of a shapely ring: closed, the first vertex repeated as
    the last. *)
Definition LinearRing : Type := list point.

Record Polygon : Type := {
  exterior : LinearRing;
  interiors : list LinearRing
}.

(** What an intersection of shapely can be. *)
Inductive BaseGeometry : Type :=
  | IsPolygon (p : Polygon)
  | IsMultiPolygon (geoms : list Polygon)
  | IsOther.

(** The two capabilities the integrator asks of a material:
    [__marin__(strain_rotated)] gives the strain limits of the zones and a
    coefficient vector per zone, [get_stress(strain)] an array of stresses. *)
Record SectionMaterial : Type := {
  __marin__ : R * R -> list (R * R) * list (list R);
  get_stress : R -> list R
}.

Record SurfaceGeometry : Type := {
  polygon : Polygon;
  material : SectionMaterial
}.

Record PointGeometry : Type := {
  _point : point;
  area : R;
  point_material : SectionMaterial
}.

Record CompoundGeometry : Type := {
  geometries : list SurfaceGeometry;
  point_geometries : list PointGeometry
}.

Definition bbox : Type := (R * R * R * R)%type.

(** The collaborators of [prepare_input] that are not in the sources at
    hand: [CompoundGeometry.rotate], [SurfaceGeometry.split_two_lines] and
    [create_line_point_angle] of the geometry module, and shapely's [bounds],
    [orient] and [is_ccw]. *)
Record GeometryEngine : Type := {
  LineString : Type;
  rotate : CompoundGeometry -> R -> CompoundGeometry;
  bounds : Polygon -> bbox;
  create_line_point_angle : point -> R -> bbox -> LineString;
  split_two_lines : SurfaceGeometry -> LineString * LineString -> BaseGeometry;
  orient : Polygon -> R -> Polygon;
  is_ccw : LinearRing -> bool
}.

(** [math.atan2(y, x)] on floats without signed zeros: [atan2(0, 0)] is [0],
    it raises nothing. *)
Definition atan2 (y x : R) : R :=
  if Rlt_dec 0 x then atan (y / x)
  else if Rlt_dec x 0 then
    (if Rle_dec 0 y then atan (y / x) + PI else atan (y / x) - PI)%R
  else if Rlt_dec 0 y then (PI / 2)%R
  else if Rlt_dec y 0 then (- (PI / 2))%R
  else 0%R.

(** One entry of [prepared_input]: the tag ([0] a surface zone, [1] the
    reinforcement), two coordinate arrays, and the stress coefficients (or
    the forces). *)
Definition prepared : Type := (Z * list R * list R * list R)%type.

(** ** [MarinIntegrator] *)

Section MarinIntegrator.

Context (E : GeometryEngine).

(** The local function [get_input_polygon]; it appends to the
    [prepared_input] of the enclosing call, passed and returned here. *)
Definition get_input_polygon (polygon : Polygon) (coeffs : list R)
    (prepared_input : list prepared) : result (list prepared) :=
  let polygon := orient E polygon 1 in
  if negb (is_ccw E (exterior polygon)) then Raise ValueError
  else
    let x := map fst (exterior polygon) in
    let y := map snd (exterior polygon) in
    let prepared_input := prepared_input ++ [(0%Z, x, y, coeffs)] in
    for_each (interiors polygon) (fun i prepared_input =>
      if is_ccw E i then Raise ValueError
      else
        let x := map fst i in
        let y := map snd i in
        Ok (prepared_input ++ [(0%Z, x, y, coeffs)])) prepared_input.

(** Step 3 of [prepare_input]: the loop over the surface geometries,
    which cuts each polygon at the strain limits of its material. *)
Definition prepare_surfaces (rotated_geom : CompoundGeometry) (strain_rotated : R * R)
    (prepared_input : list prepared) : result (list prepared) :=
  for_each (geometries rotated_geom) (fun g prepared_input =>
    let '(strains, coeffs) := __marin__ (material g) strain_rotated in
    for_each (range (length strains)) (fun p prepared_input =>
      sp <- getitem strains p ;;
      y0 <- truediv (fst strain_rotated - fst sp) (snd strain_rotated) ;;
      y1 <- truediv (fst strain_rotated - snd sp) (snd strain_rotated) ;;
      let '(y0, y1) := if Rgt_dec y0 y1 then (y1, y0) else (y0, y1) in
      let bbox := bounds E (polygon g) in
      let line0 := create_line_point_angle E (0%R, y0) 0%R bbox in
      let line1 := create_line_point_angle E (0%R, y1) 0%R bbox in
      let lines := (line0, line1) in
      let result := split_two_lines E g lines in
      match result with
      | IsPolygon result =>
          cp <- getitem coeffs p ;;
          get_input_polygon result cp prepared_input
      | IsMultiPolygon geoms =>
          for_each geoms (fun polygon prepared_input =>
            cp <- getitem coeffs p ;;
            get_input_polygon polygon cp prepared_input) prepared_input
      | IsOther => Ok prepared_input
      end) prepared_input) prepared_input.

(** The last block of [prepare_input]: the lists [x], [y], [F] of the
    reinforcement. *)
Definition prepare_reinforcement (rotated_geom : CompoundGeometry)
    (strain_rotated : R * R) : result (list R * list R * list R) :=
  for_each (point_geometries rotated_geom) (fun pg xyF =>
    let '(x, y, F) := xyF in
    let '(xp, yp) := _point pg in
    let A := area pg in
    let strain := (fst strain_rotated - snd strain_rotated * yp)%R in
    s <- getitem (get_stress (point_material pg) strain) 0 ;;
    Ok (x ++ [xp], y ++ [yp], F ++ [(s * A)%R])) ([], [], []).

Definition prepare_input (geo : CompoundGeometry) (strain : R * R * R)
    : result (R * list prepared) :=
  let '(strain0, strain1, strain2) := strain in
  let prepared_input := [] in
  let angle := atan2 strain2 strain1 in
  let rotated_geom := rotate E geo angle in
  let strain_rotated := (strain0, sqrt (strain2 ^ 2 + strain1 ^ 2)) in
  prepared_input <- prepare_surfaces rotated_geom strain_rotated prepared_input ;;
  xyF <- prepare_reinforcement rotated_geom strain_rotated ;;
  let '(x, y, F) := xyF in
  Ok (angle, prepared_input ++ [(1%Z, x, y, F)]).

(** The body of the loop of [integrate]: the contribution of one entry to
    the resultants [N], [Mx], [My]. *)
Definition add_contribution (entry : prepared) (NM : R * R * R) : result (R * R * R) :=
  let '(i, y, z, stress_coeff) := entry in
  let '(N, Mx, My) := NM in
  if (i =? 0)%Z then
    let n := length stress_coeff in
    area_moments_N <-
      list_comprehension (fun k => marin_integration y z 0 k) (range n) ;;
    area_moments_Mx <-
      list_comprehension (fun k => marin_integration y z 0 (k + 1)) (range n) ;;
    area_moments_My <-
      list_comprehension (fun k => marin_integration y z 1 k) (range n) ;;
    pN <- np_mul stress_coeff area_moments_N ;;
    pMx <- np_mul stress_coeff area_moments_Mx ;;
    pMy <- np_mul stress_coeff area_moments_My ;;
    Ok (N + Rsum pN, Mx + Rsum pMx, My + Rsum pMy)%R
  else if (i =? 1)%Z then
    pMx <- np_mul stress_coeff z ;;
    pMy <- np_mul stress_coeff y ;;
    Ok (N + Rsum stress_coeff, Mx + Rsum pMx, My + Rsum pMy)%R
  else Ok NM.

(** The loop of [integrate]: the resultants in the rotated frame. *)
Definition accumulate (prepared_input : list prepared) : result (R * R * R) :=
  for_each prepared_input add_contribution (0, 0, 0)%R.

(** [integrate]; its [print(angle)] writes to the standard output and
    does not change what is returned. *)
Definition integrate (angle : R) (prepared_input : list prepared)
    : result (R * R * R) :=
  NM <- accumulate prepared_input ;;
  let '(N, Mx, My) := NM in
  let T := [[cos angle; sin angle]; [(- sin angle)%R; cos angle]] in
  M <- matmul T [[Mx]; [My]] ;;
  M00 <- getitem2 M 0 0 ;;
  M10 <- getitem2 M 1 0 ;;
  Ok (N, M00, M10).

Definition integrate_strain_response_on_geometry (geo : CompoundGeometry)
    (strain : R * R * R) : result (R * R * R) :=
  ap <- prepare_input geo strain ;;
  integrate (fst ap) (snd ap).

End MarinIntegrator.

(** ** Rings and their edges *)

(** The first vertex of a ring, as a list: empty for the empty ring. *)
Definition first_vertex {A : Type} (l : list A) : list A :=
  match l with
  | [] => []
  | x :: _ => [x]
  end.

(** The consecutive vertex pairs of a list as it stands. *)
Definition consecutive_pairs {A : Type} (vs : list A) : list (A * A) :=
  combine vs (tl vs).

(** ** A geometry engine to run the integrator on *)

(** The cross term of two vertices. *)
Definition cross (a b : point) : R := (fst a * snd b - fst b * snd a)%R.

(** Modelled from the spec: the rotation of a geometry, which
    [CompoundGeometry.rotate] of the geometry module (not among the sources at
    hand) performs: every coordinate is rotated about the origin, by the
    opposite of the angle of the curvature vector. *)
Definition rotate_point (angle : R) (p : point) : point :=
  (fst p * cos angle + snd p * sin angle, - fst p * sin angle + snd p * cos angle)%R.

Definition rotate_polygon (angle : R) (p : Polygon) : Polygon :=
  {| exterior := map (rotate_point angle) (exterior p);
     interiors := map (map (rotate_point angle)) (interiors p) |}.

Definition rotate_geometry (geo : CompoundGeometry) (angle : R) : CompoundGeometry :=
  {| geometries :=
       map (fun g => {| polygon := rotate_polygon angle (polygon g);
                        material := material g |}) (geometries geo);
     point_geometries :=
       map (fun pg => {| _point := rotate_point angle (_point pg);
                         area := area pg;
                         point_material := point_material pg |}) (point_geometries geo) |}.

(** Modelled from the spec: the line of [create_line_point_angle] (not among
    the sources at hand): a line through a point at an angle, as long as
    the bounding box needs it. *)
Record Line : Type := {
  through : point;
  direction : R;
  extent : bbox
}.

(** shapely's [bounds]: (minx, miny, maxx, maxy) of the exterior. *)
Definition ring_bounds (ring : LinearRing) : bbox :=
  match ring with
  | [] => (0, 0, 0, 0)%R
  | p :: ps =>
      fold_left (fun b q =>
        let '(minx, miny, maxx, maxy) := b in
        (Rmin minx (fst q), Rmin miny (snd q), Rmax maxx (fst q), Rmax maxy (snd q)))
        ps (fst p, snd p, fst p, snd p)
  end.

(** shapely's [signed_area] of a closed ring, [is_ccw], and [orient]. *)
Definition signed_area (ring : LinearRing) : R :=
  (Rsum (map (fun e => cross (fst e) (snd e)) (consecutive_pairs ring)) / 2)%R.

Definition ring_is_ccw (ring : LinearRing) : bool :=
  if Rlt_dec 0 (signed_area ring) then true else false.

Definition orient_polygon (p : Polygon) (sign : R) : Polygon :=
  {| exterior :=
       if Rle_dec 0 (signed_area (exterior p) / sign) then exterior p
       else rev (exterior p);
     interiors :=
       map (fun ring => if Rle_dec (signed_area ring / sign) 0 then ring else rev ring)
           (interiors p) |}.

(** Modelled from the spec: [split_two_lines] of the geometry module (not
    among the sources at hand) clips a polygon between two lines parallel to
    the rotated y-axis.  Each ring is cut against the two half planes in
    turn, edge by edge. *)
Definition crossing (c : R) (p q : point) : point :=
  (fst p + (c - snd p) * (fst q - fst p) / (snd q - snd p), c)%R.

Definition clip_ring (inside : point -> bool) (c : R) (ring : LinearRing) : LinearRing :=
  let kept :=
    flat_map (fun e =>
      let '(p, q) := e in
      match inside p, inside q with
      | true, true => [q]
      | true, false => [crossing c p q]
      | false, true => [crossing c p q; q]
      | false, false => []
      end) (consecutive_pairs ring) in
  match kept with
  | [] => []
  | v :: _ => kept ++ [v]
  end.

Definition clip_band (lo hi : R) (ring : LinearRing) : LinearRing :=
  clip_ring (fun p => if Rle_dec (snd p) hi then true else false) hi
    (clip_ring (fun p => if Rle_dec lo (snd p) then true else false) lo ring).

Definition split_between (g : SurfaceGeometry) (lines : Line * Line) : BaseGeometry :=
  let z0 := snd (through (fst lines)) in
  let z1 := snd (through (snd lines)) in
  let band := clip_band (Rmin z0 z1) (Rmax z0 z1) in
  match band (exterior (polygon g)) with
  | [] => IsOther
  | ring =>
      IsPolygon {| exterior := ring;
                   interiors :=
                     List.filter (fun r => negb (Nat.eqb (length r) 0))
                            (map band (interiors (polygon g))) |}
  end.

Definition reference_engine : GeometryEngine :=
  {| LineString := Line;
     rotate := rotate_geometry;
     bounds := fun p => ring_bounds (exterior p);
     create_line_point_angle := fun p angle b =>
       {| through := p; direction := angle; extent := b |};
     split_two_lines := split_between;
     orient := orient_polygon;
     is_ccw := ring_is_ccw |}.

(** ** [IntegratorFactory] *)

(** The integrator classes of the module, and the values a dictionary of the
    factory can hold: a class itself, or an instance of one (with the
    identity of the instance). *)
Inductive integrator_class : Type :=
  | MarinIntegrator.

Inductive pyvalue : Type :=
  | ClassObject (c : integrator_class)
  | InstanceOf (c : integrator_class) (id : nat).

Definition integrator_registry : gmap string pyvalue :=
  {[ "Marin"%string := ClassObject MarinIntegrator ]}.

Record IntegratorFactory : Type := {
  instances : gmap string pyvalue;
  registry : gmap string pyvalue
}.

Definition IntegratorFactory_init (registry : gmap string pyvalue) : IntegratorFactory :=
  {| instances := ∅; registry := registry |}.

(** [d.setdefault(key, value)]: the dictionary afterwards. *)
Definition setdefault (d : gmap string pyvalue) (key : string) (value : pyvalue)
  : gmap string pyvalue :=
  match d !! key with
  | Some _ => d
  | None => <[ key := value ]> d
  end.

(** [IntegratorFactory.__call__]: what is returned ([None] is Python's
    [None]) and the factory afterwards. *)
Definition IntegratorFactory_call (self : IntegratorFactory) (method : string)
  : option pyvalue * IntegratorFactory :=
  let self' :=
    {| instances :=
         setdefault (instances self) method
           (default (ClassObject MarinIntegrator) (registry self !! method));
       registry := registry self |} in
  (instances self' !! method, self').

Definition integrator_factory : IntegratorFactory :=
  IntegratorFactory_init integrator_registry.

(** The factory after a history of lookups. *)
Definition factory_after (f : IntegratorFactory) (history : list string)
  : IntegratorFactory :=
  fold_left (fun f method => snd (IntegratorFactory_call f method)) history f.

(** ** [Material] *)

Record Material : Type := {
  _density : R;
  _name : string
}.

Definition Material_init (density : R) (name : option string) : Material :=
  {| _density := Rabs density;
     _name := match name with Some n => n | None => "Material"%string end |}.

Definition density (self : Material) : R := _density self.

Definition name (self : Material) : string := _name self.

(** ** The formula of the description *)

(** The standard binomial coefficient, by Pascal's rule. *)
Fixpoint binomial (n k : nat) : nat :=
  match n, k with
  | _, O => 1
  | O, S _ => 0
  | S n', S k' => binomial n' k' + binomial n' k
  end.

(** [binom(m,n,j,k) = C(j+k, j) * C(m+n-j-k, n-k)]. *)
Definition binom (m n j k : nat) : nat :=
  binomial (j + k) j * binomial (m + n - j - k) (n - k).

Definition sum_upto (n : nat) (f : nat -> R) : R := Rsum (map f (seq 0 (S n))).

(** The double sum of one edge from [a] to [b], and the edge's term: the
    double sum weighted by the cross term. *)
Definition edge_sum (m n : nat) (a b : point) : R :=
  sum_upto m (fun j =>
    sum_upto n (fun k =>
      INR (binom m n j k) * snd a ^ (n - k) * snd b ^ k * fst a ^ (m - j) * fst b ^ j))%R.

Definition edge_term (m n : nat) (e : point * point) : R :=
  (edge_sum m n (fst e) (snd e) * cross (fst e) (snd e))%R.

Definition marin_denominator (m n : nat) : R :=
  INR (binomial (m + n) n * (m + n + 1) * (m + n + 2)).

(** The edges of a ring whose first vertex is not repeated: the consecutive
    pairs and the edge from the last vertex back to the first. *)
Definition ring_edges (vs : list point) : list (point * point) :=
  combine vs (tl vs ++ first_vertex vs).

(** The edge summation over the pairs of the list as it stands. *)
Definition edge_summation (vs : list point) (m n : nat) : R :=
  (Rsum (map (edge_term m n) (consecutive_pairs vs)) / marin_denominator m n)%R.

(** The formula as the description states it: every consecutive pair,
    the wrapping edge included. *)
Definition marin_formula (vs : list point) (m n : nat) : R :=
  (Rsum (map (edge_term m n) (ring_edges vs)) / marin_denominator m n)%R.

(** The ring closed the way shapely hands it over: the first vertex
    repeated as the last. *)
Definition close_ring {A : Type} (l : list A) : list A := l ++ first_vertex l.

(** ** Invariants, sample sections and auxiliary sums *)

(** The vertex of index [i] of two coordinate lists. *)
Definition vertex_at (y z : list R) (i : nat) : point := (nth i y 0%R, nth i z 0%R).

(** The invariant of the cache: every entry holds what the body returns
    for its arguments. *)
Definition cache_sound (c : lru_cache) : Prop :=
  Forall (fun entry => _coeff_args (fst entry) = Ok (snd entry)) c.

(** The force of a reinforcement point: the stress at the strain of the
    point times its area. *)
Definition point_force (strain_rotated : R * R) (pg : PointGeometry) : R :=
  (hd 0 (get_stress (point_material pg)
           (fst strain_rotated - snd strain_rotated * snd (_point pg))) * area pg)%R.

(** The material of a point gives a stress at the strain of the point:
    [get_stress(strain)[0]] exists. *)
Definition stress_given (strain_rotated : R * R) (pg : PointGeometry) : Prop :=
  get_stress (point_material pg)
    (fst strain_rotated - snd strain_rotated * snd (_point pg))%R <> [].

(** A material of constant stress [sigma]: no strain zone for a surface,
    [sigma] at every strain for a point. *)
Definition constant_stress (sigma : R) : SectionMaterial :=
  {| __marin__ := fun _ => ([], []);
     get_stress := fun _ => [sigma] |}.

(** A section of one reinforcement bar at (2, 3), of area 1. *)
Definition single_bar : CompoundGeometry :=
  {| geometries := [];
     point_geometries :=
       [{| _point := (2, 3)%R; area := 1; point_material := constant_stress 10 |}] |}.

(** The material of a surface geometry returns a strain zone, or none. *)
Definition has_zone (strain_rotated : R * R) (g : SurfaceGeometry) : Prop :=
  fst (__marin__ (material g) strain_rotated) <> [].

Definition has_no_zone (strain_rotated : R * R) (g : SurfaceGeometry) : Prop :=
  fst (__marin__ (material g) strain_rotated) = [].

(** A material with one strain zone, from the strain -1 to the strain 1,
    of constant stress [sigma]. *)
Definition plateau (sigma : R) : SectionMaterial :=
  {| __marin__ := fun _ => ([(-1, 1)%R], [[sigma]]);
     get_stress := fun _ => [sigma] |}.

(** A homogeneous section: the unit square, as a closed counter-clockwise
    ring. *)
Definition unit_square_section : CompoundGeometry :=
  {| geometries :=
       [{| polygon := {| exterior := [(0, 0); (1, 0); (1, 1); (0, 1); (0, 0)]%R;
                         interiors := [] |};
           material := plateau 10 |}];
     point_geometries := [] |}.

(** What a lookup of [method] gives with the registry [reg]. *)
Definition registered (reg : gmap string pyvalue) (method : string) : pyvalue :=
  default (ClassObject MarinIntegrator) (reg !! method).

(** Every cached entry is the entry of the registry, or the default. *)
Definition factory_inv (reg : gmap string pyvalue) (f : IntegratorFactory) : Prop :=
  registry f = reg
  /\ forall (k : string) (v : pyvalue), instances f !! k = Some v -> v = registered reg k.

(** One term of the double sum of an edge. *)
Definition marin_term (m n : nat) (a b : point) (j k : nat) : R :=
  (INR (binom m n j k) * snd a ^ (n - k) * snd b ^ k * fst a ^ (m - j) * fst b ^ j)%R.

(** The inner sum of an edge, over [k]. *)
Definition inner_sum (m n : nat) (a b : point) (j : nat) : R :=
  sum_upto n (marin_term m n a b j).

(** The sums of the lower orders, zero below the order zero. *)
Definition edge_sum_y (m n : nat) (a b : point) : R :=
  match m with
  | O => 0%R
  | S m' => edge_sum m' n a b
  end.

(** The same for the order in z, and for the inner sum. *)
Definition edge_sum_z (m n : nat) (a b : point) : R :=
  match n with
  | O => 0%R
  | S n' => edge_sum m n' a b
  end.

Definition inner_sum_z (m n : nat) (a b : point) (j : nat) : R :=
  match n with
  | O => 0%R
  | S n' => inner_sum m n' a b j
  end.

(** The point of the line through [p] of direction [d] at the parameter
    [t]. *)
Definition on_line (p d : point) (t : R) : point :=
  (fst p + t * fst d, snd p + t * snd d)%R.

(** A sum over the edges of a closed ring of points of a line, given by
    their parameters: each edge weighs its length in the parameter. *)
Definition line_sum (S : point -> point -> R) (p d : point) (ts : list R) : R :=
  Rsum (map (fun e => ((snd e - fst e) * S (on_line p d (fst e)) (on_line p d (snd e)))%R)
            (consecutive_pairs (close_ring ts))).

(** ** Further definitions for the properties of the code *)

(** The vertex with its two coordinates exchanged. *)
Definition transpose (p : point) : point := (snd p, fst p).

(** The sum of the edge terms of a ring closed by its first vertex. *)
Definition ring_sum (m n : nat) (vs : list point) : R :=
  Rsum (map (edge_term m n) (consecutive_pairs (close_ring vs))).

(** The resultant of a zone whose stress is the polynomial of the
    coefficients [coeff]: the sum over [k] of [coeff[k]] times the area
    moment of order [(m, k + shift)]. *)
Definition zone_resultant (vs : list point) (coeff : list R) (m shift : nat) : R :=
  dot coeff (map (fun k => edge_summation vs m (k + shift)) (range (length coeff))).

(** The shape of the entries that [prepare_input] builds: a surface zone
    has as many [y] as [z] coordinates, the reinforcement one force per
    point. *)
Definition entry_ok (e : prepared) : bool :=
  let '(i, y, z, c) := e in
  if (i =? 0)%Z then Nat.eqb (length y) (length z)
  else if (i =? 1)%Z then Nat.eqb (length y) (length c) && Nat.eqb (length z) (length c)
  else true.

(** The tags that [integrate] reads. *)
Definition known_tag (e : prepared) : bool :=
  let '(i, _, _, _) := e in ((i =? 0) || (i =? 1))%Z.

(** The entry of one ring of a polygon. *)
Definition ring_entry (coeffs : list R) (ring : LinearRing) : prepared :=
  (0%Z, map fst ring, map snd ring, coeffs).

(** Component-wise sum of two resultants. *)
Definition add_resultants (a b : R * R * R) : R * R * R :=
  let '(N1, Mx1, My1) := a in
  let '(N2, Mx2, My2) := b in
  (N1 + N2, Mx1 + Mx2, My1 + My2)%R.

(** ** [Material.update_attributes] *)

(** The values that the attributes of a material hold. *)
Inductive pyobject : Type :=
  | PyFloat (x : R)
  | PyStr (s : string)
  | PyNone.

(** The attributes of an instance, its [__dict__], are a map from their
    names; this is the [__dict__] that [Material.__init__] leaves. *)
Definition Material_dict (self : Material) : gmap string pyobject :=
  {[ "_density"%string := PyFloat (_density self);
     "_name"%string := PyStr (_name self) ]}.

Section UpdateAttributes.

(** The names that the class of the instance and its bases define (methods,
    properties, class attributes): [hasattr] finds them as well as the
    attributes of the instance. *)
Context (class_has : string -> bool).

Definition hasattr (self : gmap string pyobject) (attr : string) : bool :=
  bool_decide (is_Some (self !! attr)) || class_has attr.

(** [update_attributes]: the loop over the items of the dictionary (its
    keys are strings), in their order.  Returned are the attributes of the
    instance afterwards and the keys that were warned about, one warning per
    key.  [setattr] stores the value in the instance; this is what it does
    for a name that is no descriptor of the class. *)
Definition update_attributes (self : gmap string pyobject)
    (updated_attributes : list (string * pyobject)) : gmap string pyobject * list string :=
  fold_left (fun (state : gmap string pyobject * list string) (item : string * pyobject) =>
    if negb (hasattr (fst state) ("_" +:+ fst item))
    then (fst state, snd state ++ [fst item])
    else (<[ "_" +:+ fst item := snd item ]> (fst state), snd state))
    updated_attributes (self, []).

End UpdateAttributes.

(** ** [ConstitutiveLaw] *)

Module ConstitutiveLaw.

(** The state is the class attribute [constitutive_law_counter] of every
    class that has one of its own, by the name of the class.  When the module
    is loaded the base class alone has the attribute. *)
Definition initial : gmap string Z := {[ "ConstitutiveLaw"%string := 0%Z ]}.

(** [cls.constitutive_law_counter] (and [self.constitutive_law_counter] of
    an instance, which has no attribute of this name of its own): the
    attribute of the first class that has one along the method resolution
    order [mro], the class itself first.  [None] is an [AttributeError]. *)
Fixpoint constitutive_law_counter (mro : list string) (st : gmap string Z) : option Z :=
  match mro with
  | [] => None
  | c :: rest =>
      match st !! c with
      | Some v => Some v
      | None => constitutive_law_counter rest st
      end
  end.

Record instance : Type := {
  class_of : string;
  id : Z;
  _name : string
}.

(** The class method: [cls.constitutive_law_counter += 1] reads the
    attribute along the method resolution order and writes it on [cls]. *)
Definition _increase_global_counter (mro : list string) (st : gmap string Z)
  : option (gmap string Z) :=
  match mro with
  | [] => None
  | cls :: _ =>
      match constitutive_law_counter mro st with
      | Some v => Some (<[ cls := (v + 1)%Z ]> st)
      | None => None
      end
  end.

(** [ConstitutiveLaw.__init__] on a new instance of the class of method
    resolution order [mro]: the instance and the class attributes
    afterwards. *)
Definition __init__ (mro : list string) (name : option string) (st : gmap string Z)
  : option (instance * gmap string Z) :=
  match constitutive_law_counter mro st with
  | Some i =>
      let _name := match name with
                   | Some n => n
                   | None => "ConstitutiveLaw_" +:+ pretty i
                   end in
      match _increase_global_counter mro st with
      | Some st' => Some ({| class_of := hd ""%string mro; id := i; _name := _name |}, st')
      | None => None
      end
  | None => None
  end.

(** The property [name]. *)
Definition name (self : instance) : string := _name self.

(** A sequence of instantiations, each given by the method resolution order
    of its class and the name passed. *)
Fixpoint instantiate_all (history : list (list string * option string)) (st : gmap string Z)
  : option (list instance * gmap string Z) :=
  match history with
  | [] => Some ([], st)
  | (mro, name) :: rest =>
      match __init__ mro name st with
      | Some (i, st') =>
          match instantiate_all rest st' with
          | Some (laws, st'') => Some (i :: laws, st'')
          | None => None
          end
      | None => None
      end
  end.

End ConstitutiveLaw.

(** ** Concrete properties of EN 1992-1-1:2004, Table 3.1 *)

(** Whether a float is an integer. *)
Definition is_integer (y : R) : bool :=
  if Req_dec_T (IZR (Int_part y)) y then true else false.

(** [math.pow(x, y)] on floats read as real numbers: [x ** y] for a positive
    [x], 1 for [y = 0], and for a zero [x] 0 when [y] is positive and a
    [ValueError] when it is negative; for a negative [x] the power exists for
    an integer [y] only, and a [ValueError] is raised otherwise. *)
Definition math_pow (x y : R) : result R :=
  if Rlt_dec 0 x then Ok (Rpower x y)
  else if Req_dec_T y 0 then Ok 1%R
  else if Req_dec_T x 0 then (if Rlt_dec 0 y then Ok 0%R else Raise ValueError)
  else if is_integer y then Ok (powerRZ x (Int_part y))
  else Raise ValueError.

Definition Ecm (_fcm : R) : result R :=
  p <- math_pow (_fcm / 10) 0.3 ;;
  Ok (22000.0 * p)%R.

Definition eps_c1 (_fcm : R) : result R :=
  p <- math_pow _fcm 0.31 ;;
  Ok (Rmin (0.7 * p) 2.8 / 1000)%R.

(** ** [prepare_input] at numpy scalars *)

(** [strain] is array-like.  When the strains and the strain limits of the
    materials are Python numbers, [/] raises [ZeroDivisionError] on a zero
    divisor: this is [truediv], and [prepare_input] above is the method at
    such operands.  As soon as one operand is a numpy scalar (the components
    of a numpy array are), the quotient is a numpy [float64] as well and the
    division follows IEEE 754: a zero divisor gives an infinity, or not a
    number for [0 / 0], with a warning and (in numpy's default error state)
    no exception. *)
Inductive operands : Type :=
  | PythonFloats
  | NumpyScalars.

(** The values of a float: a real number, or one of the three others. *)
Inductive float64 : Type :=
  | Finite (x : R)
  | PosInf
  | NegInf
  | NaN.

Definition non_finite (y : float64) : bool :=
  match y with
  | Finite _ => false
  | _ => true
  end.

(** [a / b] at numpy scalars, for finite [a] and [b]; the zero that
    [prepare_input] divides by is the square root [+0.0]. *)
Definition np_truediv (a b : R) : float64 :=
  if Req_dec_T b 0 then
    (if Rlt_dec 0 a then PosInf else if Rlt_dec a 0 then NegInf else NaN)
  else Finite (a / b).

Definition truediv_at (kind : operands) (a b : R) : result float64 :=
  match kind with
  | PythonFloats => v <- truediv a b ;; Ok (Finite v)
  | NumpyScalars => Ok (np_truediv a b)
  end.

(** [a > b] on floats: false as soon as one of them is not a number. *)
Definition float64_gt (a b : float64) : bool :=
  match a, b with
  | NaN, _ => false
  | _, NaN => false
  | Finite x, Finite y => if Rgt_dec x y then true else false
  | Finite _, PosInf => false
  | Finite _, NegInf => true
  | PosInf, PosInf => false
  | PosInf, _ => true
  | NegInf, _ => false
  end.

(** What [create_line_point_angle((0, y), 0, bbox)] returns for a [y] that
    is not finite: the geometry module is not in the sources at hand, and a
    [GeometryEngine] takes real coordinates. *)
Record NonFiniteLines (E : GeometryEngine) : Type := {
  create_line_nonfinite : float64 -> bbox -> LineString E
}.

Arguments create_line_nonfinite {E} _ _ _.

Section MarinIntegratorAt.

Context (E : GeometryEngine) (X : NonFiniteLines E).

(** [create_line_point_angle((0, y), 0, bbox)] for a float [y]. *)
Definition create_line_at (y : float64) (b : bbox) : LineString E :=
  match y with
  | Finite r => create_line_point_angle E (0%R, r) 0%R b
  | _ => create_line_nonfinite X y b
  end.

(** Step 3 of [prepare_input], with the division of the kind of its
    operands. *)
Definition prepare_surfaces_at (kind : operands) (rotated_geom : CompoundGeometry)
    (strain_rotated : R * R) (prepared_input : list prepared)
  : result (list prepared) :=
  for_each (geometries rotated_geom) (fun g prepared_input =>
    let '(strains, coeffs) := __marin__ (material g) strain_rotated in
    for_each (range (length strains)) (fun p prepared_input =>
      sp <- getitem strains p ;;
      y0 <- truediv_at kind (fst strain_rotated - fst sp) (snd strain_rotated) ;;
      y1 <- truediv_at kind (fst strain_rotated - snd sp) (snd strain_rotated) ;;
      let '(y0, y1) := if float64_gt y0 y1 then (y1, y0) else (y0, y1) in
      let bbox := bounds E (polygon g) in
      let line0 := create_line_at y0 bbox in
      let line1 := create_line_at y1 bbox in
      let lines := (line0, line1) in
      let result := split_two_lines E g lines in
      match result with
      | IsPolygon result =>
          cp <- getitem coeffs p ;;
          get_input_polygon E result cp prepared_input
      | IsMultiPolygon geoms =>
          for_each geoms (fun polygon prepared_input =>
            cp <- getitem coeffs p ;;
            get_input_polygon E polygon cp prepared_input) prepared_input
      | IsOther => Ok prepared_input
      end) prepared_input) prepared_input.

Definition prepare_input_at (kind : operands) (geo : CompoundGeometry)
    (strain : R * R * R) : result (R * list prepared) :=
  let '(strain0, strain1, strain2) := strain in
  let prepared_input := [] in
  let angle := atan2 strain2 strain1 in
  let rotated_geom := rotate E geo angle in
  let strain_rotated := (strain0, sqrt (strain2 ^ 2 + strain1 ^ 2)) in
  prepared_input <- prepare_surfaces_at kind rotated_geom strain_rotated prepared_input ;;
  xyF <- prepare_reinforcement rotated_geom strain_rotated ;;
  let '(x, y, F) := xyF in
  Ok (angle, prepared_input ++ [(1%Z, x, y, F)]).

Definition integrate_strain_response_on_geometry_at (kind : operands)
    (geo : CompoundGeometry) (strain : R * R * R) : result (R * R * R) :=
  ap <- prepare_input_at kind geo strain ;;
  integrate (fst ap) (snd ap).

(** The clipping returns no polygon between two lines that are not at a
    finite ordinate. *)
Definition nothing_between_nonfinite_lines (g : SurfaceGeometry) : Prop :=
  forall y0 y1 : float64,
    non_finite y0 = true -> non_finite y1 = true ->
    split_two_lines E g (create_line_at y0 (bounds E (polygon g)),
                         create_line_at y1 (bounds E (polygon g))) = IsOther.

End MarinIntegratorAt.

(** An assumption to run the reference engine on: a line at an ordinate
    that is not finite lies off the bounding box, above it, so that the band
    between two such lines holds nothing of the polygon. *)
Definition off_box_lines : NonFiniteLines reference_engine :=
  Build_NonFiniteLines reference_engine
    (fun _ b => {| through := (0, snd b + 1)%R; direction := 0%R; extent := b |}).


(** * Properties *)

(** ** Binomial coefficients *)

Lemma zfact_pos (n : nat) : (0 < zfact n)%Z.
Proof. induction n as [|n IH]; cbn [zfact]; lia. Qed.

Lemma binomial_gt (n : nat) : forall k, n < k -> binomial n k = 0.
Proof.
  induction n as [|n IH]; intros [|k] H; cbn [binomial]; try lia.
  rewrite !IH by lia. reflexivity.
Qed.

Lemma binomial_diag (n : nat) : binomial n n = 1.
Proof.
  induction n as [|n IH]; [reflexivity|].
  cbn [binomial]. rewrite IH, binomial_gt by lia. reflexivity.
Qed.

Lemma binomial_pos (n : nat) : forall k, k <= n -> 0 < binomial n k.
Proof.
  induction n as [|n IH]; intros [|k] H; cbn [binomial]; try lia.
  specialize (IH k ltac:(lia)). lia.
Qed.

(** Pascal's triangle agrees with the quotient of factorials. *)
Lemma zfact_binomial (n : nat) :
  forall k, k <= n ->
    zfact n = (Z.of_nat (binomial n k) * (zfact k * zfact (n - k)))%Z.
Proof.
  induction n as [|n IH]; intros k H.
  - assert (k = 0) as -> by lia. reflexivity.
  - destruct k as [|k].
    + rewrite Nat.sub_0_r. change (zfact 0) with 1%Z. cbn [binomial]. lia.
    + cbn [binomial]. replace (S n - S k) with (n - k) by lia.
      rewrite Nat2Z.inj_add, Z.mul_add_distr_r.
      destruct (Nat.eq_dec k n) as [->|Hne].
      * rewrite binomial_diag, (binomial_gt n (S n)) by lia.
        rewrite Nat.sub_diag. cbn [zfact]. lia.
      * pose proof (IH k ltac:(lia)) as H1.
        pose proof (IH (S k) ltac:(lia)) as H2.
        replace (n - k) with (S (n - S k)) in * by lia.
        cbn [zfact] in *.
        replace (Z.of_nat (S (n - S k))) with (Z.of_nat n - Z.of_nat k)%Z in * by lia.
        replace (Z.of_nat (S n)) with (Z.of_nat n + 1)%Z by lia.
        replace (Z.of_nat (S k)) with (Z.of_nat k + 1)%Z in * by lia.
        transitivity ((Z.of_nat k + 1) * zfact n
                      + (Z.of_nat n - Z.of_nat k) * zfact n)%Z; [ring|].
        rewrite H1 at 1. rewrite H2. ring.
Qed.

Lemma comb_binomial (n k : nat) :
  k <= n -> comb (Z.of_nat n) (Z.of_nat k) = Ok (Z.of_nat (binomial n k)).
Proof.
  intros H. unfold comb.
  destruct (Z.ltb_spec (Z.of_nat n) 0); [lia|].
  destruct (Z.ltb_spec (Z.of_nat k) 0); [lia|].
  destruct (Z.ltb_spec (Z.of_nat n) (Z.of_nat k)); [lia|].
  cbn [orb]. f_equal.
  replace (Z.of_nat n - Z.of_nat k)%Z with (Z.of_nat (n - k)) by lia.
  rewrite !Nat2Z.id, (zfact_binomial n k H).
  apply Z.div_mul.
  pose proof (zfact_pos k). pose proof (zfact_pos (n - k)). nia.
Qed.

Lemma coeff_binom (m n j k : nat) :
  j <= m -> k <= n ->
  _coeff (Z.of_nat m) (Z.of_nat n) (Z.of_nat j) (Z.of_nat k)
  = Ok (Z.of_nat (binom m n j k)).
Proof.
  intros Hj Hk. unfold _coeff, binom.
  replace (Z.of_nat j + Z.of_nat k)%Z with (Z.of_nat (j + k)) by lia.
  rewrite comb_binomial by lia. cbn [bind].
  replace (Z.of_nat m + Z.of_nat n - Z.of_nat j - Z.of_nat k)%Z
    with (Z.of_nat (m + n - j - k)) by lia.
  replace (Z.of_nat n - Z.of_nat k)%Z with (Z.of_nat (n - k)) by lia.
  rewrite comb_binomial by lia. cbn [bind].
  rewrite Nat2Z.inj_mul. reflexivity.
Qed.

(** ** Loops as sums *)

Lemma Rsum_nil : Rsum [] = 0%R.
Proof. reflexivity. Qed.

Lemma Rsum_cons (x : R) (l : list R) : Rsum (x :: l) = (x + Rsum l)%R.
Proof. reflexivity. Qed.

Lemma Rsum_app (l1 l2 : list R) : Rsum (l1 ++ l2) = (Rsum l1 + Rsum l2)%R.
Proof.
  induction l1 as [|x l1 IH]; cbn [app]; rewrite ?Rsum_cons, ?Rsum_nil; [lra|].
  rewrite IH. lra.
Qed.

Lemma Rsum_rev (l : list R) : Rsum (rev l) = Rsum l.
Proof.
  induction l as [|x l IH]; [reflexivity|].
  cbn [rev]. rewrite Rsum_app, IH, !Rsum_cons, Rsum_nil. lra.
Qed.

Lemma Rsum_map_ext_in {A : Type} (f g : A -> R) (l : list A) :
  (forall x, In x l -> f x = g x) -> Rsum (map f l) = Rsum (map g l).
Proof. intros H. f_equal. apply map_ext_in, H. Qed.

Lemma Rsum_map_scale {A : Type} (f : A -> R) (c : R) (l : list A) :
  (Rsum (map f l) * c)%R = Rsum (map (fun x => (f x * c)%R) l).
Proof.
  induction l as [|x l IH]; cbn [map]; rewrite ?Rsum_cons, ?Rsum_nil; [lra|].
  rewrite <- IH. lra.
Qed.

Lemma Rsum_map_opp {A : Type} (f : A -> R) (l : list A) :
  Rsum (map (fun x => (- f x)%R) l) = (- Rsum (map f l))%R.
Proof.
  induction l as [|x l IH]; cbn [map]; rewrite ?Rsum_cons, ?Rsum_nil; [lra|].
  rewrite IH. lra.
Qed.

(** A loop whose body adds [f x] to its accumulator computes a sum. *)
Lemma for_each_sum {A : Type} (xs : list A) (body : A -> R -> result R) (f : A -> R) :
  (forall x s, In x xs -> body x s = Ok (s + f x)%R) ->
  forall s0, for_each xs body s0 = Ok (s0 + Rsum (map f xs))%R.
Proof.
  induction xs as [|x xs IH]; intros Hb s0; cbn [for_each map];
    rewrite ?Rsum_cons, ?Rsum_nil.
  - f_equal. lra.
  - rewrite Hb by (left; reflexivity). cbn [bind].
    rewrite IH by (intros; apply Hb; right; assumption).
    f_equal. lra.
Qed.

Lemma getitem_nth {A : Type} (l : list A) (i : nat) (d : A) :
  i < length l -> getitem l i = Ok (nth i l d).
Proof.
  intros H. unfold getitem. rewrite (nth_error_nth' l d H). reflexivity.
Qed.

Lemma getitem_out {A : Type} (l : list A) (i : nat) :
  length l <= i -> getitem l i = Raise IndexError.
Proof.
  intros H. unfold getitem.
  apply nth_error_None in H. rewrite H. reflexivity.
Qed.

Lemma marin_denominator_pos (m n : nat) : (0 < marin_denominator m n)%R.
Proof.
  unfold marin_denominator. apply lt_0_INR.
  pose proof (binomial_pos (m + n) n ltac:(lia)). nia.
Qed.

(** The three loops compute the edge terms of the index pairs [(i, i+1)],
    [i < len(y) - 1], and nothing is raised when [z] is as long as [y]. *)
Lemma marin_integration_indices (y z : list R) (m n : nat) :
  length y <= length z ->
  marin_integration y z m n
  = Ok (Rsum (map (fun i => edge_term m n (vertex_at y z i, vertex_at y z (i + 1)))
                  (seq 0 (length y - 1)))
        / marin_denominator m n)%R.
Proof.
  intros Hlen. unfold marin_integration, range.
  rewrite (for_each_sum _ _
             (fun i => edge_term m n (vertex_at y z i, vertex_at y z (i + 1)))).
  - cbn [bind].
    replace (Z.of_nat m + Z.of_nat n)%Z with (Z.of_nat (m + n)) by lia.
    rewrite comb_binomial by lia. cbn [bind].
    replace (Z.of_nat (binomial (m + n) n) * (Z.of_nat (m + n) + 1)
             * (Z.of_nat (m + n) + 2))%Z
      with (Z.of_nat (binomial (m + n) n * (m + n + 1) * (m + n + 2))) by lia.
    rewrite <- INR_IZR_INZ. fold (marin_denominator m n).
    unfold truediv. pose proof (marin_denominator_pos m n).
    destruct (Req_dec_T _ _); [lra|]. f_equal. lra.
  - intros i mom Hi. apply in_seq in Hi.
    rewrite (for_each_sum _ _
               (fun j => (Rsum (map (fun k =>
                  INR (binom m n j k) * nth i z 0 ^ (n - k) * nth (i + 1) z 0 ^ k)
                  (seq 0 (n + 1))) * nth i y 0 ^ (m - j) * nth (i + 1) y 0 ^ j)%R)).
    + cbn [bind]. rewrite !(getitem_nth _ _ 0%R) by lia. cbn [bind].
      f_equal. unfold edge_term, edge_sum, sum_upto, cross, vertex_at.
      cbn [fst snd]. rewrite !Nat.add_1_r. rewrite Rplus_0_l.
      f_equal. f_equal. apply Rsum_map_ext_in. intros j _.
      rewrite Rmult_assoc, Rsum_map_scale.
      apply Rsum_map_ext_in. intros k _. ring.
    + intros j ssj Hj. apply in_seq in Hj.
      rewrite (for_each_sum _ _
        (fun k => (INR (binom m n j k) * nth i z 0 ^ (n - k) * nth (i + 1) z 0 ^ k)%R)).
      * cbn [bind]. rewrite !(getitem_nth _ _ 0%R) by lia. cbn [bind].
        f_equal. lra.
      * intros k ssk Hk. apply in_seq in Hk.
        rewrite coeff_binom by lia. cbn [bind].
        rewrite !(getitem_nth _ _ 0%R) by lia. cbn [bind].
        rewrite <- INR_IZR_INZ. reflexivity.
Qed.

Lemma consecutive_pairs_indices (y : list R) :
  forall z, length y = length z ->
    map (fun i => (vertex_at y z i, vertex_at y z (i + 1))) (seq 0 (length y - 1))
    = consecutive_pairs (combine y z).
Proof.
  induction y as [|a y IH]; intros [|b z] Hlen; try discriminate; [reflexivity|].
  destruct y as [|a' y]; destruct z as [|b' z]; try discriminate; [reflexivity|].
  specialize (IH (b' :: z) ltac:(cbn in *; lia)).
  cbn [length Nat.sub] in *. rewrite Nat.sub_0_r in *.
  cbn [seq map]. rewrite <- seq_shift, map_map.
  unfold consecutive_pairs in *. cbn [combine tl] in *.
  f_equal. rewrite <- IH. apply map_ext. intros i. reflexivity.
Qed.

(** [marin_integration] on equally long lists: the edge summation over the
    consecutive pairs of the list as it stands. *)
Lemma marin_integration_edges (y z : list R) (m n : nat) :
  length y = length z ->
  marin_integration y z m n = Ok (edge_summation (combine y z) m n).
Proof.
  intros Hlen. rewrite marin_integration_indices by lia.
  unfold edge_summation. rewrite <- consecutive_pairs_indices by assumption.
  rewrite map_map. reflexivity.
Qed.

(** ** Consecutive pairs: closing and reversing a ring *)

Lemma consecutive_pairs_cons {A : Type} (a b : A) (l : list A) :
  consecutive_pairs (a :: b :: l) = (a, b) :: consecutive_pairs (b :: l).
Proof. reflexivity. Qed.

Lemma consecutive_pairs_snoc {A : Type} (l : list A) (b a : A) :
  consecutive_pairs (l ++ [b; a]) = consecutive_pairs (l ++ [b]) ++ [(b, a)].
Proof.
  induction l as [|x l IH]; [reflexivity|].
  destruct l as [|x' l]; [reflexivity|].
  cbn [app] in *. rewrite !consecutive_pairs_cons, IH. reflexivity.
Qed.

Lemma combine_app_longer {A B : Type} (l t : list A) :
  forall l' : list B, length l' <= length l -> combine (l ++ t) l' = combine l l'.
Proof.
  induction l as [|x l IH]; intros [|x' l'] H; cbn in *; try reflexivity; try lia.
  - destruct t; reflexivity.
  - f_equal. apply IH. lia.
Qed.

Lemma consecutive_pairs_close_ring (vs : list point) :
  consecutive_pairs (close_ring vs) = ring_edges vs.
Proof.
  unfold consecutive_pairs, ring_edges, close_ring.
  destruct vs as [|v vs]; [reflexivity|].
  cbn [app first_vertex tl]. apply (combine_app_longer (v :: vs) [v]).
  rewrite length_app. cbn. lia.
Qed.

Lemma combine_close_ring (y : list R) :
  forall z : list R, length y = length z ->
    combine (close_ring y) (close_ring z) = close_ring (combine y z).
Proof.
  unfold close_ring. intros z Hlen.
  destruct y as [|a y]; destruct z as [|b z]; try discriminate; [reflexivity|].
  cbn [first_vertex combine app]. f_equal.
  revert z Hlen. induction y as [|a' y IH]; intros [|b' z] Hlen; try discriminate;
    [reflexivity|].
  cbn [combine app]. f_equal. apply IH. cbn in *. lia.
Qed.

Lemma length_close_ring {A : Type} (l l' : list A) :
  length l = length l' -> length (close_ring l) = length (close_ring l').
Proof.
  unfold close_ring. intros H. rewrite !length_app, H.
  destruct l, l'; try discriminate; reflexivity.
Qed.

(** ** The edge term under a change of direction *)

Lemma rev_seq_upto (n : nat) :
  rev (seq 0 (S n)) = map (fun k => n - k) (seq 0 (S n)).
Proof.
  induction n as [|n IH]; [reflexivity|].
  rewrite seq_S at 1. rewrite rev_app_distr. cbn [rev app Nat.add].
  rewrite IH. change (seq 0 (S (S n))) with (0 :: seq 1 (S n)).
  cbn [map]. rewrite <- seq_shift, map_map. reflexivity.
Qed.

Lemma sum_upto_rev (n : nat) (f : nat -> R) :
  sum_upto n f = sum_upto n (fun k => f (n - k)).
Proof.
  unfold sum_upto. rewrite <- (Rsum_rev (map f _)), <- map_rev, rev_seq_upto, map_map.
  reflexivity.
Qed.

Lemma sum_upto_ext (n : nat) (f g : nat -> R) :
  (forall k, k <= n -> f k = g k) -> sum_upto n f = sum_upto n g.
Proof.
  intros H. apply Rsum_map_ext_in. intros k Hk. apply in_seq in Hk. apply H. lia.
Qed.

Lemma binomial_sym (n k : nat) : k <= n -> binomial n (n - k) = binomial n k.
Proof.
  intros H.
  pose proof (zfact_binomial n k H) as H1.
  pose proof (zfact_binomial n (n - k) ltac:(lia)) as H2.
  replace (n - (n - k)) with k in H2 by lia.
  pose proof (zfact_pos k). pose proof (zfact_pos (n - k)).
  apply Nat2Z.inj.
  apply (Z.mul_cancel_r _ _ (zfact k * zfact (n - k))); [nia|].
  rewrite <- H1, H2. ring.
Qed.

Lemma binom_sym (m n j k : nat) :
  j <= m -> k <= n -> binom m n (m - j) (n - k) = binom m n j k.
Proof.
  intros Hj Hk. unfold binom.
  replace (m + n - (m - j) - (n - k)) with (j + k) by lia.
  replace (n - (n - k)) with k by lia.
  replace (m - j + (n - k)) with (m + n - j - k) by lia.
  assert (binomial (m + n - j - k) (m - j) = binomial (m + n - j - k) (n - k)) as ->.
  { rewrite <- (binomial_sym (m + n - j - k) (n - k)) by lia. f_equal. lia. }
  assert (binomial (j + k) k = binomial (j + k) j) as ->.
  { rewrite <- (binomial_sym (j + k) j) by lia. f_equal. lia. }
  apply Nat.mul_comm.
Qed.

Lemma edge_sum_sym (m n : nat) (a b : point) : edge_sum m n b a = edge_sum m n a b.
Proof.
  unfold edge_sum. rewrite sum_upto_rev. apply sum_upto_ext. intros j Hj.
  rewrite sum_upto_rev. apply sum_upto_ext. intros k Hk.
  rewrite binom_sym by assumption.
  replace (m - (m - j)) with j by lia.
  replace (n - (n - k)) with k by lia.
  ring.
Qed.

Lemma edge_term_swap (m n : nat) (a b : point) :
  edge_term m n (b, a) = (- edge_term m n (a, b))%R.
Proof.
  unfold edge_term, cross. cbn [fst snd]. rewrite (edge_sum_sym m n a b). ring.
Qed.

Lemma edge_term_loop (m n : nat) (a : point) : edge_term m n (a, a) = 0%R.
Proof. unfold edge_term, cross. cbn [fst snd]. ring. Qed.




(** ** The moments of the unit square *)

(** Evaluates the edge summation of a ring given by its vertices. *)
Ltac ring_moment :=
  unfold edge_summation, marin_formula, marin_denominator, consecutive_pairs,
    ring_edges, edge_term, edge_sum, sum_upto, cross, binom;
  cbn [combine tl app first_vertex map seq fst snd Rsum fold_right binomial
       Nat.add Nat.sub Nat.mul pow INR].

(** C4: for the unit square (0,0),(1,0),(1,1),(0,1), counter-clockwise, the
    first vertex not repeated, [marin_integration] returns 1 for the order
    (0,0), and 1/2 for the orders (1,0) and (0,1). *)
Theorem unit_square_moments :
  let y := [0; 1; 1; 0]%R in
  let z := [0; 0; 1; 1]%R in
  marin_integration y z 0 0 = Ok 1%R
  /\ marin_integration y z 1 0 = Ok (1 / 2)%R
  /\ marin_integration y z 0 1 = Ok (1 / 2)%R.
Proof.
  cbv zeta. rewrite !marin_integration_edges by reflexivity.
  ring_moment.
  repeat split; f_equal; field.
Qed.

(** ** The edge summation: which edges are summed *)

(** C2, as stated, fails: on the square (1,1),(2,1),(2,2),(1,2), the first
    vertex not repeated, the code returns 3/2 for the order (0,0), and the
    formula with the wrapping edge gives the area 1. *)
Lemma marin_integration_no_wrapping_edge :
  let y := [1; 2; 2; 1]%R in
  let z := [1; 1; 2; 2]%R in
  marin_integration y z 0 0 = Ok (3 / 2)%R
  /\ marin_formula (combine y z) 0 0 = 1%R
  /\ marin_integration y z 0 0 <> Ok (marin_formula (combine y z) 0 0).
Proof.
  cbv zeta.
  assert (marin_integration [1; 2; 2; 1]%R [1; 1; 2; 2]%R 0 0 = Ok (3 / 2)%R) as H1.
  { rewrite marin_integration_edges by reflexivity.
    ring_moment.
    f_equal. field. }
  assert (marin_formula (combine [1; 2; 2; 1]%R [1; 1; 2; 2]%R) 0 0 = 1%R) as H2.
  { ring_moment. field. }
  split; [exact H1|]. split; [exact H2|].
  rewrite H1, H2. intros H. injection H as H. lra.
Qed.

(** C2, amended: on equally long lists [marin_integration] is the edge
    summation over the consecutive pairs [(i, i+1)], [i < len(y) - 1], of
    the lists as they stand, without an edge from the last vertex to the
    first; it is the formula over all edges of the ring, the wrapping edge
    included, when the ring is passed closed, its first vertex repeated as
    the last. *)
Theorem marin_integration_closed_ring (y z : list R) (m n : nat) :
  length y = length z ->
  marin_integration y z m n = Ok (edge_summation (combine y z) m n)
  /\ marin_integration (close_ring y) (close_ring z) m n
     = Ok (marin_formula (combine y z) m n).
Proof.
  intros Hlen. split; [apply marin_integration_edges, Hlen|].
  rewrite marin_integration_edges by (apply length_close_ring, Hlen).
  unfold edge_summation, marin_formula.
  rewrite combine_close_ring, consecutive_pairs_close_ring by assumption.
  reflexivity.
Qed.

Lemma marin_integration_closed_ring_witness :
  length [1; 2; 2; 1]%R = length [1; 1; 2; 2]%R
  /\ marin_integration (close_ring [1; 2; 2; 1]%R) (close_ring [1; 1; 2; 2]%R) 0 0
     = Ok (marin_formula (combine [1; 2; 2; 1]%R [1; 1; 2; 2]%R) 0 0).
Proof.
  split; [reflexivity|].
  apply (marin_integration_closed_ring [1; 2; 2; 1]%R [1; 1; 2; 2]%R 0 0).
  reflexivity.
Defined.

(** ** The memoised coefficient *)

Lemma quad_eqb_eq (a b : quad) : quad_eqb a b = true -> a = b.
Proof.
  destruct a as [[[a1 a2] a3] a4], b as [[[b1 b2] b3] b4]. cbn [quad_eqb].
  rewrite !Bool.andb_true_iff, !Z.eqb_eq. intros [[[-> ->] ->] ->]. reflexivity.
Qed.

Lemma cache_get_sound (key : quad) (c : lru_cache) (v : Z) :
  cache_sound c -> cache_get key c = Some v -> _coeff_args key = Ok v.
Proof.
  unfold cache_sound. induction c as [|[k' v'] c IH]; intros Hs Hg; [discriminate|].
  inversion Hs as [|? ? Hhd Htl]; subst. cbn [cache_get] in Hg.
  destruct (quad_eqb key k') eqn:Heq.
  - apply quad_eqb_eq in Heq. subst k'. injection Hg as <-. exact Hhd.
  - apply IH; assumption.
Qed.

Lemma cache_remove_sound (key : quad) (c : lru_cache) :
  cache_sound c -> cache_sound (cache_remove key c).
Proof.
  unfold cache_sound. induction c as [|[k' v'] c IH]; intros Hs; [constructor|].
  inversion Hs as [|? ? Hhd Htl]; subst. cbn [cache_remove].
  destruct (quad_eqb key k'); [apply IH, Htl|].
  constructor; [exact Hhd | apply IH, Htl].
Qed.

Lemma firstn_sound (n : nat) (c : lru_cache) :
  cache_sound c -> cache_sound (firstn n c).
Proof.
  unfold cache_sound. revert c. induction n as [|n IH]; intros [|e c] Hs;
    cbn [firstn]; try constructor; inversion Hs; subst; auto.
Qed.

(** A call through a sound cache returns what the body returns, and leaves
    a sound cache. *)
Lemma coeff_cached_body (c : lru_cache) (key : quad) :
  cache_sound c ->
  fst (_coeff_cached c key) = _coeff_args key
  /\ cache_sound (snd (_coeff_cached c key)).
Proof.
  intros Hs. unfold _coeff_cached.
  destruct (cache_get key c) as [v|] eqn:Hg.
  - pose proof (cache_get_sound key c v Hs Hg) as Hv. cbn [fst snd]. split.
    + symmetry. exact Hv.
    + constructor; [exact Hv | apply cache_remove_sound, Hs].
  - destruct (_coeff_args key) as [v|e] eqn:Hv; cbn [fst snd]; split;
      try reflexivity; try exact Hs.
    apply firstn_sound. constructor; [exact Hv | exact Hs].
Qed.

Lemma cache_after_sound (history : list quad) : cache_sound (cache_after history).
Proof.
  unfold cache_after.
  assert (forall c, cache_sound c ->
            cache_sound (fold_left (fun c key => snd (_coeff_cached c key)) history c))
    as H.
  { induction history as [|key history IH]; intros c Hs; cbn [fold_left]; [exact Hs|].
    apply IH, coeff_cached_body, Hs. }
  apply H. constructor.
Qed.

(** C9: for [j <= m] and [k <= n] the helper returns
    [C(j+k, j) * C(m+n-j-k, n-k)], [C] the binomial coefficient of Pascal's
    rule, and a call through the cache returns this same value after every
    history of earlier calls. *)
Theorem coeff_binomial_memo (m n j k : nat) :
  j <= m -> k <= n ->
  let value := Z.of_nat (binomial (j + k) j * binomial (m + n - j - k) (n - k)) in
  let key := (Z.of_nat m, Z.of_nat n, Z.of_nat j, Z.of_nat k) in
  _coeff (Z.of_nat m) (Z.of_nat n) (Z.of_nat j) (Z.of_nat k) = Ok value
  /\ forall history : list quad,
       fst (_coeff_cached (cache_after history) key) = Ok value.
Proof.
  intros Hj Hk value key.
  pose proof (coeff_binom m n j k Hj Hk) as Hc. fold (binom m n j k) in value.
  split; [exact Hc|].
  intros history.
  destruct (coeff_cached_body (cache_after history) key (cache_after_sound history))
    as [Hfst _].
  rewrite Hfst. exact Hc.
Qed.

Lemma coeff_binomial_memo_witness :
  2 <= 3 /\ 1 <= 2
  /\ _coeff 3 2 2 1 = Ok 6%Z
  /\ forall history : list quad,
       fst (_coeff_cached (cache_after history) (3, 2, 2, 1)%Z) = Ok 6%Z.
Proof.
  split; [lia|]. split; [lia|].
  apply (coeff_binomial_memo 3 2 2 1); lia.
Defined.

(** ** The density of a material *)

(** C10: for every density [d], negative or not, the constructor returns a
    material (it has no failing case) whose [density] is [|d|]. *)
Theorem material_density_abs (d : R) (name : option string) :
  density (Material_init d name) = Rabs d
  /\ (0 <= density (Material_init d name))%R.
Proof.
  unfold density, Material_init. cbn [_density]. split; [reflexivity|].
  apply Rabs_pos.
Qed.

(** ** [integrate]: back to the axes of the section *)

Lemma matmul_rotation (angle Mx My : R) :
  matmul [[cos angle; sin angle]; [(- sin angle)%R; cos angle]] [[Mx]; [My]]
  = Ok [[(cos angle * Mx + sin angle * My)%R];
        [(- sin angle * Mx + cos angle * My)%R]].
Proof.
  unfold matmul. cbn. do 2 f_equal; [|f_equal]; f_equal; ring.
Qed.

(** C6: [integrate] returns the axial force [N] of the loop unchanged and
    the moments [cos(angle) Mx + sin(angle) My] and
    [- sin(angle) Mx + cos(angle) My], for every angle and every accumulated
    pair [(Mx, My)]; an exception of the loop is passed on. *)
Theorem integrate_rotates_back (angle : R) (prepared_input : list prepared) :
  integrate angle prepared_input
  = match accumulate prepared_input with
    | Ok (N, Mx, My) =>
        Ok (N, cos angle * Mx + sin angle * My, - sin angle * Mx + cos angle * My)%R
    | Raise e => Raise e
    end.
Proof.
  unfold integrate. destruct (accumulate prepared_input) as [[[N Mx] My]|e];
    [|reflexivity].
  cbn [bind]. rewrite matmul_rotation. reflexivity.
Qed.

(** ** The reinforcement *)

Lemma for_each_app {A S : Type} (xs ys : list A) (body : A -> S -> result S) (s : S) :
  for_each (xs ++ ys) body s = (s' <- for_each xs body s ;; for_each ys body s').
Proof.
  revert s. induction xs as [|x xs IH]; intros s; cbn [app for_each bind]; [reflexivity|].
  destruct (body x s) as [s'|e]; cbn [bind]; [apply IH | reflexivity].
Qed.

Lemma np_mul_same_length (a b : list R) :
  length a = length b -> np_mul a b = Ok (map (fun p => (fst p * snd p)%R) (combine a b)).
Proof. intros H. unfold np_mul. rewrite H, Nat.eqb_refl. reflexivity. Qed.

Lemma add_contribution_reinforcement (y z F : list R) (N Mx My : R) :
  length y = length F -> length z = length F ->
  add_contribution (1%Z, y, z, F) (N, Mx, My)
  = Ok (N + Rsum F, Mx + dot F z, My + dot F y)%R.
Proof.
  intros Hy Hz. unfold add_contribution. cbn [Z.eqb].
  rewrite !np_mul_same_length by congruence. reflexivity.
Qed.

Lemma prepare_reinforcement_lists (rotated_geom : CompoundGeometry) (strain_rotated : R * R) :
  Forall (stress_given strain_rotated) (point_geometries rotated_geom) ->
  prepare_reinforcement rotated_geom strain_rotated
  = Ok (map (fun pg => fst (_point pg)) (point_geometries rotated_geom),
        map (fun pg => snd (_point pg)) (point_geometries rotated_geom),
        map (point_force strain_rotated) (point_geometries rotated_geom)).
Proof.
  intros Hall. unfold prepare_reinforcement.
  match goal with |- for_each _ ?b _ = _ => set (body := b) end.
  assert (forall pgs x0 y0 F0,
            Forall (stress_given strain_rotated) pgs ->
            for_each pgs body (x0, y0, F0)
            = Ok (x0 ++ map (fun pg => fst (_point pg)) pgs,
                  y0 ++ map (fun pg => snd (_point pg)) pgs,
                  F0 ++ map (point_force strain_rotated) pgs)) as Hloop.
  { induction pgs as [|pg pgs IH]; intros x0 y0 F0 Hs.
    - cbn [for_each map]. rewrite !app_nil_r. reflexivity.
    - inversion Hs as [|? ? Hpg Hpgs]; subst. cbn [for_each map].
      unfold body at 1. unfold stress_given in Hpg. unfold point_force.
      destruct (_point pg) as [xp yp]. cbn [fst snd] in *.
      destruct (get_stress (point_material pg)
                  (fst strain_rotated - snd strain_rotated * yp))
        as [|s rest]; [contradiction|].
      cbn [getitem nth_error bind hd]. rewrite IH by assumption.
      rewrite <- !app_assoc. reflexivity. }
  apply (Hloop _ [] [] [] Hall).
Qed.

Lemma accumulate_snoc (zones : list prepared) (entry : prepared) (NM : R * R * R) :
  accumulate zones = Ok NM -> accumulate (zones ++ [entry]) = add_contribution entry NM.
Proof.
  unfold accumulate. intros H. rewrite for_each_app, H. cbn [bind for_each].
  destruct (add_contribution entry NM); reflexivity.
Qed.

Lemma atan2_0_0 : atan2 0 0 = 0%R.
Proof.
  unfold atan2.
  destruct (Rlt_dec 0 0); [lra|]. reflexivity.
Qed.

Lemma rotated_curvature_0 : sqrt (0 ^ 2 + 0 ^ 2) = 0%R.
Proof. replace (0 ^ 2 + 0 ^ 2)%R with 0%R by ring. apply sqrt_0. Qed.

Lemma rotate_point_0 (p : point) : rotate_point 0 p = p.
Proof.
  destruct p as [y z]. unfold rotate_point. cbn [fst snd].
  rewrite cos_0, sin_0. f_equal; ring.
Qed.

(** C7: the reinforcement entry adds [sum F] to [N], [sum F z] to [Mx] and
    [sum F y] to [My], [F] the stress at each point's strain times its area
    and [(y, z)] the rotated coordinates of the points; at the rotation
    angle zero a single point at (2, 3) of area 1 with the constant stress 10
    gives N = 10, Mx = 30, My = 20. *)
Theorem reinforcement_contribution (E : GeometryEngine) (geo : CompoundGeometry)
    (strain0 strain1 strain2 : R) :
  let angle := atan2 strain2 strain1 in
  let strain_rotated := (strain0, sqrt (strain2 ^ 2 + strain1 ^ 2)) in
  let rotated_geom := rotate E geo angle in
  let points := point_geometries rotated_geom in
  let F := map (point_force strain_rotated) points in
  let y := map (fun pg => fst (_point pg)) points in
  let z := map (fun pg => snd (_point pg)) points in
  (forall zones N Mx My,
     Forall (stress_given strain_rotated) points ->
     prepare_surfaces E rotated_geom strain_rotated [] = Ok zones ->
     accumulate zones = Ok (N, Mx, My) ->
     prepare_input E geo (strain0, strain1, strain2)
     = Ok (angle, zones ++ [(1%Z, y, z, F)])
     /\ accumulate (zones ++ [(1%Z, y, z, F)])
        = Ok (N + Rsum F, Mx + dot F z, My + dot F y)%R
     /\ integrate_strain_response_on_geometry E geo (strain0, strain1, strain2)
        = Ok (N + Rsum F,
              cos angle * (Mx + dot F z) + sin angle * (My + dot F y),
              - sin angle * (Mx + dot F z) + cos angle * (My + dot F y))%R)
  /\ (forall mat : SectionMaterial,
        (forall eps, get_stress mat eps = [10%R]) ->
        angle = 0%R ->
        rotated_geom
        = {| geometries := [];
             point_geometries :=
               [{| _point := (2, 3)%R; area := 1; point_material := mat |}] |} ->
        integrate_strain_response_on_geometry E geo (strain0, strain1, strain2)
        = Ok (10, 30, 20)%R).
Proof.
  intros angle strain_rotated rotated_geom points F y z.
  assert (forall zones N Mx My,
     Forall (stress_given strain_rotated) points ->
     prepare_surfaces E rotated_geom strain_rotated [] = Ok zones ->
     accumulate zones = Ok (N, Mx, My) ->
     prepare_input E geo (strain0, strain1, strain2)
     = Ok (angle, zones ++ [(1%Z, y, z, F)])
     /\ accumulate (zones ++ [(1%Z, y, z, F)])
        = Ok (N + Rsum F, Mx + dot F z, My + dot F y)%R
     /\ integrate_strain_response_on_geometry E geo (strain0, strain1, strain2)
        = Ok (N + Rsum F,
              cos angle * (Mx + dot F z) + sin angle * (My + dot F y),
              - sin angle * (Mx + dot F z) + cos angle * (My + dot F y))%R) as HA.
  { intros zones N Mx My Hst Hsurf Hacc.
    assert (prepare_input E geo (strain0, strain1, strain2)
            = Ok (angle, zones ++ [(1%Z, y, z, F)])) as Hprep.
    { unfold prepare_input. fold angle. fold rotated_geom. fold strain_rotated.
      rewrite Hsurf. cbn [bind].
      rewrite (prepare_reinforcement_lists rotated_geom strain_rotated Hst).
      reflexivity. }
    assert (accumulate (zones ++ [(1%Z, y, z, F)])
            = Ok (N + Rsum F, Mx + dot F z, My + dot F y)%R) as Hsum.
    { rewrite (accumulate_snoc zones _ (N, Mx, My) Hacc).
      apply add_contribution_reinforcement; unfold y, z, F; rewrite !length_map;
        reflexivity. }
    split; [exact Hprep|]. split; [exact Hsum|].
    unfold integrate_strain_response_on_geometry. rewrite Hprep. cbn [bind fst snd].
    unfold integrate. rewrite Hsum. cbn [bind]. rewrite matmul_rotation.
    reflexivity. }
  split; [exact HA|].
  intros mat Hmat Hangle Hgeo.
  destruct (HA [] 0%R 0%R 0%R) as (_ & _ & Hres).
  - unfold points. rewrite Hgeo. cbn [point_geometries].
    constructor; [|constructor]. unfold stress_given. cbn [point_material].
    rewrite Hmat. discriminate.
  - unfold prepare_surfaces. rewrite Hgeo. reflexivity.
  - reflexivity.
  - rewrite Hres. unfold F, y, z, points, point_force, dot. rewrite Hgeo, Hangle.
    cbn [point_geometries map _point area point_material fst snd combine].
    rewrite Hmat. cbn [hd]. rewrite !Rsum_cons, Rsum_nil, cos_0, sin_0.
    do 2 f_equal; [f_equal|]; ring.
Qed.

Lemma reinforcement_contribution_witness :
  atan2 0 0 = 0%R
  /\ integrate_strain_response_on_geometry reference_engine single_bar (0, 0, 0)%R
     = Ok (10, 30, 20)%R.
Proof.
  split; [apply atan2_0_0|].
  apply (proj2 (reinforcement_contribution reference_engine single_bar 0 0 0)
               (constant_stress 10)).
  - intros eps. reflexivity.
  - apply atan2_0_0.
  - rewrite atan2_0_0. unfold single_bar. cbn -[rotate_point]. unfold rotate_geometry.
    cbn -[rotate_point]. rewrite rotate_point_0. reflexivity.
Defined.

(** ** Zero curvature *)

Lemma truediv_zero (a : R) : truediv a 0 = Raise ZeroDivisionError.
Proof. unfold truediv. destruct (Req_dec_T 0 0); [reflexivity | contradiction]. Qed.

(** With the rotated curvature zero, the first strain zone met is divided
    by zero. *)
Lemma prepare_surfaces_zero_curvature (E : GeometryEngine)
    (rotated_geom : CompoundGeometry) (strain0 : R) (prepared_input : list prepared) :
  Exists (has_zone (strain0, 0%R)) (geometries rotated_geom) ->
  prepare_surfaces E rotated_geom (strain0, 0%R) prepared_input
  = Raise ZeroDivisionError.
Proof.
  unfold prepare_surfaces, has_zone.
  induction (geometries rotated_geom) as [|g gs IH]; intros Hex.
  - inversion Hex.
  - cbn [for_each].
    destruct (__marin__ (material g) (strain0, 0%R)) as [strains coeffs] eqn:Hm.
    destruct strains as [|sp strains].
    + cbn [length range seq for_each bind]. apply IH.
      inversion Hex as [? ? Hg|? ? Hgs]; subst; [|exact Hgs].
      rewrite Hm in Hg. contradiction.
    + cbn [length range seq for_each getitem nth_error bind fst snd].
      rewrite truediv_zero. reflexivity.
Qed.

Lemma prepare_surfaces_no_zone (E : GeometryEngine)
    (rotated_geom : CompoundGeometry) (strain_rotated : R * R)
    (prepared_input : list prepared) :
  Forall (has_no_zone strain_rotated) (geometries rotated_geom) ->
  prepare_surfaces E rotated_geom strain_rotated prepared_input = Ok prepared_input.
Proof.
  unfold prepare_surfaces, has_no_zone.
  induction (geometries rotated_geom) as [|g gs IH]; intros Hall; [reflexivity|].
  inversion Hall as [|? ? Hg Hgs]; subst. cbn [for_each].
  destruct (__marin__ (material g) strain_rotated) as [strains coeffs].
  cbn [fst] in Hg. subst strains. cbn [length range seq for_each bind].
  apply IH, Hgs.
Qed.

Lemma prepare_input_zero_curvature (E : GeometryEngine) (geo : CompoundGeometry)
    (strain0 : R) :
  prepare_input E geo (strain0, 0, 0)%R
  = (prepared_input <- prepare_surfaces E (rotate E geo 0) (strain0, 0%R) [] ;;
     xyF <- prepare_reinforcement (rotate E geo 0) (strain0, 0%R) ;;
     let '(x, y, F) := xyF in
     Ok (0%R, prepared_input ++ [(1%Z, x, y, F)])).
Proof.
  unfold prepare_input. rewrite atan2_0_0, rotated_curvature_0. reflexivity.
Qed.

(** C1, as stated, fails: on the unit square of a material with one strain
    zone, the strain plane (1/1000, 0, 0) of zero curvature ends in a
    division by zero, and no resultant is returned. *)
Lemma zero_curvature_raises :
  integrate_strain_response_on_geometry reference_engine unit_square_section
    (1 / 1000, 0, 0)%R
  = Raise ZeroDivisionError.
Proof.
  unfold integrate_strain_response_on_geometry.
  rewrite prepare_input_zero_curvature, prepare_surfaces_zero_curvature;
    [reflexivity|].
  left. unfold has_zone. cbn. discriminate.
Qed.

(** ** A homogeneous section under a curvature, end to end *)

Lemma atan2_0_1 : atan2 0 1 = 0%R.
Proof.
  unfold atan2. destruct (Rlt_dec 0 1); [|lra].
  replace (0 / 1)%R with 0%R by field. apply atan_0.
Qed.

Lemma rotate_geometry_0 (geo : CompoundGeometry) : rotate_geometry geo 0 = geo.
Proof.
  destruct geo as [gs pgs]. unfold rotate_geometry. cbn [geometries point_geometries].
  f_equal.
  - induction gs as [|[[ext ints] mat] gs IH]; [reflexivity|].
    cbn [map polygon material]. rewrite IH. do 2 f_equal.
    unfold rotate_polygon. cbn [exterior interiors]. f_equal.
    + rewrite <- (map_id ext) at 2. apply map_ext, rotate_point_0.
    + rewrite <- (map_id ints) at 2. apply map_ext. intros r.
      rewrite <- (map_id r) at 2. apply map_ext, rotate_point_0.
  - induction pgs as [|[pt a mat] pgs IH]; [reflexivity|].
    cbn [map _point area point_material]. rewrite IH, rotate_point_0. reflexivity.
Qed.

(** Settles the comparisons of concrete reals that the clipping and the
    orientation tests make. *)
Ltac decide_reals :=
  repeat (match goal with
          | |- context [Rle_dec ?a ?b] =>
              destruct (Rle_dec a b); try lra
          | |- context [Rlt_dec ?a ?b] =>
              destruct (Rlt_dec a b); try lra
          | |- context [Rgt_dec ?a ?b] =>
              destruct (Rgt_dec a b); try lra
          end;
          cbn [flat_map app tl combine fst snd map List.filter rev negb
               length Nat.eqb exterior interiors for_each bind fold_right]).

(** The unit square of constant stress 10 under the strain plane (0, 1, 0):
    the zone from the strain -1 to 1 covers the square, the axial force is
    the stress times the area, the moments the stress times the first
    moments of area. *)
Example plateau_square_resultant :
  integrate_strain_response_on_geometry reference_engine unit_square_section (0, 1, 0)%R
  = Ok (10, 5, 5)%R.
Proof.
  unfold integrate_strain_response_on_geometry, prepare_input.
  rewrite atan2_0_1.
  replace (sqrt (0 ^ 2 + 1 ^ 2)) with 1%R
    by (replace (0 ^ 2 + 1 ^ 2)%R with 1%R by ring; symmetry; apply sqrt_1).
  change (rotate reference_engine unit_square_section 0)
    with (rotate_geometry unit_square_section 0).
  rewrite rotate_geometry_0.
  unfold prepare_surfaces, prepare_reinforcement, unit_square_section.
  cbn [geometries point_geometries for_each material plateau __marin__ length range seq
       getitem nth_error bind fst snd].
  unfold truediv. destruct (Req_dec_T 1 0) as [H|_]; [lra|]. cbn [bind].
  cbn [reference_engine split_two_lines create_line_point_angle bounds polygon].
  unfold split_between, get_input_polygon.
  cbn [reference_engine orient is_ccw through fst snd polygon exterior interiors].
  unfold orient_polygon, ring_is_ccw, signed_area, clip_band, clip_ring,
    consecutive_pairs, cross, Rmin, Rmax, Rsum.
  cbn [tl combine flat_map fst snd app map fold_right].
  decide_reals.
  cbn [List.filter map for_each bind app fst snd].
  unfold integrate, accumulate, add_contribution.
  cbn [for_each Z.eqb length range seq list_comprehension Nat.add].
  rewrite !marin_integration_edges by reflexivity.
  cbn -[edge_summation cos sin].
  rewrite cos_0, sin_0. ring_moment.
  do 2 f_equal; [f_equal|]; field.
Qed.

(** ** The factory *)

Lemma setdefault_lookup (d : gmap string pyvalue) (key : string) (value : pyvalue) :
  setdefault d key value !! key = Some (default value (d !! key)).
Proof.
  unfold setdefault. destruct (d !! key) as [v|] eqn:Hd.
  - rewrite Hd. reflexivity.
  - rewrite lookup_insert_eq. reflexivity.
Qed.

Lemma setdefault_lookup_ne (d : gmap string pyvalue) (key other : string) (value : pyvalue) :
  other <> key -> setdefault d key value !! other = d !! other.
Proof.
  intros Hne. unfold setdefault. destruct (d !! key); [reflexivity|].
  apply lookup_insert_ne. congruence.
Qed.

Lemma factory_call_inv (reg : gmap string pyvalue) (f : IntegratorFactory) (method : string) :
  factory_inv reg f ->
  fst (IntegratorFactory_call f method) = Some (registered reg method)
  /\ factory_inv reg (snd (IntegratorFactory_call f method)).
Proof.
  intros [Hreg Hinst]. unfold IntegratorFactory_call. cbn [fst snd instances registry].
  rewrite setdefault_lookup, Hreg. fold (registered reg method). split.
  - destruct (instances f !! method) as [v|] eqn:Hv; cbn [default]; [|reflexivity].
    f_equal. apply Hinst, Hv.
  - split; [reflexivity|]. intros k v. cbn [instances].
    destruct (decide (k = method)) as [->|Hne].
    + rewrite setdefault_lookup.
      destruct (instances f !! method) as [w|] eqn:Hw; cbn [default]; intros [= <-];
        [apply Hinst, Hw | reflexivity].
    + rewrite setdefault_lookup_ne by assumption. apply Hinst.
Qed.

Lemma factory_after_inv (reg : gmap string pyvalue) (history : list string) :
  factory_inv reg (factory_after (IntegratorFactory_init reg) history).
Proof.
  unfold factory_after.
  assert (forall f, factory_inv reg f ->
            factory_inv reg
              (fold_left (fun f method => snd (IntegratorFactory_call f method)) history f))
    as H.
  { induction history as [|m history IH]; intros f Hf; cbn [fold_left]; [exact Hf|].
    apply IH, factory_call_inv, Hf. }
  apply H. split; [reflexivity|]. intros k v. cbn [IntegratorFactory_init instances].
  rewrite lookup_empty. discriminate.
Qed.

Lemma registered_marin (method : string) :
  registered integrator_registry method = ClassObject MarinIntegrator.
Proof.
  unfold registered. destruct (integrator_registry !! method) as [[[]|c id]|] eqn:H;
    try reflexivity.
  unfold integrator_registry in H. apply lookup_singleton_Some in H as [_ H].
  discriminate.
Qed.

(** C8, as stated, fails: the lookup of ["Marin"] returns the class
    [MarinIntegrator] itself, the entry of the registry; no instance is
    created. *)
Lemma factory_returns_the_class :
  fst (IntegratorFactory_call integrator_factory "Marin")
  = Some (ClassObject MarinIntegrator)
  /\ ~ (exists c id, fst (IntegratorFactory_call integrator_factory "Marin")
                     = Some (InstanceOf c id)).
Proof.
  assert (fst (IntegratorFactory_call integrator_factory "Marin")
          = Some (ClassObject MarinIntegrator)) as H by reflexivity.
  split; [exact H|]. intros (c & id & H'). rewrite H in H'. discriminate.
Qed.

(** C8, amended: after every history of lookups, a lookup returns the
    entry of the registry for the name, a class that is not instantiated,
    and [MarinIntegrator] for a name that the registry does not have; the
    entry is cached under the name, the other names keep theirs, and a second
    lookup of the name returns the same object. *)
Theorem factory_caches_class (history : list string) (method : string) :
  let f := factory_after integrator_factory history in
  let f' := snd (IntegratorFactory_call f method) in
  fst (IntegratorFactory_call f method) = Some (ClassObject MarinIntegrator)
  /\ instances f' !! method = Some (ClassObject MarinIntegrator)
  /\ (forall other : string, other <> method -> instances f' !! other = instances f !! other)
  /\ fst (IntegratorFactory_call f' method) = fst (IntegratorFactory_call f method).
Proof.
  intros f f'.
  pose proof (factory_after_inv integrator_registry history) as Hf. fold integrator_factory in Hf.
  fold f in Hf.
  destruct (factory_call_inv integrator_registry f method Hf) as [Hret Hf'].
  fold f' in Hf'.
  destruct (factory_call_inv integrator_registry f' method Hf') as [Hret' _].
  rewrite registered_marin in Hret, Hret'.
  split; [exact Hret|]. split.
  { exact Hret. }
  split.
  { intros other Hne. unfold f', IntegratorFactory_call. cbn [snd instances].
    apply setdefault_lookup_ne, Hne. }
  congruence.
Qed.

Lemma factory_caches_class_witness :
  let f := factory_after integrator_factory ["Fiber"; "Marin"]%string in
  let f' := snd (IntegratorFactory_call f "Marin") in
  "Fiber"%string <> "Marin"%string
  /\ fst (IntegratorFactory_call f "Marin") = Some (ClassObject MarinIntegrator)
  /\ instances f' !! "Fiber"%string = instances f !! "Fiber"%string.
Proof.
  cbv zeta. split; [discriminate|].
  destruct (factory_caches_class ["Fiber"; "Marin"]%string "Marin")
    as (Hret & _ & Hother & _).
  split; [exact Hret|]. apply Hother. discriminate.
Defined.

(** ** Rings on a line *)

Lemma edge_sum_inner (m n : nat) (a b : point) :
  edge_sum m n a b = sum_upto m (inner_sum m n a b).
Proof. reflexivity. Qed.

Lemma sum_upto_O (f : nat -> R) : sum_upto 0 f = f O.
Proof. unfold sum_upto. cbn [seq map]. rewrite Rsum_cons, Rsum_nil. lra. Qed.

Lemma sum_upto_S (n : nat) (f : nat -> R) :
  sum_upto (S n) f = (f O + sum_upto n (fun k => f (S k)))%R.
Proof.
  unfold sum_upto. change (seq 0 (S (S n))) with (0 :: seq 1 (S n)).
  cbn [map]. rewrite Rsum_cons, <- seq_shift, map_map. reflexivity.
Qed.

Lemma sum_upto_plus (n : nat) (f g : nat -> R) :
  sum_upto n (fun k => f k + g k)%R = (sum_upto n f + sum_upto n g)%R.
Proof.
  unfold sum_upto. induction (seq 0 (S n)) as [|x l IH]; cbn [map];
    rewrite ?Rsum_cons, ?Rsum_nil; [lra|]. rewrite IH. lra.
Qed.

Lemma sum_upto_scal (n : nat) (c : R) (f : nat -> R) :
  sum_upto n (fun k => c * f k)%R = (c * sum_upto n f)%R.
Proof.
  unfold sum_upto. induction (seq 0 (S n)) as [|x l IH]; cbn [map];
    rewrite ?Rsum_cons, ?Rsum_nil; [lra|]. rewrite IH. lra.
Qed.

Lemma sum_upto_zero (n : nat) : sum_upto n (fun _ => 0%R) = 0%R.
Proof.
  unfold sum_upto. induction (seq 0 (S n)) as [|x l IH]; cbn [map];
    rewrite ?Rsum_cons, ?Rsum_nil; [lra|]. rewrite IH. lra.
Qed.

Lemma binomial_zero_r (n : nat) : binomial n 0 = 1.
Proof. destruct n; reflexivity. Qed.

(** Pascal's rule for the coefficient of an edge. *)
Lemma binom_origin (m n : nat) : binom m n 0 0 = binomial (m + n) n.
Proof. unfold binom. rewrite !Nat.sub_0_r. cbn [Nat.add binomial]. lia. Qed.

Lemma binom_step_j (m n j : nat) : binom (S m) n (S j) 0 = binom m n j 0.
Proof.
  unfold binom. rewrite !Nat.add_0_r, !binomial_diag.
  replace (S m + n - S j - 0) with (m + n - j - 0) by lia. reflexivity.
Qed.

Lemma binom_step_k (m n k : nat) : binom m (S n) 0 (S k) = binom m n 0 k.
Proof.
  unfold binom. cbn [Nat.add]. rewrite !binomial_zero_r.
  f_equal. f_equal; lia.
Qed.

Lemma binom_pascal (m n j k : nat) :
  binom (S m) (S n) (S j) (S k) = binom m (S n) j (S k) + binom (S m) n (S j) k.
Proof.
  unfold binom.
  replace (S m + S n - S j - S k) with (m + S n - j - S k) by lia.
  replace (S m + n - S j - k) with (m + S n - j - S k) by lia.
  replace (S n - S k) with (n - k) by lia.
  replace (S j + k) with (j + S k) by lia.
  change (S j + S k) with (S (j + S k)). cbn [binomial]. lia.
Qed.

Lemma marin_term_origin (m n : nat) (a b : point) :
  marin_term m n a b 0 0 = (INR (binomial (m + n) n) * fst a ^ m * snd a ^ n)%R.
Proof.
  unfold marin_term. rewrite binom_origin, !Nat.sub_0_r. cbn [pow]. ring.
Qed.

Lemma marin_term_step_j (m n : nat) (a b : point) (j : nat) :
  marin_term (S m) n a b (S j) 0 = (fst b * marin_term m n a b j 0)%R.
Proof.
  unfold marin_term. rewrite binom_step_j. cbn [pow Nat.sub]. ring.
Qed.

Lemma marin_term_step_k (m n : nat) (a b : point) (k : nat) :
  marin_term m (S n) a b 0 (S k) = (snd b * marin_term m n a b 0 k)%R.
Proof.
  unfold marin_term. rewrite binom_step_k. cbn [pow Nat.sub]. ring.
Qed.

Lemma marin_term_pascal (m n : nat) (a b : point) (j k : nat) :
  marin_term (S m) (S n) a b (S j) (S k)
  = (fst b * marin_term m (S n) a b j (S k) + snd b * marin_term (S m) n a b (S j) k)%R.
Proof.
  unfold marin_term. rewrite binom_pascal, plus_INR. cbn [pow Nat.sub]. ring.
Qed.

Lemma inner_sum_first (m n : nat) (a b : point) :
  inner_sum m n a b 0
  = (INR (binomial (m + n) n) * fst a ^ m * snd a ^ n
     + snd b * inner_sum_z m n a b 0)%R.
Proof.
  unfold inner_sum, inner_sum_z. destruct n as [|n].
  - rewrite sum_upto_O, marin_term_origin. lra.
  - fold (inner_sum m n a b 0). unfold inner_sum.
    rewrite sum_upto_S, marin_term_origin.
    rewrite (sum_upto_ext n _ (fun k => (snd b * marin_term m n a b 0 k)%R))
      by (intros; apply marin_term_step_k).
    rewrite sum_upto_scal. reflexivity.
Qed.

Lemma inner_sum_next (m n : nat) (a b : point) (j : nat) :
  inner_sum (S m) n a b (S j)
  = (fst b * inner_sum m n a b j + snd b * inner_sum_z (S m) n a b (S j))%R.
Proof.
  unfold inner_sum, inner_sum_z. destruct n as [|n].
  - rewrite !sum_upto_O, marin_term_step_j. lra.
  - fold (inner_sum (S m) n a b (S j)). unfold inner_sum.
    rewrite !sum_upto_S, marin_term_step_j.
    rewrite (sum_upto_ext n _
               (fun k => (fst b * marin_term m (S n) a b j (S k)
                          + snd b * marin_term (S m) n a b (S j) k)%R))
      by (intros; apply marin_term_pascal).
    rewrite sum_upto_plus, !sum_upto_scal. ring.
Qed.

Lemma edge_sum_z_inner (m n : nat) (a b : point) :
  edge_sum_z m n a b = sum_upto m (inner_sum_z m n a b).
Proof.
  unfold edge_sum_z, inner_sum_z. destruct n as [|n]; [|reflexivity].
  symmetry. apply sum_upto_zero.
Qed.

(** The sum of an edge from the sums of the lower orders. *)
Lemma edge_sum_rec (m n : nat) (a b : point) :
  edge_sum m n a b
  = (fst b * edge_sum_y m n a b + snd b * edge_sum_z m n a b
     + INR (binomial (m + n) n) * fst a ^ m * snd a ^ n)%R.
Proof.
  rewrite edge_sum_z_inner, edge_sum_inner. unfold edge_sum_y. destruct m as [|m].
  - rewrite !sum_upto_O, inner_sum_first. lra.
  - rewrite edge_sum_inner, !sum_upto_S, inner_sum_first.
    rewrite (sum_upto_ext m _
               (fun j => (fst b * inner_sum m n a b j
                          + snd b * inner_sum_z (S m) n a b (S j))%R))
      by (intros; apply inner_sum_next).
    rewrite sum_upto_plus, !sum_upto_scal. ring.
Qed.

Lemma edge_sum_y_sym (m n : nat) (a b : point) : edge_sum_y m n b a = edge_sum_y m n a b.
Proof. destruct m; [reflexivity | apply edge_sum_sym]. Qed.

Lemma edge_sum_z_sym (m n : nat) (a b : point) : edge_sum_z m n b a = edge_sum_z m n a b.
Proof. destruct n; [reflexivity | apply edge_sum_sym]. Qed.

(** The difference of the two ends of an edge. *)
Lemma edge_sum_difference (m n : nat) (a b : point) :
  ((fst b - fst a) * edge_sum_y m n a b + (snd b - snd a) * edge_sum_z m n a b)%R
  = (INR (binomial (m + n) n) * (fst b ^ m * snd b ^ n - fst a ^ m * snd a ^ n))%R.
Proof.
  pose proof (edge_sum_rec m n a b) as Hb.
  pose proof (edge_sum_rec m n b a) as Ha.
  rewrite edge_sum_sym, edge_sum_y_sym, edge_sum_z_sym in Ha.
  lra.
Qed.

Lemma telescope (g : R -> R) (l : list R) :
  forall a c : R,
    Rsum (map (fun e => (g (snd e) - g (fst e))%R) (consecutive_pairs (a :: l ++ [c])))
    = (g c - g a)%R.
Proof.
  induction l as [|b l IH]; intros a c.
  - cbn. lra.
  - cbn [app]. rewrite consecutive_pairs_cons. cbn [map fst snd].
    rewrite Rsum_cons, IH. lra.
Qed.

Lemma telescope_closed (g : R -> R) (ts : list R) :
  Rsum (map (fun e => (g (snd e) - g (fst e))%R) (consecutive_pairs (close_ring ts)))
  = 0%R.
Proof.
  destruct ts as [|a l]; [reflexivity|].
  unfold close_ring. cbn [first_vertex app]. rewrite telescope. lra.
Qed.

Lemma line_sum_zero_function (p d : point) (ts : list R) :
  line_sum (fun _ _ => 0%R) p d ts = 0%R.
Proof.
  unfold line_sum. induction (consecutive_pairs (close_ring ts)) as [|e l IH];
    cbn [map]; rewrite ?Rsum_cons, ?Rsum_nil; [lra|]. rewrite IH. lra.
Qed.

(** Around a closed ring of a line the differences of the ends cancel. *)
Lemma line_sum_difference (m n : nat) (p d : point) (ts : list R) :
  (fst d * line_sum (edge_sum_y m n) p d ts
   + snd d * line_sum (edge_sum_z m n) p d ts)%R = 0%R.
Proof.
  rewrite <- (telescope_closed
                (fun t => (INR (binomial (m + n) n)
                           * (fst (on_line p d t) ^ m * snd (on_line p d t) ^ n))%R) ts).
  unfold line_sum.
  induction (consecutive_pairs (close_ring ts)) as [|e l IH];
    cbn [map]; rewrite ?Rsum_cons, ?Rsum_nil; [lra|].
  rewrite <- IH.
  pose proof (edge_sum_difference m n (on_line p d (fst e)) (on_line p d (snd e))) as H.
  replace (fst (on_line p d (snd e)) - fst (on_line p d (fst e)))%R
    with ((snd e - fst e) * fst d)%R in H by (unfold on_line; cbn [fst snd]; ring).
  replace (snd (on_line p d (snd e)) - snd (on_line p d (fst e)))%R
    with ((snd e - fst e) * snd d)%R in H by (unfold on_line; cbn [fst snd]; ring).
  lra.
Qed.

Lemma line_sum_zero_y (p d : point) (ts : list R) :
  fst d <> 0%R -> forall n m, line_sum (edge_sum m n) p d ts = 0%R.
Proof.
  intros Hd. induction n as [|n IH]; intros m.
  - pose proof (line_sum_difference (S m) 0 p d ts) as H.
    change (edge_sum_y (S m) 0) with (edge_sum m 0) in H.
    change (edge_sum_z (S m) 0) with (fun _ _ : point => 0%R) in H.
    rewrite line_sum_zero_function in H. nra.
  - pose proof (line_sum_difference (S m) (S n) p d ts) as H.
    change (edge_sum_y (S m) (S n)) with (edge_sum m (S n)) in H.
    change (edge_sum_z (S m) (S n)) with (edge_sum (S m) n) in H.
    rewrite IH in H. nra.
Qed.

Lemma line_sum_zero_z (p d : point) (ts : list R) :
  snd d <> 0%R -> forall m n, line_sum (edge_sum m n) p d ts = 0%R.
Proof.
  intros Hd. induction m as [|m IH]; intros n.
  - pose proof (line_sum_difference 0 (S n) p d ts) as H.
    change (edge_sum_z 0 (S n)) with (edge_sum 0 n) in H.
    change (edge_sum_y 0 (S n)) with (fun _ _ : point => 0%R) in H.
    rewrite line_sum_zero_function in H. nra.
  - pose proof (line_sum_difference (S m) (S n) p d ts) as H.
    change (edge_sum_y (S m) (S n)) with (edge_sum m (S n)) in H.
    change (edge_sum_z (S m) (S n)) with (edge_sum (S m) n) in H.
    rewrite IH in H. nra.
Qed.

Lemma cross_on_line (p d : point) (t t' : R) :
  cross (on_line p d t) (on_line p d t') = ((t' - t) * cross p d)%R.
Proof. unfold cross, on_line. cbn [fst snd]. ring. Qed.

Lemma close_ring_map {A B : Type} (f : A -> B) (l : list A) :
  close_ring (map f l) = map f (close_ring l).
Proof. unfold close_ring. destruct l; [reflexivity|]. cbn. rewrite map_app. reflexivity. Qed.

Lemma consecutive_pairs_map {A B : Type} (f : A -> B) (l : list A) :
  consecutive_pairs (map f l) = map (fun e => (f (fst e), f (snd e))) (consecutive_pairs l).
Proof.
  unfold consecutive_pairs. destruct l as [|a l]; [reflexivity|]. cbn [map tl].
  revert a. induction l as [|b l IH]; intros a; [reflexivity|].
  cbn [map combine fst snd]. f_equal. apply IH.
Qed.

Lemma combine_fst_snd {A B : Type} (l : list (A * B)) :
  combine (map fst l) (map snd l) = l.
Proof. induction l as [|[a b] l IH]; [reflexivity|]. cbn. rewrite IH. reflexivity. Qed.

(** The edge terms of a closed ring of points of one line cancel. *)
Lemma edge_terms_on_line (m n : nat) (p d : point) (ts : list R) :
  Rsum (map (edge_term m n) (consecutive_pairs (close_ring (map (on_line p d) ts))))
  = 0%R.
Proof.
  rewrite close_ring_map, consecutive_pairs_map, map_map.
  rewrite (Rsum_map_ext_in _
             (fun e => ((snd e - fst e)
                        * edge_sum m n (on_line p d (fst e)) (on_line p d (snd e))
                        * cross p d)%R))
    by (intros e _; unfold edge_term; cbn [fst snd]; rewrite cross_on_line; ring).
  rewrite <- Rsum_map_scale. fold (line_sum (edge_sum m n) p d ts).
  destruct (Req_dec_T (fst d) 0) as [Hy|Hy].
  - destruct (Req_dec_T (snd d) 0) as [Hz|Hz].
    + unfold cross. rewrite Hy, Hz. ring.
    + rewrite line_sum_zero_z by assumption. ring.
  - rewrite line_sum_zero_y by assumption. ring.
Qed.

(** ** Degenerate polygons *)

Lemma zero_over_denominator (m n : nat) : (0 / marin_denominator m n)%R = 0%R.
Proof. pose proof (marin_denominator_pos m n). field. lra. Qed.

(** C3, as stated, fails: for the two vertices (1,0), (0,1) the code sums
    the one edge from the first to the second and returns 1/2 for the order
    (0,0). *)
Lemma two_vertices_not_zero :
  marin_integration [1; 0]%R [0; 1]%R 0 0 = Ok (1 / 2)%R
  /\ marin_integration [1; 0]%R [0; 1]%R 0 0 <> Ok 0%R.
Proof.
  assert (marin_integration [1; 0]%R [0; 1]%R 0 0 = Ok (1 / 2)%R) as H.
  { rewrite marin_integration_edges by reflexivity.
    ring_moment.
    f_equal. field. }
  split; [exact H|]. rewrite H. intros H'. injection H' as H'. lra.
Qed.

(** A self-crossing ring of signed area zero whose first moment is not
    zero: the bow tie (0,0),(1,1),(1,0),(0,1), passed closed. *)
Example bow_tie_moment :
  marin_integration [0; 1; 1; 0; 0]%R [0; 1; 0; 1; 0]%R 0 0 = Ok 0%R
  /\ marin_integration [0; 1; 1; 0; 0]%R [0; 1; 0; 1; 0]%R 1 0 = Ok (- (1 / 6))%R.
Proof.
  rewrite !marin_integration_edges by reflexivity.
  ring_moment.
  split; f_equal; field.
Qed.

(** C3, amended: [marin_integration] returns 0 for every order on lists of
    fewer than two vertices, which have no edge; on a ring passed closed,
    its first vertex repeated as the last, it returns 0 for every ring of
    fewer than three vertices and for every ring whose vertices lie on one
    line, the polygons that enclose no area. *)
Theorem marin_integration_degenerate (m n : nat) :
  (forall y z : list R,
     length y = length z -> length y < 2 -> marin_integration y z m n = Ok 0%R)
  /\ (forall y z : list R,
        length y = length z -> length y < 3 ->
        marin_integration (close_ring y) (close_ring z) m n = Ok 0%R)
  /\ (forall (p d : point) (ts : list R),
        let vs := map (on_line p d) ts in
        marin_integration (close_ring (map fst vs)) (close_ring (map snd vs)) m n
        = Ok 0%R).
Proof.
  split; [|split].
  - intros y z Hlen Hy. rewrite marin_integration_edges by assumption.
    destruct y as [|a [|a' y]]; destruct z as [|b [|b' z]]; try discriminate;
      cbn in Hy; try lia; unfold edge_summation; cbn [combine consecutive_pairs tl map];
      rewrite Rsum_nil, zero_over_denominator; reflexivity.
  - intros y z Hlen Hy.
    rewrite marin_integration_edges by (apply length_close_ring, Hlen).
    rewrite combine_close_ring by assumption. unfold edge_summation.
    destruct y as [|a [|a' [|a'' y]]]; destruct z as [|b [|b' [|b'' z]]];
      try discriminate; cbn in Hy; try lia;
      cbn [combine close_ring first_vertex app consecutive_pairs tl map];
      rewrite ?Rsum_cons, ?Rsum_nil.
    + f_equal. unfold Rdiv. ring.
    + rewrite edge_term_loop. f_equal. unfold Rdiv. ring.
    + rewrite (edge_term_swap m n (a, b) (a', b')). f_equal. unfold Rdiv. ring.
  - intros p d ts vs.
    rewrite marin_integration_edges by (apply length_close_ring; rewrite !length_map; reflexivity).
    rewrite combine_close_ring by (rewrite !length_map; reflexivity).
    rewrite combine_fst_snd. unfold edge_summation, vs.
    rewrite edge_terms_on_line, zero_over_denominator. reflexivity.
Qed.

Lemma marin_integration_degenerate_witness :
  length [1; 0]%R = length [0; 1]%R
  /\ length [1; 0]%R < 3
  /\ marin_integration (close_ring [1; 0]%R) (close_ring [0; 1]%R) 2 3 = Ok 0%R.
Proof.
  split; [reflexivity|]. split; [cbn; lia|].
  apply (proj1 (proj2 (marin_integration_degenerate 2 3))); [reflexivity | cbn; lia].
Defined.

(** * Further properties of the code *)

(** ** [marin_integration]: lists of different lengths *)

Lemma for_each_raise {A S : Type} (xs ys : list A) (x0 : A) (body : A -> S -> result S)
    (e : exn) :
  (forall x s, In x xs -> exists s', body x s = Ok s') ->
  (forall s, body x0 s = Raise e) ->
  forall s, for_each (xs ++ x0 :: ys) body s = Raise e.
Proof.
  intros Hok Hfail. induction xs as [|x xs IH]; intros s; cbn [app for_each].
  - rewrite Hfail. reflexivity.
  - destruct (Hok x s (or_introl eq_refl)) as [s' ->]. cbn [bind].
    apply IH. intros x' s0 Hin. apply Hok. right. exact Hin.
Qed.

Lemma coeff_origin (m n : nat) :
  exists c, _coeff (Z.of_nat m) (Z.of_nat n) (Z.of_nat 0) (Z.of_nat 0) = Ok c.
Proof. eexists. apply coeff_binom; lia. Qed.

(** X1: when [z] is shorter than [y] and [y] has an edge, the loops run into
    the end of [z]: [IndexError], for every order. *)
Theorem marin_integration_short_z (y z : list R) (m n : nat) :
  length z < length y -> 2 <= length y ->
  marin_integration y z m n = Raise IndexError.
Proof.
  intros Hz Hy. unfold marin_integration, range.
  match goal with |- bind (for_each _ ?b _) _ = _ => set (body := b) end.
  assert (forall i mom, i + 1 < length z -> i + 1 < length y ->
            exists mom', body i mom = Ok mom') as Hok.
  { intros i mom Hiz Hiy. unfold body.
    rewrite (for_each_sum _ _
               (fun j => (Rsum (map (fun k =>
                  INR (binom m n j k) * nth i z 0 ^ (n - k) * nth (i + 1) z 0 ^ k)
                  (seq 0 (n + 1))) * nth i y 0 ^ (m - j) * nth (i + 1) y 0 ^ j)%R)).
    - cbn [bind]. rewrite !(getitem_nth _ _ 0%R) by lia. cbn [bind]. eexists. reflexivity.
    - intros j ssj Hj. apply in_seq in Hj.
      rewrite (for_each_sum _ _
        (fun k => (INR (binom m n j k) * nth i z 0 ^ (n - k) * nth (i + 1) z 0 ^ k)%R)).
      + cbn [bind]. rewrite !(getitem_nth _ _ 0%R) by lia. cbn [bind].
        f_equal. lra.
      + intros k ssk Hk. apply in_seq in Hk.
        rewrite coeff_binom by lia. cbn [bind].
        rewrite !(getitem_nth _ _ 0%R) by lia. cbn [bind].
        rewrite <- INR_IZR_INZ. reflexivity. }
  assert (forall i mom, length z <= i + 1 -> body i mom = Raise IndexError) as Hfail.
  { intros i mom Hi. unfold body. rewrite !Nat.add_1_r. cbn [seq for_each].
    destruct (coeff_origin m n) as [c Hc]. rewrite Hc. cbn [bind].
    destruct (le_lt_dec (length z) i) as [Hle|Hlt].
    - rewrite getitem_out by lia. reflexivity.
    - rewrite (getitem_nth _ _ 0%R) by lia. cbn [bind].
      rewrite getitem_out by lia. reflexivity. }
  replace (length y - 1) with ((length z - 1) + S (length y - 1 - S (length z - 1)))
    by lia.
  rewrite seq_app. cbn [seq Nat.add].
  rewrite (for_each_raise _ _ _ body IndexError); [reflexivity| |].
  - intros i s Hi. apply in_seq in Hi. apply Hok; lia.
  - intros s. apply Hfail. lia.
Qed.

Lemma marin_integration_short_z_witness :
  length [1%R] < length [0; 1; 2]%R /\ 2 <= length [0; 1; 2]%R
  /\ marin_integration [0; 1; 2]%R [1%R] 1 1 = Raise IndexError.
Proof.
  split; [cbn; lia|]. split; [cbn; lia|].
  apply (marin_integration_short_z [0; 1; 2]%R [1%R] 1 1); cbn; lia.
Defined.

(** X2: entries of [z] beyond the length of [y] are never read: the result
    is that of [z] cut to the length of [y]. *)
Theorem marin_integration_long_z (y z : list R) (m n : nat) :
  length y <= length z ->
  marin_integration y z m n = marin_integration y (firstn (length y) z) m n.
Proof.
  intros Hlen.
  rewrite (marin_integration_indices y z) by assumption.
  rewrite (marin_integration_indices y (firstn (length y) z))
    by (rewrite length_firstn; lia).
  do 2 f_equal. apply Rsum_map_ext_in. intros i Hi. apply in_seq in Hi.
  unfold vertex_at. rewrite !nth_firstn.
  destruct (Nat.ltb_spec i (length y)); [|lia].
  destruct (Nat.ltb_spec (i + 1) (length y)); [|lia].
  reflexivity.
Qed.

Lemma marin_integration_long_z_witness :
  length [0; 1; 1]%R <= length [0; 0; 1; 7; 9]%R
  /\ marin_integration [0; 1; 1]%R [0; 0; 1; 7; 9]%R 0 0
     = marin_integration [0; 1; 1]%R (firstn (length [0; 1; 1]%R) [0; 0; 1; 7; 9]%R) 0 0.
Proof.
  split; [cbn; lia|].
  apply (marin_integration_long_z [0; 1; 1]%R [0; 0; 1; 7; 9]%R 0 0). cbn; lia.
Defined.

(** ** [marin_integration]: change of units, of axes and of first vertex *)

Lemma pow_split (x : R) (n k : nat) : k <= n -> (x ^ (n - k) * x ^ k = x ^ n)%R.
Proof. intros H. rewrite <- pow_add. f_equal. lia. Qed.

Lemma edge_sum_scale (m n : nat) (a b : R) (p q : point) :
  edge_sum m n (a * fst p, b * snd p)%R (a * fst q, b * snd q)%R
  = (a ^ m * b ^ n * edge_sum m n p q)%R.
Proof.
  unfold edge_sum. rewrite <- sum_upto_scal. apply sum_upto_ext. intros j Hj.
  rewrite <- sum_upto_scal. apply sum_upto_ext. intros k Hk.
  cbn [fst snd]. rewrite !Rpow_mult_distr.
  rewrite <- (pow_split a m j Hj), <- (pow_split b n k Hk). ring.
Qed.

Lemma edge_term_scale (m n : nat) (a b : R) (e : point * point) :
  edge_term m n ((a * fst (fst e), b * snd (fst e)), (a * fst (snd e), b * snd (snd e)))%R
  = (a ^ (m + 1) * b ^ (n + 1) * edge_term m n e)%R.
Proof.
  unfold edge_term. cbn [fst snd].
  rewrite (edge_sum_scale m n a b (fst e) (snd e)). unfold cross. cbn [fst snd].
  rewrite !pow_add. cbn [pow]. ring.
Qed.

Lemma combine_map {A B A' B' : Type} (f : A -> A') (g : B -> B') (l : list A) :
  forall l' : list B,
    combine (map f l) (map g l') = map (fun p => (f (fst p), g (snd p))) (combine l l').
Proof.
  induction l as [|x l IH]; intros [|x' l']; cbn [map combine fst snd]; try reflexivity.
  f_equal. apply IH.
Qed.

(** X3: a change of units: with the first coordinates multiplied by [a] and
    the second by [b], the moment of order (m, n) is multiplied by
    [a^(m+1) b^(n+1)]. *)
Theorem marin_integration_scale (y z : list R) (m n : nat) (a b : R) :
  length y = length z ->
  exists v : R,
    marin_integration y z m n = Ok v
    /\ marin_integration (map (Rmult a) y) (map (Rmult b) z) m n
       = Ok (a ^ (m + 1) * b ^ (n + 1) * v)%R.
Proof.
  intros Hlen. exists (edge_summation (combine y z) m n).
  split; [apply marin_integration_edges, Hlen|].
  rewrite marin_integration_edges by (rewrite !length_map; exact Hlen).
  f_equal. unfold edge_summation.
  rewrite combine_map, consecutive_pairs_map, map_map.
  rewrite (Rsum_map_ext_in _
             (fun e => (edge_term m n e * (a ^ (m + 1) * b ^ (n + 1)))%R))
    by (intros e _; etransitivity; [apply (edge_term_scale m n a b e) | ring]).
  rewrite <- Rsum_map_scale. unfold Rdiv.
  match goal with |- (?X * ?c * ?d = ?c * (?X' * ?d))%R => change X' with X end.
  ring.
Qed.

Lemma marin_integration_scale_witness :
  length [0; 1; 1; 0]%R = length [0; 0; 1; 1]%R
  /\ exists v : R,
       marin_integration [0; 1; 1; 0]%R [0; 0; 1; 1]%R 2 0 = Ok v
       /\ marin_integration (map (Rmult 3) [0; 1; 1; 0]%R) (map (Rmult 5) [0; 0; 1; 1]%R) 2 0
          = Ok (3 ^ (2 + 1) * 5 ^ (0 + 1) * v)%R.
Proof.
  split; [reflexivity|].
  apply (marin_integration_scale [0; 1; 1; 0]%R [0; 0; 1; 1]%R 2 0 3 5). reflexivity.
Defined.

Lemma sum_upto_swap (m n : nat) :
  forall f : nat -> nat -> R,
    sum_upto m (fun j => sum_upto n (fun k => f j k))
    = sum_upto n (fun k => sum_upto m (fun j => f j k)).
Proof.
  induction m as [|m IH]; intros f.
  - rewrite sum_upto_O. apply sum_upto_ext. intros k _. rewrite sum_upto_O. reflexivity.
  - rewrite sum_upto_S, (IH (fun j k => f (S j) k)).
    rewrite (sum_upto_ext n (fun k => sum_upto (S m) (fun j => f j k))
               (fun k => (f O k + sum_upto m (fun j => f (S j) k))%R))
      by (intros; apply sum_upto_S).
    rewrite sum_upto_plus. reflexivity.
Qed.

Lemma binom_transpose (m n j k : nat) :
  j <= m -> k <= n -> binom n m k j = binom m n j k.
Proof.
  intros Hj Hk. unfold binom.
  replace (n + m - k - j) with (m + n - j - k) by lia.
  replace (k + j) with (j + k) by lia.
  assert (binomial (m + n - j - k) (m - j) = binomial (m + n - j - k) (n - k)) as ->.
  { rewrite <- (binomial_sym (m + n - j - k) (n - k)) by lia. f_equal. lia. }
  assert (binomial (j + k) k = binomial (j + k) j) as ->.
  { rewrite <- (binomial_sym (j + k) j) by lia. f_equal. lia. }
  reflexivity.
Qed.

Lemma edge_sum_transpose (m n : nat) (p q : point) :
  edge_sum n m (transpose p) (transpose q) = edge_sum m n p q.
Proof.
  unfold edge_sum. rewrite sum_upto_swap. apply sum_upto_ext. intros j Hj.
  apply sum_upto_ext. intros k Hk. rewrite binom_transpose by assumption.
  cbn [transpose fst snd]. ring.
Qed.

Lemma edge_term_transpose (m n : nat) (e : point * point) :
  edge_term n m (transpose (fst e), transpose (snd e)) = (- edge_term m n e)%R.
Proof.
  unfold edge_term. cbn [fst snd]. rewrite edge_sum_transpose.
  unfold cross. cbn [transpose fst snd]. ring.
Qed.

Lemma combine_transpose {A B : Type} (l : list A) :
  forall l' : list B, combine l' l = map (fun p => (snd p, fst p)) (combine l l').
Proof.
  induction l as [|x l IH]; intros [|x' l']; cbn [map combine fst snd]; try reflexivity.
  f_equal. apply IH.
Qed.

Lemma marin_denominator_transpose (m n : nat) :
  marin_denominator n m = marin_denominator m n.
Proof.
  unfold marin_denominator. f_equal.
  replace (n + m) with (m + n) by lia.
  rewrite <- (binomial_sym (m + n) n) by lia.
  replace (m + n - n) with m by lia. reflexivity.
Qed.

(** X4: exchanging the two axes, coordinates and degrees together, mirrors
    the polygon and negates the moment. *)
Theorem marin_integration_transpose (y z : list R) (m n : nat) :
  length y = length z ->
  exists v : R,
    marin_integration y z m n = Ok v
    /\ marin_integration z y n m = Ok (- v)%R.
Proof.
  intros Hlen. exists (edge_summation (combine y z) m n).
  split; [apply marin_integration_edges, Hlen|].
  rewrite marin_integration_edges by (symmetry; exact Hlen).
  f_equal. unfold edge_summation.
  rewrite (combine_transpose y z), consecutive_pairs_map, map_map.
  rewrite (Rsum_map_ext_in _ (fun e => (- edge_term m n e)%R))
    by (intros e _; apply (edge_term_transpose m n e)).
  rewrite Rsum_map_opp, marin_denominator_transpose.
  unfold Rdiv. symmetry. apply Ropp_mult_distr_l.
Qed.

Lemma marin_integration_transpose_witness :
  length [0; 1; 1; 0]%R = length [0; 0; 1; 1]%R
  /\ exists v : R,
       marin_integration [0; 1; 1; 0]%R [0; 0; 1; 1]%R 2 1 = Ok v
       /\ marin_integration [0; 0; 1; 1]%R [0; 1; 1; 0]%R 1 2 = Ok (- v)%R.
Proof.
  split; [reflexivity|].
  apply (marin_integration_transpose [0; 1; 1; 0]%R [0; 0; 1; 1]%R 2 1). reflexivity.
Defined.

Lemma ring_sum_shift (m n : nat) (a : point) (l : list point) :
  ring_sum m n (a :: l) = ring_sum m n (l ++ [a]).
Proof.
  unfold ring_sum, close_ring. destruct l as [|b l]; [reflexivity|].
  cbn [first_vertex app]. rewrite consecutive_pairs_cons. cbn [map].
  rewrite Rsum_cons.
  change (b :: (l ++ [a]) ++ [b]) with ((b :: l ++ [a]) ++ [b]).
  replace ((b :: l ++ [a]) ++ [b]) with ((b :: l) ++ [a; b])
    by (cbn [app]; rewrite <- app_assoc; reflexivity).
  rewrite consecutive_pairs_snoc, map_app, Rsum_app. cbn [map app].
  rewrite Rsum_cons, Rsum_nil. lra.
Qed.

Lemma ring_sum_rotate (m n : nat) (l1 : list point) :
  forall l2, ring_sum m n (l1 ++ l2) = ring_sum m n (l2 ++ l1).
Proof.
  induction l1 as [|a l1 IH]; intros l2.
  - rewrite app_nil_r. reflexivity.
  - cbn [app]. rewrite ring_sum_shift, <- app_assoc, IH, <- app_assoc. reflexivity.
Qed.

Lemma combine_app_same {A B : Type} (l1 l2 : list A) :
  forall l1' l2' : list B,
    length l1 = length l1' ->
    combine (l1 ++ l2) (l1' ++ l2') = combine l1 l1' ++ combine l2 l2'.
Proof.
  induction l1 as [|x l1 IH]; intros [|x' l1'] l2' H; try discriminate; [reflexivity|].
  cbn [app combine]. f_equal. apply IH. cbn in H. lia.
Qed.

Lemma marin_integration_ring_sum (y z : list R) (m n : nat) :
  length y = length z ->
  marin_integration (close_ring y) (close_ring z) m n
  = Ok (ring_sum m n (combine y z) / marin_denominator m n)%R.
Proof.
  intros Hlen. rewrite marin_integration_edges by (apply length_close_ring, Hlen).
  rewrite combine_close_ring by assumption. reflexivity.
Qed.

(** X5: the moment of a ring passed closed does not depend on the vertex it
    starts from. *)
Theorem marin_integration_first_vertex (y1 y2 z1 z2 : list R) (m n : nat) :
  length y1 = length z1 -> length y2 = length z2 ->
  marin_integration (close_ring (y1 ++ y2)) (close_ring (z1 ++ z2)) m n
  = marin_integration (close_ring (y2 ++ y1)) (close_ring (z2 ++ z1)) m n.
Proof.
  intros H1 H2.
  rewrite !marin_integration_ring_sum by (rewrite !length_app; lia).
  rewrite !combine_app_same by assumption.
  rewrite ring_sum_rotate. reflexivity.
Qed.

Lemma marin_integration_first_vertex_witness :
  length [0; 1]%R = length [0; 0]%R /\ length [1; 0]%R = length [1; 1]%R
  /\ marin_integration (close_ring ([0; 1] ++ [1; 0])%R) (close_ring ([0; 0] ++ [1; 1])%R) 1 2
     = marin_integration (close_ring ([1; 0] ++ [0; 1])%R)
         (close_ring ([1; 1] ++ [0; 0])%R) 1 2.
Proof.
  split; [reflexivity|]. split; [reflexivity|].
  apply (marin_integration_first_vertex [0; 1]%R [1; 0]%R [0; 0]%R [1; 1]%R 1 2);
    reflexivity.
Defined.

(** ** [marin_integration]: the area does not move, and the rectangle *)

Lemma telescope_ring {A : Type} (g : A -> R) (l : list A) :
  Rsum (map (fun e => (g (snd e) - g (fst e))%R) (consecutive_pairs (close_ring l)))
  = 0%R.
Proof.
  destruct l as [|a l]; [reflexivity|].
  unfold close_ring. cbn [first_vertex].
  assert (forall (l : list A) (a c : A),
            Rsum (map (fun e => (g (snd e) - g (fst e))%R)
                      (consecutive_pairs (a :: l ++ [c])))
            = (g c - g a)%R) as H.
  { clear. induction l as [|b l IH]; intros a c.
    - cbn. lra.
    - cbn [app]. rewrite consecutive_pairs_cons. cbn [map fst snd].
      rewrite Rsum_cons, IH. lra. }
  change ((a :: l) ++ [a]) with (a :: l ++ [a]). rewrite H. lra.
Qed.

Lemma Rsum_map_plus {A : Type} (f g : A -> R) (l : list A) :
  Rsum (map (fun x => (f x + g x)%R) l) = (Rsum (map f l) + Rsum (map g l))%R.
Proof.
  induction l as [|x l IH]; cbn [map]; rewrite ?Rsum_cons, ?Rsum_nil; [lra|].
  rewrite IH. lra.
Qed.

Lemma edge_term_area (e : point * point) : edge_term 0 0 e = cross (fst e) (snd e).
Proof.
  unfold edge_term, edge_sum, sum_upto, binom.
  cbn [seq map Rsum fold_right Nat.add Nat.sub binomial Nat.mul INR pow]. ring.
Qed.

(** X6: the area, the moment of order (0, 0) of a ring passed closed, does
    not change when the ring is moved by [(c, d)]. *)
Theorem marin_integration_area_translation (y z : list R) (c d : R) :
  length y = length z ->
  marin_integration (close_ring (map (Rplus c) y)) (close_ring (map (Rplus d) z)) 0 0
  = marin_integration (close_ring y) (close_ring z) 0 0.
Proof.
  intros Hlen.
  rewrite !marin_integration_ring_sum by (rewrite ?length_map; exact Hlen).
  do 2 f_equal. unfold ring_sum.
  rewrite combine_map, close_ring_map, consecutive_pairs_map, map_map.
  rewrite (Rsum_map_ext_in _
             (fun e => (edge_term 0 0 e
                        + ((c * snd (snd e) - d * fst (snd e))
                           - (c * snd (fst e) - d * fst (fst e))))%R)).
  - rewrite Rsum_map_plus.
    rewrite (telescope_ring (fun p : point => (c * snd p - d * fst p)%R)).
    apply Rplus_0_r.
  - intros e _. rewrite !edge_term_area. unfold cross. cbn.
    destruct e as [[y1 z1] [y2 z2]]. cbn [fst snd]. ring.
Qed.

Lemma marin_integration_area_translation_witness :
  length [0; 1; 1; 0]%R = length [0; 0; 1; 1]%R
  /\ marin_integration (close_ring (map (Rplus 3) [0; 1; 1; 0]%R))
       (close_ring (map (Rplus (-2)) [0; 0; 1; 1]%R)) 0 0
     = marin_integration (close_ring [0; 1; 1; 0]%R) (close_ring [0; 0; 1; 1]%R) 0 0.
Proof.
  split; [reflexivity|].
  apply (marin_integration_area_translation [0; 1; 1; 0]%R [0; 0; 1; 1]%R 3 (-2)).
  reflexivity.
Defined.

(** The term of an edge against the sum of the next order: the discrete
    form of Green's theorem, in the direction of z and of y. *)
Lemma edge_term_next_y (m n : nat) (a b : point) :
  (cross a b * edge_sum m n a b)%R
  = ((snd b - snd a) * edge_sum (S m) n a b
     - INR (binomial (S m + n) n)
       * (fst b ^ S m * snd b ^ S n - fst a ^ S m * snd a ^ S n))%R.
Proof.
  pose proof (edge_sum_rec (S m) n a b) as Hb.
  pose proof (edge_sum_rec (S m) n b a) as Ha.
  rewrite edge_sum_sym, edge_sum_y_sym, edge_sum_z_sym in Ha.
  change (edge_sum_y (S m) n a b) with (edge_sum m n a b) in *.
  destruct a as [ya za], b as [yb zb]. unfold cross. cbn [fst snd] in *.
  rewrite <- !(tech_pow_Rmult za n), <- !(tech_pow_Rmult zb n).
  set (S1 := edge_sum (S m) n (ya, za) (yb, zb)) in *.
  set (S0 := edge_sum m n (ya, za) (yb, zb)) in *.
  set (Sz := edge_sum_z (S m) n (ya, za) (yb, zb)) in *.
  set (C := INR (binomial (S m + n) n)) in *.
  assert (zb * S1 = zb * (ya * S0 + za * Sz + C * yb ^ S m * zb ^ n))%R as H1
    by (f_equal; exact Ha).
  assert (za * S1 = za * (yb * S0 + zb * Sz + C * ya ^ S m * za ^ n))%R as H2
    by (f_equal; exact Hb).
  lra.
Qed.

Lemma edge_term_next_z (m n : nat) (a b : point) :
  (cross a b * edge_sum m n a b)%R
  = (INR (binomial (m + S n) (S n))
     * (fst b ^ S m * snd b ^ S n - fst a ^ S m * snd a ^ S n)
     - (fst b - fst a) * edge_sum m (S n) a b)%R.
Proof.
  pose proof (edge_sum_rec m (S n) a b) as Hb.
  pose proof (edge_sum_rec m (S n) b a) as Ha.
  rewrite edge_sum_sym, edge_sum_y_sym, edge_sum_z_sym in Ha.
  change (edge_sum_z m (S n) a b) with (edge_sum m n a b) in *.
  destruct a as [ya za], b as [yb zb]. unfold cross. cbn [fst snd] in *.
  rewrite <- !(tech_pow_Rmult ya m), <- !(tech_pow_Rmult yb m).
  set (S1 := edge_sum m (S n) (ya, za) (yb, zb)) in *.
  set (S0 := edge_sum m n (ya, za) (yb, zb)) in *.
  set (Sy := edge_sum_y m (S n) (ya, za) (yb, zb)) in *.
  set (C := INR (binomial (m + S n) (S n))) in *.
  assert (yb * S1 = yb * (ya * Sy + za * S0 + C * yb ^ m * zb ^ S n))%R as H1
    by (f_equal; exact Ha).
  assert (ya * S1 = ya * (yb * Sy + zb * S0 + C * ya ^ m * za ^ S n))%R as H2
    by (f_equal; exact Hb).
  lra.
Qed.

Lemma binomial_rectangle (m n : nat) :
  (binomial (S m + n) n + binomial (m + S n) (S n)) * (S m * S n)
  = binomial (m + n) n * (m + n + 1) * (m + n + 2).
Proof.
  replace (m + S n) with (S m + n) by lia.
  change (binomial (S m + n) n + binomial (S m + n) (S n))
    with (binomial (S (S m + n)) (S n)).
  pose proof (zfact_binomial (S (S m + n)) (S n) ltac:(lia)) as H2.
  pose proof (zfact_binomial (m + n) n ltac:(lia)) as H0.
  replace (S (S m + n) - S n) with (S m) in H2 by lia.
  replace (m + n - n) with m in H0 by lia.
  change (zfact (S (S m + n))) with (Z.of_nat (S (S m + n)) * (Z.of_nat (S m + n) * zfact (m + n)))%Z in H2.
  change (zfact (S n)) with (Z.of_nat (S n) * zfact n)%Z in H2.
  change (zfact (S m)) with (Z.of_nat (S m) * zfact m)%Z in H2.
  rewrite H0 in H2.
  pose proof (zfact_pos n). pose proof (zfact_pos m).
  apply Nat2Z.inj.
  apply (Z.mul_cancel_r _ _ (zfact n * zfact m)); [nia|].
  rewrite !Nat2Z.inj_mul, !Nat2Z.inj_add. rewrite !Nat2Z.inj_succ, !Nat2Z.inj_add in H2.
  change (Z.of_nat 1) with 1%Z. change (Z.of_nat 2) with 2%Z.
  rewrite !Nat2Z.inj_succ.
  lia.
Qed.

(** The edge summation of a rectangle passed closed. *)
Lemma rectangle_edge_summation (a b c d : R) (m n : nat) :
  edge_summation (combine [a; b; b; a; a] [c; c; d; d; c]) m n
  = ((b ^ (m + 1) - a ^ (m + 1)) * (d ^ (n + 1) - c ^ (n + 1))
     / (INR (m + 1) * INR (n + 1)))%R.
Proof.
  unfold edge_summation. cbn [combine]. rewrite !consecutive_pairs_cons.
  unfold consecutive_pairs at 1. cbn [combine tl map].
  rewrite !Rsum_cons, Rsum_nil. unfold edge_term. cbn [fst snd].
  rewrite !(Rmult_comm (edge_sum m n _ _)).
  rewrite (edge_term_next_y m n (a, c) (b, c)), (edge_term_next_z m n (b, c) (b, d)),
    (edge_term_next_y m n (b, d) (a, d)), (edge_term_next_z m n (a, d) (a, c)).
  cbn [fst snd]. rewrite !Nat.add_1_r.
  pose proof (binomial_rectangle m n) as Hbin.
  apply (f_equal INR) in Hbin.
  rewrite !mult_INR, !plus_INR in Hbin.
  unfold marin_denominator. rewrite !mult_INR, !plus_INR.
  change (INR 1) with 1%R in *. change (INR 2) with 2%R in *.
  assert (0 < INR (binomial (m + n) n))%R as Hpos
    by (apply lt_0_INR, binomial_pos; lia).
  pose proof (pos_INR m). pose proof (pos_INR n).
  assert (0 < INR (S m))%R by (apply lt_0_INR; lia).
  assert (0 < INR (S n))%R by (apply lt_0_INR; lia).
  set (A := (b ^ S m - a ^ S m)%R). set (D := (d ^ S n - c ^ S n)%R).
  set (C1 := INR (binomial (S m + n) n)) in *.
  set (C2 := INR (binomial (m + S n) (S n))) in *.
  set (B := INR (binomial (m + n) n)) in *.
  assert (0 < C1 + C2)%R as Hsum.
  { unfold C1, C2. rewrite <- plus_INR. apply lt_0_INR.
    pose proof (binomial_pos (S m + n) n ltac:(lia)). lia. }
  rewrite <- Hbin. unfold A, D. field. lra.
Qed.

(** X7: for the rectangle [a, b] x [c, d], passed closed and counter-clockwise
    (for [a < b], [c < d]), [marin_integration] returns the integral of
    [y^m z^n] over it, [(b^(m+1) - a^(m+1)) (d^(n+1) - c^(n+1)) / ((m+1)(n+1))],
    for every order. *)
Theorem marin_integration_rectangle (a b c d : R) (m n : nat) :
  marin_integration [a; b; b; a; a] [c; c; d; d; c] m n
  = Ok ((b ^ (m + 1) - a ^ (m + 1)) * (d ^ (n + 1) - c ^ (n + 1))
        / (INR (m + 1) * INR (n + 1)))%R.
Proof.
  rewrite marin_integration_edges by reflexivity. f_equal.
  apply rectangle_edge_summation.
Qed.

(** ** [integrate]: the surface zones *)

Lemma list_comprehension_ok {A B : Type} (f : A -> result B) (g : A -> B) (xs : list A) :
  (forall x, In x xs -> f x = Ok (g x)) -> list_comprehension f xs = Ok (map g xs).
Proof.
  induction xs as [|x xs IH]; intros H; cbn [list_comprehension map]; [reflexivity|].
  rewrite H by (left; reflexivity). cbn [bind].
  rewrite IH by (intros; apply H; right; assumption). reflexivity.
Qed.

Lemma add_contribution_zone (y z coeff : list R) (N Mx My : R) :
  length y = length z ->
  add_contribution (0%Z, y, z, coeff) (N, Mx, My)
  = Ok (N + zone_resultant (combine y z) coeff 0 0,
        Mx + zone_resultant (combine y z) coeff 0 1,
        My + zone_resultant (combine y z) coeff 1 0)%R.
Proof.
  intros Hlen. unfold add_contribution. cbn [Z.eqb].
  rewrite (list_comprehension_ok _ (fun k => edge_summation (combine y z) 0 k))
    by (intros; apply marin_integration_edges, Hlen).
  rewrite (list_comprehension_ok _ (fun k => edge_summation (combine y z) 0 (k + 1)))
    by (intros; apply marin_integration_edges, Hlen).
  rewrite (list_comprehension_ok _ (fun k => edge_summation (combine y z) 1 k))
    by (intros; apply marin_integration_edges, Hlen).
  cbn [bind].
  rewrite !np_mul_same_length by (rewrite length_map; unfold range; rewrite length_seq; reflexivity).
  cbn [bind]. unfold zone_resultant, dot.
  assert (forall m, map (fun k => edge_summation (combine y z) m (k + 0)) (range (length coeff))
                    = map (fun k => edge_summation (combine y z) m k) (range (length coeff)))
    as Hshift by (intros m; apply map_ext; intros k; rewrite Nat.add_0_r; reflexivity).
  rewrite !Hshift. reflexivity.
Qed.

(** X8: a surface zone with the stress coefficients [coeff] adds to [N] the
    sum of [coeff[k]] times the area moment of order [(0, k)], to [Mx] that
    with the moments of order [(0, k + 1)] and to [My] that with the moments
    of order [(1, k)], whatever the number of coefficients. *)
Theorem surface_zone_contribution (zones : list prepared) (y z coeff : list R)
    (N Mx My : R) :
  length y = length z ->
  accumulate zones = Ok (N, Mx, My) ->
  accumulate (zones ++ [(0%Z, y, z, coeff)])
  = Ok (N + zone_resultant (combine y z) coeff 0 0,
        Mx + zone_resultant (combine y z) coeff 0 1,
        My + zone_resultant (combine y z) coeff 1 0)%R.
Proof.
  intros Hlen Hacc. rewrite (accumulate_snoc _ _ _ Hacc).
  apply add_contribution_zone, Hlen.
Qed.

Lemma surface_zone_contribution_witness :
  accumulate [(0%Z, [0; 1; 1; 0; 0], [0; 0; 1; 1; 0], [2; 6])]%R
  = Ok (0 + zone_resultant [(0, 0); (1, 0); (1, 1); (0, 1); (0, 0)] [2; 6] 0 0,
        0 + zone_resultant [(0, 0); (1, 0); (1, 1); (0, 1); (0, 0)] [2; 6] 0 1,
        0 + zone_resultant [(0, 0); (1, 0); (1, 1); (0, 1); (0, 0)] [2; 6] 1 0)%R.
Proof.
  apply (surface_zone_contribution [] [0; 1; 1; 0; 0] [0; 0; 1; 1; 0] [2; 6] 0 0 0)%R;
    reflexivity.
Defined.

(** ** [integrate]: the loop over the entries *)

Lemma add_contribution_shift (e : prepared) (NM : R * R * R) :
  add_contribution e NM
  = (d <- add_contribution e (0, 0, 0)%R ;; Ok (add_resultants NM d)).
Proof.
  destruct e as [[[i y] z] c], NM as [[N Mx] My]. unfold add_contribution.
  destruct (i =? 0)%Z.
  - destruct (list_comprehension _ _) as [a1|]; cbn [bind]; [|reflexivity].
    destruct (list_comprehension _ _) as [a2|]; cbn [bind]; [|reflexivity].
    destruct (list_comprehension _ _) as [a3|]; cbn [bind]; [|reflexivity].
    destruct (np_mul c a1); cbn [bind]; [|reflexivity].
    destruct (np_mul c a2); cbn [bind]; [|reflexivity].
    destruct (np_mul c a3); cbn [bind add_resultants]; [|reflexivity].
    do 2 f_equal; [f_equal|]; ring.
  - destruct (i =? 1)%Z.
    + destruct (np_mul c z); cbn [bind]; [|reflexivity].
      destruct (np_mul c y); cbn [bind add_resultants]; [|reflexivity].
      do 2 f_equal; [f_equal|]; ring.
    + cbn [bind add_resultants]. do 2 f_equal; [f_equal|]; ring.
Qed.

Lemma accumulate_from (entries : list prepared) (NM : R * R * R) :
  for_each entries add_contribution NM
  = (d <- accumulate entries ;; Ok (add_resultants NM d)).
Proof.
  unfold accumulate. revert NM.
  induction entries as [|e entries IH]; intros NM; cbn [for_each bind].
  - destruct NM as [[N Mx] My]. cbn [add_resultants]. do 2 f_equal; [f_equal|]; ring.
  - rewrite (add_contribution_shift e NM).
    destruct (add_contribution e (0, 0, 0)%R) as [d|x]; cbn [bind]; [|reflexivity].
    rewrite (IH (add_resultants NM d)), (IH d).
    destruct (for_each entries add_contribution (0, 0, 0)%R) as [d'|x]; cbn [bind];
      [|reflexivity].
    destruct NM as [[N Mx] My], d as [[n mx] my], d' as [[n' mx'] my'].
    cbn [add_resultants]. do 2 f_equal; [f_equal|]; ring.
Qed.

(** X9: the resultants of [integrate]'s loop are additive: the loop over
    two lists of entries one after the other gives the component-wise sum of
    the resultants of each, and the first exception met when one of them
    fails. *)
Theorem accumulate_app (a b : list prepared) :
  accumulate (a ++ b)
  = (ra <- accumulate a ;; rb <- accumulate b ;; Ok (add_resultants ra rb)).
Proof.
  unfold accumulate at 1. rewrite for_each_app. fold (accumulate a).
  destruct (accumulate a) as [ra|e]; cbn [bind]; [|reflexivity].
  apply accumulate_from.
Qed.

(** X10: an entry whose tag is neither 0 nor 1 is skipped without an
    error: the loop of [integrate] gives what it gives on the entries of
    tag 0 and 1 alone. *)
Theorem accumulate_ignores_other_tags (entries : list prepared) :
  accumulate entries = accumulate (List.filter known_tag entries).
Proof.
  unfold accumulate. generalize (0, 0, 0)%R.
  induction entries as [|e entries IH]; intros NM; cbn [List.filter for_each];
    [reflexivity|].
  destruct e as [[[i y] z] c]. unfold known_tag at 1.
  destruct (i =? 0)%Z eqn:H0; cbn [orb].
  - cbn [for_each]. destruct (add_contribution _ NM); cbn [bind]; [apply IH|reflexivity].
  - destruct (i =? 1)%Z eqn:H1.
    + cbn [for_each]. destruct (add_contribution _ NM); cbn [bind]; [apply IH|reflexivity].
    + unfold add_contribution at 1. rewrite H0, H1. destruct NM as [[N Mx] My].
      cbn [bind]. apply IH.
Qed.

(** ** [prepare_input]: what it hands to [integrate] *)

Lemma for_each_invariant {A S : Type} (P : S -> Prop) (xs : list A)
    (body : A -> S -> result S) :
  (forall x s s', In x xs -> P s -> body x s = Ok s' -> P s') ->
  forall s0 s', P s0 -> for_each xs body s0 = Ok s' -> P s'.
Proof.
  induction xs as [|x xs IH]; intros Hb s0 s' H0; cbn [for_each].
  - intros [= <-]. exact H0.
  - destruct (body x s0) as [s1|e] eqn:H1; cbn [bind]; [|discriminate].
    apply IH; [intros; eapply Hb; eauto; right; assumption|].
    eapply Hb; eauto. left; reflexivity.
Qed.

Lemma for_each_never {A S : Type} (bad : exn) (xs : list A) (body : A -> S -> result S) :
  (forall x s, In x xs -> body x s <> Raise bad) ->
  forall s0, for_each xs body s0 <> Raise bad.
Proof.
  induction xs as [|x xs IH]; intros Hb s0; cbn [for_each]; [discriminate|].
  destruct (body x s0) as [s1|e] eqn:H1; cbn [bind].
  - apply IH. intros; apply Hb; right; assumption.
  - rewrite <- H1. apply Hb. left; reflexivity.
Qed.

Section PreparedInput.

Context (E : GeometryEngine).

(** The loop of [get_input_polygon] over the interior rings. *)
Lemma get_input_polygon_interiors (coeffs : list R) (holes : list LinearRing)
    (prepared_input : list prepared) :
  for_each holes (fun i prepared_input =>
      if is_ccw E i then Raise ValueError
      else
        let x := map fst i in
        let y := map snd i in
        Ok (prepared_input ++ [(0%Z, x, y, coeffs)])) prepared_input
  = if forallb (fun i => negb (is_ccw E i)) holes
    then Ok (prepared_input ++ map (ring_entry coeffs) holes)
    else Raise ValueError.
Proof.
  revert prepared_input.
  induction holes as [|h holes IH]; intros prepared_input; cbn [for_each forallb map].
  - rewrite app_nil_r. reflexivity.
  - destruct (is_ccw E h); cbn [negb andb bind]; [reflexivity|].
    rewrite IH. destruct (forallb _ holes); [|reflexivity].
    rewrite <- app_assoc. reflexivity.
Qed.

Lemma get_input_polygon_rings (p : Polygon) (coeffs : list R)
    (prepared_input : list prepared) :
  get_input_polygon E p coeffs prepared_input
  = let q := orient E p 1 in
    if is_ccw E (exterior q) && forallb (fun i => negb (is_ccw E i)) (interiors q)
    then Ok (prepared_input ++ map (ring_entry coeffs) (exterior q :: interiors q))
    else Raise ValueError.
Proof.
  unfold get_input_polygon. cbv zeta.
  destruct (is_ccw E (exterior (orient E p 1))); cbn [negb andb]; [|reflexivity].
  rewrite get_input_polygon_interiors.
  destruct (forallb _ _); [|reflexivity].
  rewrite <- app_assoc. reflexivity.
Qed.

Lemma ring_entry_ok (coeffs : list R) (ring : LinearRing) :
  entry_ok (ring_entry coeffs ring) = true.
Proof.
  unfold ring_entry, entry_ok. cbn [Z.eqb]. rewrite !length_map. apply Nat.eqb_refl.
Qed.

Lemma get_input_polygon_ok (p : Polygon) (coeffs : list R) (pin pout : list prepared) :
  Forall (fun e => entry_ok e = true) pin ->
  get_input_polygon E p coeffs pin = Ok pout ->
  Forall (fun e => entry_ok e = true) pout.
Proof.
  intros Hin. rewrite get_input_polygon_rings. cbv zeta.
  destruct (_ && _); [|discriminate]. intros [= <-].
  apply Forall_app. split; [exact Hin|].
  change (Forall (fun e => entry_ok e = true)
            (map (ring_entry coeffs) (exterior (orient E p 1) :: interiors (orient E p 1)))).
  generalize (exterior (orient E p 1) :: interiors (orient E p 1)).
  intros rings. induction rings as [|r rings IH]; cbn [map].
  - constructor.
  - constructor; [apply ring_entry_ok | exact IH].
Qed.

Lemma get_input_polygon_raises (p : Polygon) (coeffs : list R) (pin : list prepared)
    (e : exn) :
  get_input_polygon E p coeffs pin = Raise e -> e = ValueError.
Proof.
  rewrite get_input_polygon_rings. cbv zeta.
  destruct (_ && _); [discriminate|]. intros [= <-]. reflexivity.
Qed.

Lemma prepare_surfaces_ok (rotated_geom : CompoundGeometry) (strain_rotated : R * R)
    (pin pout : list prepared) :
  Forall (fun e => entry_ok e = true) pin ->
  prepare_surfaces E rotated_geom strain_rotated pin = Ok pout ->
  Forall (fun e => entry_ok e = true) pout.
Proof.
  unfold prepare_surfaces.
  apply (for_each_invariant (Forall (fun e => entry_ok e = true))).
  intros g s s' _ Hs.
  destruct (__marin__ (material g) strain_rotated) as [strains coeffs].
  apply (for_each_invariant (Forall (fun e => entry_ok e = true))); [|exact Hs].
  clear s s' Hs. intros k s s' _ Hs.
  destruct (getitem strains k) as [sp|]; cbn [bind]; [|discriminate].
  destruct (truediv _ _) as [y0|]; cbn [bind]; [|discriminate].
  destruct (truediv _ _) as [y1|]; cbn [bind]; [|discriminate].
  destruct (Rgt_dec y0 y1).
  - destruct (split_two_lines E g _) as [q|qs|].
    + destruct (getitem coeffs k) as [cp|]; cbn [bind]; [|discriminate].
      apply get_input_polygon_ok, Hs.
    + apply (for_each_invariant (Forall (fun e => entry_ok e = true))); [|exact Hs].
      intros q t t' _ Ht.
      destruct (getitem coeffs k) as [cp|]; cbn [bind]; [|discriminate].
      apply get_input_polygon_ok, Ht.
    + intros [= <-]. exact Hs.
  - destruct (split_two_lines E g _) as [q|qs|].
    + destruct (getitem coeffs k) as [cp|]; cbn [bind]; [|discriminate].
      apply get_input_polygon_ok, Hs.
    + apply (for_each_invariant (Forall (fun e => entry_ok e = true))); [|exact Hs].
      intros q t t' _ Ht.
      destruct (getitem coeffs k) as [cp|]; cbn [bind]; [|discriminate].
      apply get_input_polygon_ok, Ht.
    + intros [= <-]. exact Hs.
Qed.

Lemma prepare_reinforcement_ok (rotated_geom : CompoundGeometry) (strain_rotated : R * R)
    (x y F : list R) :
  prepare_reinforcement rotated_geom strain_rotated = Ok (x, y, F) ->
  length x = length F /\ length y = length F.
Proof.
  unfold prepare_reinforcement. intros H.
  apply (for_each_invariant
           (fun xyF : list R * list R * list R =>
              length (fst (fst xyF)) = length (snd xyF)
              /\ length (snd (fst xyF)) = length (snd xyF))) in H; [exact H| |split; reflexivity].
  intros pg [[x0 y0] F0] s' _ [Hx Hy]. cbn [fst snd] in *.
  destruct (_point pg) as [xp yp].
  destruct (getitem _ 0) as [s|]; cbn [bind]; [|discriminate].
  intros [= <-]. cbn [fst snd]. rewrite !length_app. cbn [length]. lia.
Qed.

Lemma add_contribution_succeeds (e : prepared) (NM : R * R * R) :
  entry_ok e = true -> exists NM', add_contribution e NM = Ok NM'.
Proof.
  destruct e as [[[i y] z] c], NM as [[N Mx] My]. unfold entry_ok. intros H.
  destruct (i =? 0)%Z eqn:H0.
  - apply Z.eqb_eq in H0. subst i. apply Nat.eqb_eq in H.
    rewrite add_contribution_zone by assumption. eauto.
  - destruct (i =? 1)%Z eqn:H1.
    + apply Z.eqb_eq in H1. subst i. apply andb_true_iff in H as [Hy Hz].
      apply Nat.eqb_eq in Hy, Hz.
      rewrite add_contribution_reinforcement by assumption. eauto.
    + unfold add_contribution. rewrite H0, H1. eauto.
Qed.

Lemma accumulate_succeeds (entries : list prepared) :
  Forall (fun e => entry_ok e = true) entries -> exists NM, accumulate entries = Ok NM.
Proof.
  unfold accumulate. generalize (0, 0, 0)%R.
  induction entries as [|e entries IH]; intros NM Hall; cbn [for_each]; [eauto|].
  inversion Hall as [|? ? He Hes]; subst.
  destruct (add_contribution_succeeds e NM He) as [NM' ->]. cbn [bind].
  apply IH, Hes.
Qed.

(** X11: whatever [prepare_input] returns, [integrate] accepts: on the
    angle and the entries of a successful [prepare_input], [integrate] raises
    no exception, for every geometry engine, section and strain. *)
Theorem integrate_accepts_prepared_input (geo : CompoundGeometry) (strain : R * R * R)
    (angle : R) (prepared_input : list prepared) :
  prepare_input E geo strain = Ok (angle, prepared_input) ->
  exists NM, integrate angle prepared_input = Ok NM.
Proof.
  destruct strain as [[s0 s1] s2]. unfold prepare_input.
  destruct (prepare_surfaces E _ _ []) as [zones|] eqn:Hsurf; cbn [bind]; [|discriminate].
  destruct (prepare_reinforcement _ _) as [[[x y] F]|] eqn:Hre; cbn [bind]; [|discriminate].
  intros [= <- <-].
  apply prepare_surfaces_ok in Hsurf; [|constructor].
  apply prepare_reinforcement_ok in Hre as [Hx Hy].
  assert (Forall (fun e => entry_ok e = true) (zones ++ [(1%Z, x, y, F)])) as Hall.
  { apply Forall_app. split; [exact Hsurf|]. constructor; [|constructor].
    unfold entry_ok. cbn [Z.eqb]. rewrite Hx, Hy, Nat.eqb_refl. reflexivity. }
  destruct (accumulate_succeeds _ Hall) as [[[N Mx] My] Hacc].
  unfold integrate. rewrite Hacc. cbn [bind]. rewrite matmul_rotation. eauto.
Qed.

(** X12: with a curvature that is not zero, [prepare_input] divides by no
    zero: it raises no [ZeroDivisionError], for every geometry engine, section
    and axial strain. *)
Theorem prepare_input_no_zero_division (geo : CompoundGeometry) (strain0 strain1 strain2 : R) :
  strain1 <> 0%R \/ strain2 <> 0%R ->
  prepare_input E geo (strain0, strain1, strain2) <> Raise ZeroDivisionError.
Proof.
  intros Hcurv. unfold prepare_input.
  set (kappa := sqrt (strain2 ^ 2 + strain1 ^ 2)).
  assert (kappa <> 0%R) as Hk.
  { unfold kappa. intros H0. apply sqrt_eq_0 in H0; [|nra].
    destruct Hcurv as [H|H]; apply H; nra. }
  assert (forall pin, prepare_surfaces E (rotate E geo (atan2 strain2 strain1))
                        (strain0, kappa) pin <> Raise ZeroDivisionError) as Hsurf.
  { intros pin. unfold prepare_surfaces. apply for_each_never. intros g s _.
    destruct (__marin__ (material g) (strain0, kappa)) as [strains coeffs].
    apply for_each_never. intros k t _.
    destruct (getitem strains k) as [sp|[]] eqn:Hsp; cbn [bind]; try discriminate.
    { unfold truediv. cbn [fst snd]. destruct (Req_dec_T kappa 0); [contradiction|].
      cbn [bind].
      assert (forall q cp u, get_input_polygon E q cp u <> Raise ZeroDivisionError) as Hpoly.
      { intros q cp u H. apply get_input_polygon_raises in H. discriminate. }
      destruct (Rgt_dec _ _).
      - destruct (split_two_lines E g _) as [q|qs|]; [| |discriminate].
        + destruct (getitem coeffs k) as [cp|[]] eqn:Hcp; cbn [bind]; try discriminate.
          * apply Hpoly.
          * unfold getitem in Hcp. destruct (nth_error coeffs k); discriminate.
        + apply for_each_never. intros q u _.
          destruct (getitem coeffs k) as [cp|[]] eqn:Hcp; cbn [bind]; try discriminate.
          * apply Hpoly.
          * unfold getitem in Hcp. destruct (nth_error coeffs k); discriminate.
      - destruct (split_two_lines E g _) as [q|qs|]; [| |discriminate].
        + destruct (getitem coeffs k) as [cp|[]] eqn:Hcp; cbn [bind]; try discriminate.
          * apply Hpoly.
          * unfold getitem in Hcp. destruct (nth_error coeffs k); discriminate.
        + apply for_each_never. intros q u _.
          destruct (getitem coeffs k) as [cp|[]] eqn:Hcp; cbn [bind]; try discriminate.
          * apply Hpoly.
          * unfold getitem in Hcp. destruct (nth_error coeffs k); discriminate. }
    unfold getitem in Hsp. destruct (nth_error strains k); discriminate. }
  destruct (prepare_surfaces E _ _ []) as [zones|e] eqn:Hs; cbn [bind].
  - destruct (prepare_reinforcement _ _) as [[[x y] F]|e] eqn:Hre; cbn [bind];
      [discriminate|].
    intros [= ->]. revert Hre. unfold prepare_reinforcement. apply for_each_never.
    intros pg [[x0 y0] F0] _. destruct (_point pg) as [xp yp].
    destruct (getitem _ 0) as [s|[]] eqn:Hg; cbn [bind]; try discriminate.
    unfold getitem in Hg. destruct (nth_error _ 0); discriminate.
  - intros [= ->]. apply (Hsurf [] Hs).
Qed.

(** X13: [get_input_polygon] raises [ValueError] exactly when the exterior
    ring of the oriented polygon is not counter-clockwise or one of its
    interior rings is; otherwise it keeps the entries it is given and appends
    one entry of tag 0 per ring, the exterior first and then the interior
    rings in their order, all with the coefficients of the zone. *)
Theorem get_input_polygon_entries (p : Polygon) (coeffs : list R)
    (prepared_input : list prepared) :
  let q := orient E p 1 in
  (get_input_polygon E p coeffs prepared_input = Raise ValueError
   <-> (is_ccw E (exterior q) = false \/ exists i, In i (interiors q) /\ is_ccw E i = true))
  /\ (forall out, get_input_polygon E p coeffs prepared_input = Ok out ->
        out = prepared_input ++ ring_entry coeffs (exterior q)
                                 :: map (ring_entry coeffs) (interiors q))
  /\ (forall e, get_input_polygon E p coeffs prepared_input = Raise e -> e = ValueError).
Proof.
  intros q. rewrite get_input_polygon_rings. cbv zeta. fold q.
  destruct (is_ccw E (exterior q)) eqn:Hext; cbn [andb].
  - destruct (forallb _ (interiors q)) eqn:Hint.
    + split; [|split].
      * split; [discriminate|]. intros [H|(i & Hi & Hccw)]; [discriminate|].
        rewrite forallb_forall in Hint. specialize (Hint i Hi).
        rewrite Hccw in Hint. discriminate.
      * intros out [= <-]. reflexivity.
      * discriminate.
    + split; [|split].
      * split; [|reflexivity]. intros _. right.
        apply not_true_iff_false in Hint.
        destruct (existsb (fun i => is_ccw E i) (interiors q)) eqn:Hex.
        -- apply existsb_exists in Hex as (i & Hi & Hccw). eauto.
        -- exfalso. apply Hint, forallb_forall. intros i Hi.
           destruct (is_ccw E i) eqn:Hccw; [|reflexivity].
           assert (existsb (fun i => is_ccw E i) (interiors q) = true) as Habs
             by (apply existsb_exists; eauto).
           congruence.
      * discriminate.
      * intros e [= <-]. reflexivity.
  - split; [|split].
    + split; [auto|reflexivity].
    + discriminate.
    + intros e [= <-]. reflexivity.
Qed.

End PreparedInput.

Lemma integrate_accepts_prepared_input_witness :
  exists NM,
    integrate (atan2 0 0)
      [(1%Z, [fst (rotate_point (atan2 0 0) (2, 3)%R)],
        [snd (rotate_point (atan2 0 0) (2, 3)%R)], [(10 * 1)%R])] = Ok NM.
Proof.
  apply (integrate_accepts_prepared_input reference_engine single_bar (0, 0, 0)%R).
  reflexivity.
Defined.

Lemma prepare_input_no_zero_division_witness :
  prepare_input reference_engine unit_square_section (0, 1, 0)%R <> Raise ZeroDivisionError.
Proof.
  apply (prepare_input_no_zero_division reference_engine unit_square_section 0 1 0).
  left. lra.
Defined.

(** ** [_coeff]: the arguments it rejects *)

Lemma comb_raises (n k : Z) :
  comb n k = Raise ValueError <-> (n < 0 \/ k < 0)%Z.
Proof.
  unfold comb. destruct (n <? 0)%Z eqn:Hn; cbn [orb].
  - apply Z.ltb_lt in Hn. split; [left; exact Hn | reflexivity].
  - apply Z.ltb_ge in Hn. destruct (k <? 0)%Z eqn:Hk.
    + apply Z.ltb_lt in Hk. split; [right; exact Hk | reflexivity].
    + apply Z.ltb_ge in Hk. split; [|lia].
      destruct (n <? k)%Z; discriminate.
Qed.

Lemma comb_exn (n k : Z) (e : exn) : comb n k = Raise e -> e = ValueError.
Proof.
  unfold comb. destruct (_ || _); [intros [= <-]; reflexivity|].
  destruct (n <? k)%Z; discriminate.
Qed.

(** X14: [_coeff(m, n, j, k)] raises exactly when [j < 0], [j + k < 0],
    [k > n] or [j + k > m + n], and then a [ValueError]; for [j] from 0 to [m]
    and [k] from 0 to [n], the range of the loops of [marin_integration], it
    returns a value. *)
Theorem coeff_value_error (m n j k : Z) :
  ((exists e, _coeff m n j k = Raise e)
   <-> (j < 0 \/ j + k < 0 \/ n < k \/ m + n < j + k)%Z)
  /\ (forall e, _coeff m n j k = Raise e -> e = ValueError)
  /\ ((0 <= j <= m)%Z -> (0 <= k <= n)%Z -> exists v, _coeff m n j k = Ok v).
Proof.
  assert (forall e, _coeff m n j k = Raise e -> e = ValueError) as Hexn.
  { intros e. unfold _coeff.
    destruct (comb (j + k) j) as [a|e1] eqn:Ha; cbn [bind].
    - destruct (comb (m + n - j - k) (n - k)) as [b|e2] eqn:Hb; cbn [bind];
        [discriminate|].
      intros [= <-]. apply (comb_exn _ _ _ Hb).
    - intros [= <-]. apply (comb_exn _ _ _ Ha). }
  assert ((exists e, _coeff m n j k = Raise e)
          <-> (j < 0 \/ j + k < 0 \/ n < k \/ m + n < j + k)%Z) as Hiff.
  { pose proof (comb_raises (j + k) j) as H1.
    pose proof (comb_raises (m + n - j - k) (n - k)) as H2.
    unfold _coeff.
    destruct (comb (j + k) j) as [a|e1] eqn:Ha; cbn [bind].
    - assert (~ (j + k < 0 \/ j < 0)%Z) as N1
        by (intros H; apply H1 in H; discriminate).
      destruct (comb (m + n - j - k) (n - k)) as [b|e2] eqn:Hb; cbn [bind].
      + assert (~ (m + n - j - k < 0 \/ n - k < 0)%Z) as N2
          by (intros H; apply H2 in H; discriminate).
        split; [intros [e He]; discriminate | lia].
      + pose proof (comb_exn _ _ _ Hb) as ->.
        destruct H2 as [H2 _]. specialize (H2 eq_refl).
        split; [lia | eauto].
    - pose proof (comb_exn _ _ _ Ha) as ->.
      destruct H1 as [H1 _]. specialize (H1 eq_refl).
      split; [lia | eauto]. }
  split; [exact Hiff|]. split; [exact Hexn|].
  intros Hj Hk. destruct (_coeff m n j k) as [v|e] eqn:Hc; [eauto|].
  exfalso. destruct Hiff as [Hiff _]. specialize (Hiff (ex_intro _ e eq_refl)). lia.
Qed.

Lemma coeff_value_error_witness :
  exists v, _coeff 3 2 2 1 = Ok v.
Proof.
  apply (coeff_value_error 3 2 2 1); lia.
Defined.

(** ** The cache of [_coeff]: its size *)

Lemma quad_eqb_refl (a : quad) : quad_eqb a a = true.
Proof.
  destruct a as [[[a1 a2] a3] a4]. cbn [quad_eqb]. rewrite !Z.eqb_refl. reflexivity.
Qed.

Lemma cache_remove_keys (key other : quad) (c : lru_cache) :
  In other (map fst (cache_remove key c)) -> other <> key /\ In other (map fst c).
Proof.
  induction c as [|[k' v'] c IH]; cbn [cache_remove map]; [intros []|].
  destruct (quad_eqb key k') eqn:Heq.
  - intros H. destruct (IH H) as [Hne Hin]. split; [exact Hne | right; exact Hin].
  - cbn [map fst In]. intros [<-|H].
    + split; [|left; reflexivity]. intros ->. rewrite quad_eqb_refl in Heq. discriminate.
    + destruct (IH H) as [Hne Hin]. split; [exact Hne | right; exact Hin].
Qed.

Lemma cache_remove_NoDup (key : quad) (c : lru_cache) :
  List.NoDup (map fst c) -> List.NoDup (map fst (cache_remove key c)).
Proof.
  induction c as [|[k' v'] c IH]; cbn [cache_remove map]; [intros; constructor|].
  intros H. inversion H as [|? ? Hnotin Hnd]; subst.
  destruct (quad_eqb key k'); [apply IH, Hnd|].
  cbn [map fst]. constructor; [|apply IH, Hnd].
  intros Hin. apply cache_remove_keys in Hin as [_ Hin]. apply Hnotin, Hin.
Qed.

Lemma cache_remove_length (key : quad) (c : lru_cache) :
  cache_get key c <> None -> length (cache_remove key c) < length c.
Proof.
  induction c as [|[k' v'] c IH]; cbn [cache_get cache_remove length]; [congruence|].
  destruct (quad_eqb key k').
  - intros _. clear IH. induction c as [|[k2 v2] c IH2]; cbn [cache_remove length]; [lia|].
    destruct (quad_eqb key k2); cbn [length]; lia.
  - intros H. specialize (IH H). cbn [length]. lia.
Qed.

Lemma cache_get_None (key : quad) (c : lru_cache) :
  cache_get key c = None -> ~ In key (map fst c).
Proof.
  induction c as [|[k' v'] c IH]; cbn [cache_get map fst In]; [tauto|].
  destruct (quad_eqb key k') eqn:Heq; [discriminate|].
  intros H [<-|Hin]; [rewrite quad_eqb_refl in Heq; discriminate | exact (IH H Hin)].
Qed.

Lemma firstn_keys_NoDup (n : nat) (c : lru_cache) :
  List.NoDup (map fst c) -> List.NoDup (map fst (firstn n c)).
Proof.
  revert c. induction n as [|n IH]; intros [|[k v] c] H; cbn [firstn map];
    try constructor.
  - inversion H as [|? ? Hnotin Hnd]; subst. intros Hin. apply Hnotin.
    clear -Hin. revert c Hin. induction n as [|n IHn]; intros [|[k2 v2] c];
      cbn [firstn map fst In]; try tauto.
    intros [->|Hin]; [left; reflexivity | right; apply IHn, Hin].
  - inversion H; subst. apply IH. assumption.
Qed.

Lemma coeff_cached_bounded (c : lru_cache) (key : quad) :
  length c <= maxsize /\ List.NoDup (map fst c) ->
  length (snd (_coeff_cached c key)) <= maxsize
  /\ List.NoDup (map fst (snd (_coeff_cached c key))).
Proof.
  intros [Hlen Hnd]. unfold _coeff_cached.
  destruct (cache_get key c) as [v|] eqn:Hg; cbn [snd].
  - split.
    + pose proof (cache_remove_length key c ltac:(congruence)). cbn [length]. lia.
    + cbn [map fst]. constructor; [|apply cache_remove_NoDup, Hnd].
      intros Hin. apply cache_remove_keys in Hin as [Hne _]. congruence.
  - destruct (_coeff_args key) as [v|e]; cbn [snd]; [|split; assumption].
    split.
    + rewrite length_firstn. lia.
    + apply firstn_keys_NoDup. cbn [map fst]. constructor; [|exact Hnd].
      apply cache_get_None, Hg.
Qed.

(** X15: after every history of calls the cache of [_coeff] holds at most
    128 entries and no argument tuple twice. *)
Theorem coeff_cache_bounded (history : list quad) :
  length (cache_after history) <= 128
  /\ List.NoDup (map fst (cache_after history)).
Proof.
  change 128 with maxsize. unfold cache_after.
  assert (forall c, length c <= maxsize /\ List.NoDup (map fst c) ->
            length (fold_left (fun c key => snd (_coeff_cached c key)) history c) <= maxsize
            /\ List.NoDup (map fst (fold_left (fun c key => snd (_coeff_cached c key)) history c)))
    as H.
  { induction history as [|key history IH]; intros c Hc; cbn [fold_left]; [exact Hc|].
    apply IH, coeff_cached_bounded, Hc. }
  apply H. split; [cbn [length]; unfold maxsize; lia | constructor].
Qed.

Lemma cache_remove_absent (key : quad) (c : lru_cache) :
  cache_get key c = None -> cache_remove key c = c.
Proof.
  induction c as [|[k' v'] c IH]; cbn [cache_get cache_remove]; [reflexivity|].
  destruct (quad_eqb key k'); [discriminate|]. intros H. rewrite (IH H). reflexivity.
Qed.

Lemma cache_get_firstn (key : quad) (n : nat) (c : lru_cache) :
  cache_get key c = None -> cache_get key (firstn n c) = None.
Proof.
  revert c. induction n as [|n IH]; intros [|[k' v'] c]; cbn [firstn cache_get];
    try reflexivity.
  destruct (quad_eqb key k'); [discriminate|]. apply IH.
Qed.

Lemma cache_get_removed (key : quad) (c : lru_cache) :
  cache_get key (cache_remove key c) = None.
Proof.
  induction c as [|[k' v'] c IH]; cbn [cache_remove]; [reflexivity|].
  destruct (quad_eqb key k') eqn:Heq; [exact IH|].
  cbn [cache_get]. rewrite Heq. exact IH.
Qed.

(** X16: a call of [_coeff] repeated at once is served from the cache:
    it returns what the first call returned and leaves the cache as the first
    call left it, the arguments as the most recently used entry; a call that
    raises stores nothing, and raises again. *)
Theorem coeff_cached_twice (c : lru_cache) (key : quad) :
  let first := _coeff_cached c key in
  _coeff_cached (snd first) key = first
  /\ match fst first with
     | Ok v => hd_error (snd first) = Some (key, v)
     | Raise _ => snd first = c
     end.
Proof.
  cbv zeta. remember (_coeff_cached c key) as first eqn:Hfirst.
  unfold _coeff_cached in Hfirst.
  destruct (cache_get key c) as [v|] eqn:Hg; [subst first; cbn [fst snd]|].
  - split; [|reflexivity]. unfold _coeff_cached. cbn [cache_get cache_remove].
    rewrite quad_eqb_refl.
    rewrite (cache_remove_absent key (cache_remove key c) (cache_get_removed key c)).
    reflexivity.
  - destruct (_coeff_args key) as [v|e] eqn:Hv; subst first; cbn [fst snd].
    + split; [|reflexivity]. unfold maxsize. cbn [firstn].
      unfold _coeff_cached. cbn [cache_get cache_remove]. rewrite quad_eqb_refl.
      rewrite (cache_remove_absent key _ (cache_get_firstn key 127 c Hg)).
      reflexivity.
    + split; [|reflexivity]. unfold _coeff_cached. rewrite Hg, Hv. reflexivity.
Qed.

(** ** [IntegratorFactory]: the names it keeps *)

Lemma factory_call_names (f : IntegratorFactory) (method name : string) :
  is_Some (instances (snd (IntegratorFactory_call f method)) !! name)
  <-> name = method \/ is_Some (instances f !! name).
Proof.
  unfold IntegratorFactory_call. cbn [snd instances].
  destruct (decide (name = method)) as [->|Hne].
  - rewrite setdefault_lookup. split; [auto|]. intros _.
    destruct (instances f !! method); cbn [default]; eauto.
  - rewrite setdefault_lookup_ne by assumption. tauto.
Qed.

(** X17: for every registry, the factory keeps an entry for every name it
    was asked for, registered or not, and for no other name; the entry is the
    class of the registry under the name, and [MarinIntegrator] for a name
    that the registry does not have. *)
Theorem factory_keeps_every_name (reg : gmap string pyvalue) (history : list string)
    (name : string) :
  (In name history ->
   instances (factory_after (IntegratorFactory_init reg) history) !! name
   = Some (default (ClassObject MarinIntegrator) (reg !! name)))
  /\ (~ In name history ->
      instances (factory_after (IntegratorFactory_init reg) history) !! name = None).
Proof.
  assert (is_Some (instances (factory_after (IntegratorFactory_init reg) history) !! name)
          <-> In name history) as Hnames.
  { unfold factory_after.
    assert (forall f,
              is_Some (instances (fold_left (fun f method => snd (IntegratorFactory_call f method))
                                    history f) !! name)
              <-> In name history \/ is_Some (instances f !! name)) as H.
    { induction history as [|m history IH]; intros f; cbn [fold_left In]; [tauto|].
      rewrite IH, factory_call_names. intuition congruence. }
    rewrite H. unfold IntegratorFactory_init. cbn [instances].
    rewrite lookup_empty. split; [intros [Hin|[v Hv]]; [exact Hin | discriminate] | auto]. }
  destruct (factory_after_inv reg history) as [_ Hinv].
  split.
  - intros Hin. apply Hnames in Hin as [v Hv]. rewrite Hv. f_equal.
    apply (Hinv name v Hv).
  - intros Hnot. destruct (instances _ !! name) as [v|] eqn:Hv; [|reflexivity].
    exfalso. apply Hnot, Hnames. eauto.
Qed.

(** ** [Material.update_attributes] *)

Lemma underscore_inj (k1 k2 : string) : "_" +:+ k1 = "_" +:+ k2 -> k1 = k2.
Proof. cbn. intros [= H]. exact H. Qed.

Lemma update_attributes_loop (class_has : string -> bool)
    (updated_attributes : list (string * pyobject)) :
  forall (self : gmap string pyobject) (warned : list string),
    List.NoDup (map fst updated_attributes) ->
    (forall key, In key (map fst updated_attributes) -> class_has ("_" +:+ key) = false) ->
    let after :=
      fold_left (fun (state : gmap string pyobject * list string) (item : string * pyobject) =>
        if negb (hasattr class_has (fst state) ("_" +:+ fst item))
        then (fst state, snd state ++ [fst item])
        else (<[ "_" +:+ fst item := snd item ]> (fst state), snd state))
        updated_attributes (self, warned) in
    (forall a, is_Some (fst after !! a) <-> is_Some (self !! a))
    /\ snd after
       = warned ++ List.filter (fun key => negb (bool_decide (is_Some (self !! ("_" +:+ key)))))
                     (map fst updated_attributes)
    /\ (forall key value, In (key, value) updated_attributes ->
          is_Some (self !! ("_" +:+ key)) -> fst after !! ("_" +:+ key) = Some value)
    /\ (forall a, (forall key, In key (map fst updated_attributes) -> a <> "_" +:+ key) ->
          fst after !! a = self !! a).
Proof.
  induction updated_attributes as [|[key value] rest IH]; intros self warned Hnd Hcls;
    cbv zeta; cbn [fold_left map fst snd List.filter].
  - rewrite app_nil_r. repeat split; try tauto. intros ? ? [].
  - inversion Hnd as [|? ? Hnotin Hnd']; subst.
    assert (forall k, In k (map fst rest) -> class_has ("_" +:+ k) = false) as Hcls'
      by (intros k Hk; apply Hcls; right; exact Hk).
    assert (hasattr class_has self ("_" +:+ key)
            = bool_decide (is_Some (self !! ("_" +:+ key)))) as ->.
    { unfold hasattr. rewrite (Hcls key) by (left; reflexivity). apply orb_false_r. }
    destruct (bool_decide (is_Some (self !! ("_" +:+ key)))) eqn:Hhas; cbn [negb].
    + apply bool_decide_eq_true in Hhas.
      specialize (IH (<[ "_" +:+ key := value ]> self) warned Hnd' Hcls').
      cbv zeta in IH. destruct IH as (Hdom & Hwarn & Hset & Hkeep).
      assert (forall a, is_Some (<[ "_" +:+ key := value ]> self !! a) <-> is_Some (self !! a))
        as Hsame.
      { intros a. destruct (decide (a = "_" +:+ key)) as [->|Hne].
        - rewrite lookup_insert_eq. split; [intros _; exact Hhas | eauto].
        - rewrite lookup_insert_ne by congruence. tauto. }
      split; [|split; [|split]].
      * intros a. rewrite Hdom. apply Hsame.
      * rewrite Hwarn. f_equal. apply List.filter_ext. intros k.
        f_equal. apply bool_decide_ext, Hsame.
      * intros k v [[= <- <-]|Hin] Hk.
        -- rewrite Hkeep; [apply lookup_insert_eq|].
           intros k' Hk' Heq. apply underscore_inj in Heq. subst k'. exact (Hnotin Hk').
        -- apply Hset; [exact Hin | apply Hsame, Hk].
      * intros a Ha. rewrite Hkeep by (intros k Hk; apply Ha; right; exact Hk).
        apply lookup_insert_ne. intros Heq. apply (Ha key); [left; reflexivity | congruence].
    + apply bool_decide_eq_false in Hhas.
      specialize (IH self (warned ++ [key]) Hnd' Hcls').
      cbv zeta in IH. destruct IH as (Hdom & Hwarn & Hset & Hkeep).
      split; [exact Hdom|]. split; [|split].
      * rewrite Hwarn, <- app_assoc. reflexivity.
      * intros k v [[= <- <-]|Hin] Hk; [contradiction | apply Hset; assumption].
      * intros a Ha. apply Hkeep. intros k Hk. apply Ha. right. exact Hk.
Qed.

(** X18: [update_attributes] sets the attributes that the instance has:
    for a key [k] whose attribute [_k] exists, [_k] becomes the value given;
    a key without such an attribute is skipped with one warning; no attribute
    is added or removed and every other attribute keeps its value.  (For
    keys that do not name, with the underscore, a name defined by the
    class.) *)
Theorem update_attributes_sets_known (class_has : string -> bool) (self : gmap string pyobject)
    (updated_attributes : list (string * pyobject)) :
  List.NoDup (map fst updated_attributes) ->
  (forall key, In key (map fst updated_attributes) -> class_has ("_" +:+ key) = false) ->
  let after := update_attributes class_has self updated_attributes in
  (forall a, is_Some (fst after !! a) <-> is_Some (self !! a))
  /\ snd after
     = List.filter (fun key => negb (bool_decide (is_Some (self !! ("_" +:+ key)))))
         (map fst updated_attributes)
  /\ (forall key value, In (key, value) updated_attributes ->
        is_Some (self !! ("_" +:+ key)) -> fst after !! ("_" +:+ key) = Some value)
  /\ (forall a, (forall key, In key (map fst updated_attributes) -> a <> "_" +:+ key) ->
        fst after !! a = self !! a).
Proof.
  intros Hnd Hcls. exact (update_attributes_loop class_has updated_attributes self [] Hnd Hcls).
Qed.

Lemma update_attributes_sets_known_witness :
  let self := Material_dict (Material_init 2400 None) in
  let after := update_attributes (fun _ => false) self
                 [("name", PyStr "C30"); ("strength", PyFloat 30)]%string in
  fst after !! "_name"%string = Some (PyStr "C30")
  /\ snd after = ["strength"%string]
  /\ fst after !! "_density"%string = self !! "_density"%string.
Proof.
  cbv zeta.
  destruct (update_attributes_sets_known (fun _ => false)
              (Material_dict (Material_init 2400 None))
              [("name", PyStr "C30"); ("strength", PyFloat 30)]%string)
    as (_ & Hwarn & Hset & Hkeep).
  - repeat constructor; cbn; intuition discriminate.
  - reflexivity.
  - split; [|split].
    + apply Hset; [left; reflexivity | eexists; reflexivity].
    + rewrite Hwarn. reflexivity.
    + apply Hkeep. cbn. intros key [<-|[<-|[]]]; discriminate.
Defined.

(** X19: a density set through [update_attributes] is stored as it is
    given: unlike the constructor, which stores [|d|], the update takes no
    absolute value, so that the density of a material can become negative;
    no warning is given. *)
Theorem update_attributes_density_as_given (class_has : string -> bool) (d v : R)
    (name : option string) :
  let self := Material_dict (Material_init d name) in
  let after := update_attributes class_has self [("density"%string, PyFloat v)] in
  self !! "_density"%string = Some (PyFloat (Rabs d))
  /\ fst after !! "_density"%string = Some (PyFloat v)
  /\ fst after !! "_name"%string = self !! "_name"%string
  /\ snd after = [].
Proof.
  cbv zeta. unfold update_attributes, Material_dict, Material_init, hasattr.
  cbn [fold_left fst snd _density _name].
  assert (is_Some (({[ "_density"%string := PyFloat (Rabs d);
                       "_name"%string :=
                         PyStr match name with Some n => n | None => "Material"%string end ]}
                      : gmap string pyobject) !! ("_" +:+ "density"))) as Hhas.
  { eexists. reflexivity. }
  rewrite (bool_decide_eq_true_2 _ Hhas). cbn [orb negb fst snd].
  split; [reflexivity|]. split; [apply lookup_insert_eq|].
  split; [|reflexivity].
  rewrite lookup_insert_ne by discriminate. reflexivity.
Qed.

(** ** [ConstitutiveLaw]: the ids *)

Lemma constitutive_law_init_id (cls : string) (bases : list string)
    (name : option string) (st st' : gmap string Z)
    (i : ConstitutiveLaw.instance) :
  ConstitutiveLaw.__init__ (cls :: bases) name st = Some (i, st') ->
  ConstitutiveLaw.constitutive_law_counter (cls :: bases) st = Some (ConstitutiveLaw.id i)
  /\ st' = <[ cls := (ConstitutiveLaw.id i + 1)%Z ]> st.
Proof.
  unfold ConstitutiveLaw.__init__, ConstitutiveLaw._increase_global_counter.
  destruct (ConstitutiveLaw.constitutive_law_counter (cls :: bases) st) as [v|];
    [|discriminate].
  intros [= <- <-]. split; reflexivity.
Qed.

Lemma constitutive_law_other_classes (cls : string)
    (between : list (list string * option string)) :
  forall (st st' : gmap string Z) (others : list ConstitutiveLaw.instance),
    List.Forall (fun c => hd_error (fst c) <> Some cls) between ->
    ConstitutiveLaw.instantiate_all between st = Some (others, st') ->
    st' !! cls = st !! cls.
Proof.
  induction between as [|[mro nm] between IH]; intros st st' others Hall;
    cbn [ConstitutiveLaw.instantiate_all].
  - intros [= _ <-]. reflexivity.
  - inversion Hall as [|? ? Hhd Hrest]; subst. cbn [fst] in Hhd.
    destruct (ConstitutiveLaw.__init__ mro nm st) as [[i st1]|] eqn:Hinit; [|discriminate].
    destruct (ConstitutiveLaw.instantiate_all between st1) as [[laws st2]|] eqn:Hrun;
      [|discriminate].
    intros [= _ <-]. rewrite (IH st1 st2 laws Hrest Hrun).
    destruct mro as [|c bases].
    + cbn in Hinit. discriminate.
    + apply constitutive_law_init_id in Hinit as [_ ->].
      apply lookup_insert_ne. cbn [hd_error] in Hhd. congruence.
Qed.

(** X20: the ids of the instances of one class are consecutive: a new
    instance gets the id of the instance of its class created last before it,
    plus one, whatever instances of other classes were created in between. *)
Theorem constitutive_law_ids_consecutive (cls : string) (bases : list string)
    (name1 name2 : option string) (between : list (list string * option string))
    (st st1 st2 st3 : gmap string Z) (a b : ConstitutiveLaw.instance)
    (others : list ConstitutiveLaw.instance) :
  List.Forall (fun c => hd_error (fst c) <> Some cls) between ->
  ConstitutiveLaw.__init__ (cls :: bases) name1 st = Some (a, st1) ->
  ConstitutiveLaw.instantiate_all between st1 = Some (others, st2) ->
  ConstitutiveLaw.__init__ (cls :: bases) name2 st2 = Some (b, st3) ->
  ConstitutiveLaw.id b = (ConstitutiveLaw.id a + 1)%Z.
Proof.
  intros Hall Ha Hrun Hb.
  apply constitutive_law_init_id in Ha as [_ ->].
  apply constitutive_law_init_id in Hb as [Hb _].
  cbn [ConstitutiveLaw.constitutive_law_counter] in Hb.
  rewrite (constitutive_law_other_classes cls between _ _ _ Hall Hrun) in Hb.
  rewrite lookup_insert_eq in Hb. congruence.
Qed.

Lemma constitutive_law_ids_consecutive_witness :
  ConstitutiveLaw.id
    {| ConstitutiveLaw.class_of := "Elastic"; ConstitutiveLaw.id := 1;
       ConstitutiveLaw._name := "ConstitutiveLaw_1" |}
  = (ConstitutiveLaw.id
       {| ConstitutiveLaw.class_of := "Elastic"; ConstitutiveLaw.id := 0;
          ConstitutiveLaw._name := "ConstitutiveLaw_0" |} + 1)%Z.
Proof.
  apply (constitutive_law_ids_consecutive "Elastic" ["ConstitutiveLaw"%string] None None
           [(["Sargin"; "ConstitutiveLaw"]%string, None)]
           ConstitutiveLaw.initial
           (<[ "Elastic"%string := 1%Z ]> ConstitutiveLaw.initial)
           (<[ "Sargin"%string := 1%Z ]> (<[ "Elastic"%string := 1%Z ]> ConstitutiveLaw.initial))
           (<[ "Elastic"%string := 2%Z ]>
              (<[ "Sargin"%string := 1%Z ]>
                 (<[ "Elastic"%string := 1%Z ]> ConstitutiveLaw.initial)))
           _ _
           [{| ConstitutiveLaw.class_of := "Sargin"; ConstitutiveLaw.id := 0;
               ConstitutiveLaw._name := "ConstitutiveLaw_0" |}]).
  - repeat constructor. cbn. discriminate.
  - reflexivity.
  - reflexivity.
  - reflexivity.
Defined.

(** X21: the counter of [ConstitutiveLaw] itself never moves: after every
    history of instantiations of its subclasses it is still 0, so that the
    first instance of every class derived directly from [ConstitutiveLaw]
    gets the id 0 and the default name ["ConstitutiveLaw_0"]: ids and default
    names are not unique across classes. *)
Theorem constitutive_law_counter_per_class
    (history : list (list string * option string)) (st : gmap string Z)
    (laws : list ConstitutiveLaw.instance) (cls : string) :
  List.Forall (fun c => hd_error (fst c) <> Some "ConstitutiveLaw"%string) history ->
  List.Forall (fun c => hd_error (fst c) <> Some cls) history ->
  cls <> "ConstitutiveLaw"%string ->
  ConstitutiveLaw.instantiate_all history ConstitutiveLaw.initial = Some (laws, st) ->
  st !! "ConstitutiveLaw"%string = Some 0%Z
  /\ ConstitutiveLaw.__init__ [cls; "ConstitutiveLaw"%string] None st
     = Some ({| ConstitutiveLaw.class_of := cls; ConstitutiveLaw.id := 0;
                ConstitutiveLaw._name := "ConstitutiveLaw_0" |},
             <[ cls := 1%Z ]> st).
Proof.
  intros Hbase Hcls Hne Hrun.
  pose proof (constitutive_law_other_classes _ _ _ _ _ Hbase Hrun) as H0.
  pose proof (constitutive_law_other_classes _ _ _ _ _ Hcls Hrun) as H1.
  unfold ConstitutiveLaw.initial in H0, H1.
  rewrite lookup_singleton_eq in H0.
  rewrite lookup_singleton_ne in H1 by congruence.
  split; [exact H0|].
  unfold ConstitutiveLaw.__init__, ConstitutiveLaw._increase_global_counter.
  cbn [ConstitutiveLaw.constitutive_law_counter]. rewrite H1, H0. reflexivity.
Qed.

Lemma constitutive_law_counter_per_class_witness :
  ConstitutiveLaw.__init__ ["Sargin"; "ConstitutiveLaw"]%string None
    (<[ "Elastic"%string := 2%Z ]> (<[ "Elastic"%string := 1%Z ]> ConstitutiveLaw.initial))
  = Some ({| ConstitutiveLaw.class_of := "Sargin"; ConstitutiveLaw.id := 0;
             ConstitutiveLaw._name := "ConstitutiveLaw_0" |},
          <[ "Sargin"%string := 1%Z ]>
            (<[ "Elastic"%string := 2%Z ]>
               (<[ "Elastic"%string := 1%Z ]> ConstitutiveLaw.initial))).
Proof.
  apply (constitutive_law_counter_per_class
           [(["Elastic"; "ConstitutiveLaw"]%string, None);
            (["Elastic"; "ConstitutiveLaw"]%string, Some "steel"%string)]
           _
           [{| ConstitutiveLaw.class_of := "Elastic"; ConstitutiveLaw.id := 0;
               ConstitutiveLaw._name := "ConstitutiveLaw_0" |};
            {| ConstitutiveLaw.class_of := "Elastic"; ConstitutiveLaw.id := 1;
               ConstitutiveLaw._name := "steel" |}]
           "Sargin").
  - repeat constructor; cbn; discriminate.
  - repeat constructor; cbn; discriminate.
  - discriminate.
  - reflexivity.
Defined.

(** ** The concrete properties [Ecm] and [eps_c1] *)

Lemma not_integer_fraction (p q : Z) :
  (0 < p < q)%Z -> is_integer (IZR p / IZR q) = false.
Proof.
  intros Hpq. unfold is_integer.
  destruct (Req_dec_T _ _) as [Heq|]; [|reflexivity]. exfalso.
  set (n := Int_part (IZR p / IZR q)) in *.
  assert (0 < IZR q)%R as Hq by (apply IZR_lt; lia).
  assert (IZR (n * q) = IZR p) as H.
  { rewrite mult_IZR, Heq. field. lra. }
  apply eq_IZR in H.
  assert (n <= 0 \/ 1 <= n)%Z as [Hn|Hn] by lia; nia.
Qed.

Lemma math_pow_positive (x y : R) : (0 < x)%R -> math_pow x y = Ok (Rpower x y).
Proof. intros H. unfold math_pow. destruct (Rlt_dec 0 x); [reflexivity|contradiction]. Qed.

Lemma math_pow_zero (y : R) : (0 < y)%R -> math_pow 0 y = Ok 0%R.
Proof.
  intros H. unfold math_pow.
  destruct (Rlt_dec 0 0); [lra|].
  destruct (Req_dec_T y 0); [lra|].
  destruct (Req_dec_T 0 0); [|lra].
  destruct (Rlt_dec 0 y); [reflexivity|contradiction].
Qed.

Lemma math_pow_negative (x : R) (p q : Z) :
  (x < 0)%R -> (0 < p < q)%Z -> math_pow x (IZR p / IZR q) = Raise ValueError.
Proof.
  intros Hx Hpq. unfold math_pow.
  assert (0 < IZR p / IZR q)%R as Hy.
  { apply Rdiv_lt_0_compat; apply IZR_lt; lia. }
  destruct (Rlt_dec 0 x); [lra|].
  destruct (Req_dec_T _ 0); [lra|].
  destruct (Req_dec_T x 0); [lra|].
  rewrite not_integer_fraction by assumption. reflexivity.
Qed.

Lemma exponent_3_10 : 0.3%R = (IZR 3 / IZR 10)%R.
Proof. lra. Qed.

Lemma exponent_31_100 : 0.31%R = (IZR 31 / IZR 100)%R.
Proof. lra. Qed.

(** X22: [Ecm] and [eps_c1] reject a negative strength: [math.pow] of a
    negative number to the power 0.3 or 0.31 raises a [ValueError]. *)
Theorem concrete_properties_negative_strength (_fcm : R) :
  (_fcm < 0)%R ->
  Ecm _fcm = Raise ValueError /\ eps_c1 _fcm = Raise ValueError.
Proof.
  intros H. unfold Ecm, eps_c1. rewrite exponent_3_10, exponent_31_100.
  rewrite !math_pow_negative by (lra || lia). split; reflexivity.
Qed.

Lemma concrete_properties_negative_strength_witness :
  Ecm (-1) = Raise ValueError /\ eps_c1 (-1) = Raise ValueError.
Proof.
  apply (concrete_properties_negative_strength (-1)). lra.
Defined.

Lemma Ecm_value (_fcm : R) :
  (0 <= _fcm)%R ->
  Ecm _fcm = Ok (if Req_dec_T _fcm 0 then 0 else 22000.0 * Rpower (_fcm / 10) 0.3)%R.
Proof.
  intros H. unfold Ecm. destruct (Req_dec_T _fcm 0) as [->|Hne].
  - replace (0 / 10)%R with 0%R by lra. rewrite math_pow_zero by lra. cbn [bind].
    f_equal. lra.
  - rewrite math_pow_positive by lra. reflexivity.
Qed.

Lemma Rpower_positive (x y : R) : (0 < Rpower x y)%R.
Proof. unfold Rpower. apply exp_pos. Qed.

Lemma Rpower_one (y : R) : Rpower 1 y = 1%R.
Proof. unfold Rpower. rewrite ln_1, Rmult_0_r. apply exp_0. Qed.

(** X23: on the strengths that are not negative [Ecm] returns a value, 0
    at 0 and 22000 at 10, and it is strictly increasing. *)
Theorem Ecm_increasing (a b : R) :
  (0 <= a < b)%R ->
  exists va vb,
    Ecm a = Ok va /\ Ecm b = Ok vb /\ (0 <= va < vb)%R
    /\ Ecm 0 = Ok 0%R /\ Ecm 10 = Ok 22000%R.
Proof.
  intros [Ha Hab].
  assert (Ecm 10 = Ok 22000%R) as H10.
  { rewrite Ecm_value by lra. destruct (Req_dec_T 10 0); [lra|].
    replace (10 / 10)%R with 1%R by lra. rewrite Rpower_one. f_equal. lra. }
  assert (Ecm 0 = Ok 0%R) as H0.
  { rewrite Ecm_value by lra. destruct (Req_dec_T 0 0); [reflexivity|lra]. }
  rewrite (Ecm_value a), (Ecm_value b) by lra.
  do 2 eexists. split; [reflexivity|]. split; [reflexivity|].
  split; [|split; assumption].
  destruct (Req_dec_T b 0); [lra|].
  pose proof (Rpower_positive (b / 10) 0.3).
  destruct (Req_dec_T a 0).
  - lra.
  - pose proof (Rpower_positive (a / 10) 0.3).
    assert (Rpower (a / 10) 0.3 < Rpower (b / 10) 0.3)%R
      by (apply Rlt_Rpower_l; lra).
    lra.
Qed.

Lemma Ecm_increasing_witness :
  exists va vb,
    Ecm 10 = Ok va /\ Ecm 20 = Ok vb /\ (0 <= va < vb)%R
    /\ Ecm 0 = Ok 0%R /\ Ecm 10 = Ok 22000%R.
Proof.
  apply (Ecm_increasing 10 20). lra.
Defined.

Lemma eps_c1_value (_fcm : R) :
  (0 <= _fcm)%R ->
  eps_c1 _fcm
  = Ok (if Req_dec_T _fcm 0 then 0 else Rmin (0.7 * Rpower _fcm 0.31) 2.8 / 1000)%R.
Proof.
  intros H. unfold eps_c1. destruct (Req_dec_T _fcm 0) as [->|Hne].
  - rewrite math_pow_zero by lra. cbn [bind]. f_equal.
    rewrite Rmin_left by lra. lra.
  - rewrite math_pow_positive by lra. reflexivity.
Qed.

(** X24: on the strengths that are not negative [eps_c1] returns a value
    between 0 and 0.0028, it never decreases with the strength, and it is
    0.0028 from the strength [4 ** (100 / 31)] (about 87.5) on. *)
Theorem eps_c1_capped (a b : R) :
  (0 <= a <= b)%R ->
  exists va vb,
    eps_c1 a = Ok va /\ eps_c1 b = Ok vb
    /\ (0 <= va <= vb)%R /\ (vb <= 0.0028)%R
    /\ (Rpower 4 (100 / 31) <= a -> va = 0.0028)%R.
Proof.
  intros [Ha Hab].
  rewrite (eps_c1_value a), (eps_c1_value b) by lra.
  do 2 eexists. split; [reflexivity|]. split; [reflexivity|].
  assert (forall x, 0 <= Rmin (0.7 * Rpower x 0.31) 2.8 / 1000 <= 0.0028)%R as Hrange.
  { intros x. pose proof (Rpower_positive x 0.31).
    pose proof (Rmin_r (0.7 * Rpower x 0.31) 2.8).
    assert (0 <= Rmin (0.7 * Rpower x 0.31) 2.8)%R by (apply Rmin_glb; lra).
    lra. }
  split; [|split].
  - destruct (Req_dec_T a 0) as [->|Hne].
    + destruct (Req_dec_T b 0); [lra|]. pose proof (Hrange b). lra.
    + destruct (Req_dec_T b 0); [lra|].
      pose proof (Hrange a).
      assert (Rpower a 0.31 <= Rpower b 0.31)%R by (apply Rle_Rpower_l; lra).
      assert (Rmin (0.7 * Rpower a 0.31) 2.8 <= Rmin (0.7 * Rpower b 0.31) 2.8)%R
        by (apply Rle_min_compat_r; lra).
      lra.
  - destruct (Req_dec_T b 0); [lra|]. apply Hrange.
  - intros Hcap. pose proof (Rpower_positive 4 (100 / 31)).
    destruct (Req_dec_T a 0); [lra|].
    assert (Rpower (Rpower 4 (100 / 31)) 0.31 <= Rpower a 0.31)%R as Hle
      by (apply Rle_Rpower_l; lra).
    rewrite Rpower_mult in Hle.
    replace (100 / 31 * 0.31)%R with 1%R in Hle by lra.
    rewrite Rpower_1 in Hle by lra.
    rewrite Rmin_right by lra. lra.
Qed.

Lemma eps_c1_capped_witness :
  exists va vb,
    eps_c1 0 = Ok va /\ eps_c1 20 = Ok vb
    /\ (0 <= va <= vb)%R /\ (vb <= 0.0028)%R
    /\ (Rpower 4 (100 / 31) <= 0 -> va = 0.0028)%R.
Proof.
  apply (eps_c1_capped 0 20). lra.
Defined.

(** ** The area *)

(** X25: at the order (0, 0) [marin_integration] is the shoelace formula:
    half the sum of the cross terms [y_i z_(i+1) - y_(i+1) z_i] of the
    consecutive vertices of the lists as they stand. *)
Theorem marin_integration_shoelace (y z : list R) :
  length y = length z ->
  marin_integration y z 0 0
  = Ok (Rsum (map (fun e => cross (fst e) (snd e)) (consecutive_pairs (combine y z))) / 2)%R.
Proof.
  intros Hlen. rewrite marin_integration_edges by assumption. f_equal.
  unfold edge_summation, marin_denominator.
  cbn [Nat.add binomial Nat.mul INR].
  rewrite (map_ext _ _ edge_term_area). f_equal; lra.
Qed.

Lemma marin_integration_shoelace_witness :
  marin_integration [0; 2; 0; 0]%R [0; 0; 3; 0]%R 0 0
  = Ok (Rsum (map (fun e => cross (fst e) (snd e))
                (consecutive_pairs (combine [0; 2; 0; 0] [0; 0; 3; 0])%R)) / 2)%R.
Proof.
  apply (marin_integration_shoelace [0; 2; 0; 0]%R [0; 0; 3; 0]%R). reflexivity.
Defined.

(** ** Zero curvature, at Python floats and at numpy scalars *)

Lemma for_each_ext {A S : Type} (xs : list A) (f g : A -> S -> result S) :
  (forall x s, f x s = g x s) -> forall s, for_each xs f s = for_each xs g s.
Proof.
  intros Hfg. induction xs as [|x xs IH]; intros s; cbn [for_each]; [reflexivity|].
  rewrite Hfg. destruct (g x s) as [s'|e]; cbn [bind]; [apply IH | reflexivity].
Qed.

(** At Python floats the method with the division of its operands is
    [prepare_input]: no line is asked for at an ordinate that is not
    finite. *)
Lemma prepare_surfaces_at_python (E : GeometryEngine) (X : NonFiniteLines E)
    (rotated_geom : CompoundGeometry) (strain_rotated : R * R)
    (prepared_input : list prepared) :
  prepare_surfaces_at E X PythonFloats rotated_geom strain_rotated prepared_input
  = prepare_surfaces E rotated_geom strain_rotated prepared_input.
Proof.
  unfold prepare_surfaces_at, prepare_surfaces.
  apply for_each_ext. intros g s.
  destruct (__marin__ (material g) strain_rotated) as [strains coeffs].
  apply for_each_ext. intros p t.
  destruct (getitem strains p) as [sp|e]; cbn [bind]; [|reflexivity].
  unfold truediv_at.
  destruct (truediv (fst strain_rotated - fst sp) (snd strain_rotated)) as [v0|e];
    cbn [bind]; [|reflexivity].
  destruct (truediv (fst strain_rotated - snd sp) (snd strain_rotated)) as [v1|e];
    cbn [bind]; [|reflexivity].
  cbn [float64_gt]. destruct (Rgt_dec v0 v1); reflexivity.
Qed.

Lemma prepare_input_at_python (E : GeometryEngine) (X : NonFiniteLines E)
    (geo : CompoundGeometry) (strain : R * R * R) :
  prepare_input_at E X PythonFloats geo strain = prepare_input E geo strain.
Proof.
  destruct strain as [[s0 s1] s2]. unfold prepare_input_at, prepare_input.
  rewrite prepare_surfaces_at_python. reflexivity.
Qed.

Lemma np_truediv_zero (a : R) : non_finite (np_truediv a 0) = true.
Proof.
  unfold np_truediv. destruct (Req_dec_T 0 0); [|contradiction].
  destruct (Rlt_dec 0 a); [reflexivity|]. destruct (Rlt_dec a 0); reflexivity.
Qed.

(** At numpy scalars and a rotated curvature zero every line is at an
    ordinate that is not finite; when nothing is cut there, the surface
    geometries give no entry. *)
Lemma prepare_surfaces_at_numpy_zero_curvature (E : GeometryEngine) (X : NonFiniteLines E)
    (rotated_geom : CompoundGeometry) (strain0 : R) (prepared_input : list prepared) :
  Forall (nothing_between_nonfinite_lines E X) (geometries rotated_geom) ->
  prepare_surfaces_at E X NumpyScalars rotated_geom (strain0, 0%R) prepared_input
  = Ok prepared_input.
Proof.
  unfold prepare_surfaces_at.
  induction (geometries rotated_geom) as [|g gs IH]; intros Hall; [reflexivity|].
  inversion Hall as [|? ? Hg Hgs]; subst. cbn [for_each].
  destruct (__marin__ (material g) (strain0, 0%R)) as [strains coeffs].
  assert (forall ps : list nat,
            (forall p, In p ps -> p < length strains) ->
            for_each ps (fun p prepared_input =>
              sp <- getitem strains p ;;
              y0 <- truediv_at NumpyScalars (fst (strain0, 0%R) - fst sp) (snd (strain0, 0%R)) ;;
              y1 <- truediv_at NumpyScalars (fst (strain0, 0%R) - snd sp) (snd (strain0, 0%R)) ;;
              let '(y0, y1) := if float64_gt y0 y1 then (y1, y0) else (y0, y1) in
              let bbox := bounds E (polygon g) in
              let line0 := create_line_at E X y0 bbox in
              let line1 := create_line_at E X y1 bbox in
              let lines := (line0, line1) in
              let result := split_two_lines E g lines in
              match result with
              | IsPolygon result =>
                  cp <- getitem coeffs p ;;
                  get_input_polygon E result cp prepared_input
              | IsMultiPolygon geoms =>
                  for_each geoms (fun polygon prepared_input =>
                    cp <- getitem coeffs p ;;
                    get_input_polygon E polygon cp prepared_input) prepared_input
              | IsOther => Ok prepared_input
              end) prepared_input = Ok prepared_input) as Hzones.
  { induction ps as [|p ps IHps]; intros Hps; [reflexivity|]. cbn [for_each].
    rewrite (getitem_nth strains p (0, 0)%R) by (apply Hps; left; reflexivity).
    cbn [bind truediv_at fst snd].
    pose proof (np_truediv_zero (strain0 - fst (nth p strains (0, 0)%R))) as H0.
    pose proof (np_truediv_zero (strain0 - snd (nth p strains (0, 0)%R))) as H1.
    destruct (float64_gt _ _); cbv zeta; rewrite (Hg _ _) by assumption;
      cbn [bind]; apply IHps; intros q Hq; apply Hps; right; exact Hq. }
  rewrite Hzones by (intros p Hp; apply in_seq in Hp; lia).
  cbn [bind]. apply IH, Hgs.
Qed.

(** The division at numpy scalars raises nothing. *)
Lemma prepare_input_at_numpy_no_zero_division (E : GeometryEngine) (X : NonFiniteLines E)
    (geo : CompoundGeometry) (strain : R * R * R) :
  prepare_input_at E X NumpyScalars geo strain <> Raise ZeroDivisionError.
Proof.
  destruct strain as [[s0 s1] s2]. unfold prepare_input_at.
  set (rg := rotate E geo (atan2 s2 s1)). set (sr := (s0, sqrt (s2 ^ 2 + s1 ^ 2))).
  assert (forall q cp u, get_input_polygon E q cp u <> Raise ZeroDivisionError) as Hpoly.
  { intros q cp u H. apply get_input_polygon_raises in H. discriminate. }
  assert (forall (A : Type) (l : list A) (i : nat),
            getitem l i <> Raise ZeroDivisionError) as Hget.
  { intros A l i. unfold getitem. destruct (nth_error l i); discriminate. }
  assert (forall pin, prepare_surfaces_at E X NumpyScalars rg sr pin
                      <> Raise ZeroDivisionError) as Hsurf.
  { intros pin. unfold prepare_surfaces_at. apply for_each_never. intros g s _.
    destruct (__marin__ (material g) sr) as [strains coeffs].
    apply for_each_never. intros k t _.
    destruct (getitem strains k) as [sp|e] eqn:Hsp; cbn [bind];
      [|intros [= ->]; exact (Hget _ _ _ Hsp)].
    cbn [truediv_at bind].
    destruct (float64_gt _ _); cbv zeta;
      (destruct (split_two_lines E g _) as [q|qs|]; [| |discriminate];
       [ destruct (getitem coeffs k) as [cp|e] eqn:Hcp; cbn [bind];
           [apply Hpoly | intros [= ->]; exact (Hget _ _ _ Hcp)]
       | apply for_each_never; intros q u _;
         destruct (getitem coeffs k) as [cp|e] eqn:Hcp; cbn [bind];
           [apply Hpoly | intros [= ->]; exact (Hget _ _ _ Hcp)] ]). }
  destruct (prepare_surfaces_at E X NumpyScalars rg sr []) as [zones|e] eqn:Hs; cbn [bind].
  - destruct (prepare_reinforcement rg sr) as [[[x y] F]|e] eqn:Hre; cbn [bind];
      [discriminate|].
    intros [= ->]. revert Hre. unfold prepare_reinforcement. apply for_each_never.
    intros pg [[x0 y0] F0] _. destruct (_point pg) as [xp yp].
    destruct (getitem _ 0) as [s|e] eqn:Hg; cbn [bind]; [discriminate|].
    intros [= ->]. exact (Hget _ _ _ Hg).
  - intros [= ->]. apply (Hsurf [] Hs).
Qed.

Lemma prepare_surfaces_at_ok (E : GeometryEngine) (X : NonFiniteLines E) (kind : operands)
    (rotated_geom : CompoundGeometry) (strain_rotated : R * R)
    (pin pout : list prepared) :
  Forall (fun e => entry_ok e = true) pin ->
  prepare_surfaces_at E X kind rotated_geom strain_rotated pin = Ok pout ->
  Forall (fun e => entry_ok e = true) pout.
Proof.
  unfold prepare_surfaces_at.
  apply (for_each_invariant (Forall (fun e => entry_ok e = true))).
  intros g s s' _ Hs.
  destruct (__marin__ (material g) strain_rotated) as [strains coeffs].
  apply (for_each_invariant (Forall (fun e => entry_ok e = true))); [|exact Hs].
  clear s s' Hs. intros k s s' _ Hs.
  destruct (getitem strains k) as [sp|]; cbn [bind]; [|discriminate].
  destruct (truediv_at kind _ _) as [y0|]; cbn [bind]; [|discriminate].
  destruct (truediv_at kind _ _) as [y1|]; cbn [bind]; [|discriminate].
  destruct (float64_gt y0 y1); cbv zeta;
    (destruct (split_two_lines E g _) as [q|qs|];
     [ destruct (getitem coeffs k) as [cp|]; cbn [bind]; [|discriminate];
       apply get_input_polygon_ok, Hs
     | apply (for_each_invariant (Forall (fun e => entry_ok e = true))); [|exact Hs];
       intros q t t' _ Ht;
       destruct (getitem coeffs k) as [cp|]; cbn [bind]; [|discriminate];
       apply get_input_polygon_ok, Ht
     | intros [= <-]; exact Hs ]).
Qed.

Lemma integrate_no_zero_division (angle : R) (prepared_input : list prepared) :
  Forall (fun e => entry_ok e = true) prepared_input ->
  integrate angle prepared_input <> Raise ZeroDivisionError.
Proof.
  intros Hall. destruct (accumulate_succeeds _ Hall) as [[[N Mx] My] Hacc].
  unfold integrate. rewrite Hacc. cbn [bind]. rewrite matmul_rotation. discriminate.
Qed.

(** The resultant of the reinforcement alone, at the rotation angle zero. *)
Lemma integrate_reinforcement_alone (rotated_geom : CompoundGeometry)
    (strain_rotated : R * R) :
  Forall (stress_given strain_rotated) (point_geometries rotated_geom) ->
  (xyF <- prepare_reinforcement rotated_geom strain_rotated ;;
   let '(x, y, F) := xyF in
   integrate 0 ([] ++ [(1%Z, x, y, F)]))
  = Ok (Rsum (map (point_force strain_rotated) (point_geometries rotated_geom)),
        dot (map (point_force strain_rotated) (point_geometries rotated_geom))
            (map (fun pg => snd (_point pg)) (point_geometries rotated_geom)),
        dot (map (point_force strain_rotated) (point_geometries rotated_geom))
            (map (fun pg => fst (_point pg)) (point_geometries rotated_geom))).
Proof.
  intros Hst. rewrite (prepare_reinforcement_lists _ _ Hst). cbn [bind].
  unfold integrate.
  rewrite (accumulate_snoc [] _ (0, 0, 0)%R eq_refl).
  rewrite add_contribution_reinforcement by (rewrite !length_map; reflexivity).
  cbn [bind]. rewrite matmul_rotation. cbn [getitem2 getitem nth_error bind].
  rewrite cos_0, sin_0. do 2 f_equal; [f_equal|]; ring.
Qed.

Lemma prepare_input_at_zero_curvature (E : GeometryEngine) (X : NonFiniteLines E)
    (kind : operands) (geo : CompoundGeometry) (strain0 : R) :
  prepare_input_at E X kind geo (strain0, 0, 0)%R
  = (prepared_input <- prepare_surfaces_at E X kind (rotate E geo 0) (strain0, 0%R) [] ;;
     xyF <- prepare_reinforcement (rotate E geo 0) (strain0, 0%R) ;;
     let '(x, y, F) := xyF in
     Ok (0%R, prepared_input ++ [(1%Z, x, y, F)])).
Proof.
  unfold prepare_input_at. rewrite atan2_0_0, rotated_curvature_0. reflexivity.
Qed.

(** C1, amended: for a strain plane of zero curvature there is no path of
    uniform strain: the angle is [atan2(0, 0) = 0], the rotated curvature is
    zero, and every strain zone of a surface geometry is divided by it.
    At Python floats the call raises [ZeroDivisionError] as soon as one
    surface geometry of the rotated section has a material with a strain
    zone; when none has, it returns the resultant of the reinforcement alone,
    [N = sum F], [Mx = sum F z], [My = sum F y] with [F] the stress at the
    strain of the origin times the area of each point.  At numpy scalars the
    division raises nothing: the cutting lines are asked for at ordinates that
    are not finite, no [ZeroDivisionError] is raised, and when the clipping
    returns no polygon between such lines the call returns the resultant of
    the reinforcement alone again, whatever the surface geometries are. *)
Theorem zero_curvature_not_special_cased (E : GeometryEngine) (X : NonFiniteLines E)
    (geo : CompoundGeometry) (strain0 : R) :
  let rotated_geom := rotate E geo 0 in
  let strain_rotated := (strain0, 0%R) in
  let points := point_geometries rotated_geom in
  let F := map (point_force strain_rotated) points in
  let y := map (fun pg => fst (_point pg)) points in
  let z := map (fun pg => snd (_point pg)) points in
  (integrate_strain_response_on_geometry_at E X PythonFloats geo (strain0, 0, 0)%R
   = integrate_strain_response_on_geometry E geo (strain0, 0, 0)%R
   /\ (Exists (has_zone strain_rotated) (geometries rotated_geom) ->
       integrate_strain_response_on_geometry E geo (strain0, 0, 0)%R
       = Raise ZeroDivisionError)
   /\ (Forall (has_no_zone strain_rotated) (geometries rotated_geom) ->
       Forall (stress_given strain_rotated) points ->
       integrate_strain_response_on_geometry E geo (strain0, 0, 0)%R
       = Ok (Rsum F, dot F z, dot F y)))
  /\ (integrate_strain_response_on_geometry_at E X NumpyScalars geo (strain0, 0, 0)%R
      <> Raise ZeroDivisionError
      /\ (Forall (nothing_between_nonfinite_lines E X) (geometries rotated_geom) ->
          Forall (stress_given strain_rotated) points ->
          integrate_strain_response_on_geometry_at E X NumpyScalars geo (strain0, 0, 0)%R
          = Ok (Rsum F, dot F z, dot F y))).
Proof.
  cbv zeta. split; [split; [|split]|split].
  - unfold integrate_strain_response_on_geometry_at, integrate_strain_response_on_geometry.
    rewrite prepare_input_at_python. reflexivity.
  - intros Hex. unfold integrate_strain_response_on_geometry.
    rewrite prepare_input_zero_curvature.
    rewrite (prepare_surfaces_zero_curvature E _ strain0 [] Hex).
    reflexivity.
  - intros Hnone Hst. unfold integrate_strain_response_on_geometry.
    rewrite prepare_input_zero_curvature.
    rewrite (prepare_surfaces_no_zone E _ _ [] Hnone).
    cbn [bind].
    rewrite <- (integrate_reinforcement_alone _ _ Hst).
    destruct (prepare_reinforcement _ _) as [[[x y] F]|e]; reflexivity.
  - unfold integrate_strain_response_on_geometry_at.
    destruct (prepare_input_at E X NumpyScalars geo (strain0, 0, 0)%R)
      as [[angle prepared_input]|e] eqn:Hprep; cbn [bind fst snd].
    + apply integrate_no_zero_division.
      revert Hprep. unfold prepare_input_at.
      destruct (prepare_surfaces_at E X NumpyScalars _ _ []) as [zones|] eqn:Hsurf;
        cbn [bind]; [|discriminate].
      destruct (prepare_reinforcement _ _) as [[[x y] F]|] eqn:Hre; cbn [bind];
        [|discriminate].
      intros [= <- <-].
      apply prepare_reinforcement_ok in Hre as [Hx Hy].
      apply Forall_app. split.
      * revert Hsurf. apply prepare_surfaces_at_ok. constructor.
      * constructor; [|constructor]. unfold entry_ok. cbn [Z.eqb].
        rewrite Hx, Hy, Nat.eqb_refl. reflexivity.
    + intros [= ->]. apply (prepare_input_at_numpy_no_zero_division E X geo _ Hprep).
  - intros Hnothing Hst. unfold integrate_strain_response_on_geometry_at.
    rewrite prepare_input_at_zero_curvature.
    rewrite (prepare_surfaces_at_numpy_zero_curvature E X _ strain0 [] Hnothing).
    cbn [bind].
    rewrite <- (integrate_reinforcement_alone _ _ Hst).
    destruct (prepare_reinforcement _ _) as [[[x y] F]|e]; reflexivity.
Qed.

(** Settles the minima and maxima of concrete reals. *)
Ltac decide_extrema :=
  repeat match goal with
         | |- context [Rmin ?a ?b] =>
             first [rewrite (Rmin_left a b) by lra | rewrite (Rmin_right a b) by lra]
         | |- context [Rmax ?a ?b] =>
             first [rewrite (Rmax_left a b) by lra | rewrite (Rmax_right a b) by lra]
         end.

Lemma unit_square_bounds :
  ring_bounds [(0, 0); (1, 0); (1, 1); (0, 1); (0, 0)]%R = (0, 0, 1, 1)%R.
Proof.
  unfold ring_bounds. cbn [fold_left fst snd]. decide_extrema. reflexivity.
Qed.

Lemma unit_square_nothing_off_box :
  Forall (nothing_between_nonfinite_lines reference_engine off_box_lines)
    (geometries (rotate reference_engine unit_square_section 0)).
Proof.
  change (rotate reference_engine unit_square_section 0)
    with (rotate_geometry unit_square_section 0).
  rewrite rotate_geometry_0. unfold unit_square_section. cbn [geometries].
  constructor; [|constructor]. intros y0 y1 H0 H1.
  assert (forall y : float64, non_finite y = true ->
            create_line_at reference_engine off_box_lines y
              (bounds reference_engine
                 {| exterior := [(0, 0); (1, 0); (1, 1); (0, 1); (0, 0)]%R;
                    interiors := [] |})
            = {| through := (0, 1 + 1)%R; direction := 0%R;
                 extent := (0, 0, 1, 1)%R |})
    as Hline.
  { intros y Hy. cbn [reference_engine bounds exterior]. rewrite unit_square_bounds.
    destruct y; [discriminate| | |]; reflexivity. }
  cbn [polygon]. rewrite (Hline y0 H0), (Hline y1 H1).
  cbn [reference_engine split_two_lines]. unfold split_between.
  cbn [through fst snd polygon exterior interiors].
  decide_extrema.
  unfold clip_band, clip_ring, consecutive_pairs.
  cbn [tl combine flat_map fst snd app map].
  decide_reals. reflexivity.
Qed.

Lemma zero_curvature_not_special_cased_witness :
  Exists (has_zone (5, 0)%R) (geometries (rotate reference_engine unit_square_section 0))
  /\ integrate_strain_response_on_geometry reference_engine unit_square_section
       (5, 0, 0)%R = Raise ZeroDivisionError
  /\ Forall (nothing_between_nonfinite_lines reference_engine off_box_lines)
       (geometries (rotate reference_engine unit_square_section 0))
  /\ integrate_strain_response_on_geometry_at reference_engine off_box_lines NumpyScalars
       unit_square_section (5, 0, 0)%R = Ok (0, 0, 0)%R.
Proof.
  assert (Exists (has_zone (5, 0)%R)
            (geometries (rotate reference_engine unit_square_section 0))) as Hex.
  { left. unfold has_zone. cbn. discriminate. }
  split; [exact Hex|].
  destruct (zero_curvature_not_special_cased reference_engine off_box_lines
              unit_square_section 5) as [(_ & Hpy & _) (_ & Hnp)].
  split; [apply Hpy, Hex|].
  split; [apply unit_square_nothing_off_box|].
  rewrite Hnp; [reflexivity | apply unit_square_nothing_off_box | constructor].
Defined.

(** ** Orientation *)



